(** * bbp-pi-parallel: hexadecimal digits of pi by the Bailey-Borwein-Plouffe formula

    A shallow embedding of [bbp-pi-parallel-cpu.cpp] and
    [bbp-pi-parallel-gpu.cpp], and the properties of the specification
    checked against it.

    Conventions of the embedding.
    - [double] is IEEE 754 binary64 with round-to-nearest-even: Rocq's
      primitive [float], whose operations are specified by [SpecFloat].
    - [int] is a 32-bit two's complement integer, held in [Z].  Signed
      overflow, an out-of-range conversion from [double] and an access
      outside an array are undefined behaviour in C++: the embedding stops
      there with [Undefined].
    - [uint] is a 32-bit unsigned integer, held in [Z], wrapping modulo 2^32.
    - the function-local [static] variables of [expoMod] are the state of
      a state-and-error monad [M].
    - a [while] loop whose trip count is not bounded by its text takes fuel
      and stops with [OutOfFuel] when the fuel is used up.
    - the worker threads of a batch run concurrently and share the statics
      of [expoMod], which nothing synchronises.  While the table is not
      built every worker writes it, so a batch of two workers or more is a
      data race, undefined behaviour; the embedding stops there with
      [Undefined DataRace].  A single worker, or workers that find the table
      built and only read it, do not race: their results are those of
      running them one after the other, which is what the embedding does.
    - every floating-point operation is rounded on its own (no fused
      multiply-add), and [pow(16, i)] is the exact power of two.
    - the GPU file has the same [expoMod] with a table of 32 entries, the
      same right portion, [bbpfCalc] and [toHex], and a
      [leftPortionThreaded] that takes the number of terms; its kernel
      launch is not part of the embedding. *)

From Stdlib Require Import Ascii String.
From Stdlib Require Import ZArith QArith Qpower Qround Qabs List Bool Lia Lra Psatz.
From Stdlib Require Import Floats Uint63.
Import ListNotations.

Set Warnings "-inexact-float".

Local Open Scope Z_scope.

(** ** Machine integers *)

Definition INT_MIN : Z := - 2 ^ 31.
Definition INT_MAX : Z := 2 ^ 31 - 1.
Definition UINT_MOD : Z := 2 ^ 32.

Definition in_int (z : Z) : bool := (INT_MIN <=? z) && (z <=? INT_MAX).

(** Arithmetic of [unsigned int]. *)
Definition to_uint (z : Z) : Z := z mod UINT_MOD.

(** Conversion of an [unsigned int] to [int] (two's complement). *)
Definition uint_to_int (u : Z) : Z := if u <=? INT_MAX then u else u - UINT_MOD.

(** ** Doubles *)

Definition double := float.
Bind Scope float_scope with double.

(** Conversion of an integer to [double]; exact for |z| <= 2^53. *)
Definition Z2D (z : Z) : double :=
  if z <? 0 then (- of_uint63 (Uint63.of_Z (- z)))%float
  else of_uint63 (Uint63.of_Z z).

(** The integer part of a finite double, rounding toward zero. *)
Definition trunc_SF (x : spec_float) : option Z :=
  match x with
  | S754_zero _ => Some 0
  | S754_finite s m e =>
      let a := match e with
               | Zneg p => Z.shiftr (Zpos m) (Zpos p)
               | _ => Z.shiftl (Zpos m) e
               end in
      Some (if s then - a else a)
  | _ => None
  end.

Definition truncD (x : double) : option Z := trunc_SF (Prim2SF x).

(** [std::floor]. *)
Definition floor_SF (x : spec_float) : option Z :=
  match x with
  | S754_finite s m (Zneg p) =>
      Some (Z.shiftr (if s then Zneg m else Zpos m) (Zpos p))
  | _ => None
  end.

Definition floor (x : double) : double :=
  match floor_SF (Prim2SF x) with
  | Some z => Z2D z
  | None => x
  end.

(** [pow(16, i)] for an integer [i]: the power of two 2^(4i), which is a
    double whenever -1074 <= 4i <= 1023. *)
Definition pow16 (i : Z) : double := FloatOps.Z.ldexp 1%float (4 * i).

(** ** Outcomes, and the monad of [expoMod]'s static variables *)

Inductive UB : Type :=
| OutOfBoundsRead (i : Z)
| OutOfBoundsWrite (i : Z)
| SignedOverflow
| DoubleToInt
| DataRace.

Inductive outcome (A : Type) : Type :=
| Ok (a : A)
| Undefined (u : UB)
| OutOfFuel.
Arguments Ok {A} a.
Arguments Undefined {A} u.
Arguments OutOfFuel {A}.

(** [static int init; static int pwrtbl[N]; static int highestpwrtblpwr;] *)
Record statics : Type := mkStatics {
  init : bool;
  pwrtbl : list Z;
  highestpwrtblpwr : Z
}.

(** Static storage is zero-initialised; [N] is 64 on the CPU, 32 on the GPU. *)
Definition fresh (N : nat) : statics :=
  {| init := false; pwrtbl := repeat 0 N; highestpwrtblpwr := 0 |}.

Definition M (A : Type) : Type := statics -> outcome (A * statics).

Definition ret {A} (a : A) : M A := fun st => Ok (a, st).

Definition bind {A B} (c : M A) (f : A -> M B) : M B :=
  fun st => match c st with
            | Ok (a, st') => f a st'
            | Undefined u => Undefined u
            | OutOfFuel => OutOfFuel
            end.

Definition undefined {A} (u : UB) : M A := fun _ => Undefined u.
Definition out_of_fuel {A} : M A := fun _ => OutOfFuel.

Declare Scope m_scope.
Delimit Scope m_scope with m.
Notation "x <- c ;; k" := (bind c (fun x => k))
  (at level 61, c at next level, right associativity) : m_scope.
Notation "c ;; k" := (bind c (fun _ => k))
  (at level 61, right associativity) : m_scope.
Local Open Scope m_scope.

(** An [int] result: undefined when it does not fit. *)
Definition int (z : Z) : M Z :=
  if in_int z then ret z else undefined SignedOverflow.

(** [static_cast<int>(x)] of a double. *)
Definition static_cast_int (x : double) : M Z :=
  match truncD x with
  | Some z => if in_int z then ret z else undefined DoubleToInt
  | None => undefined DoubleToInt
  end.

Definition load (i : Z) : M Z :=
  fun st =>
    if (0 <=? i) && (i <? Z.of_nat (length (pwrtbl st)))
    then Ok (nth (Z.to_nat i) (pwrtbl st) 0, st)
    else Undefined (OutOfBoundsRead i).

Fixpoint update (l : list Z) (i : nat) (v : Z) : list Z :=
  match l, i with
  | [], _ => []
  | _ :: t, O => v :: t
  | x :: t, S i' => x :: update t i' v
  end.

Definition store (i v : Z) : M unit :=
  fun st =>
    if (0 <=? i) && (i <? Z.of_nat (length (pwrtbl st)))
    then Ok (tt, {| init := init st;
                    pwrtbl := update (pwrtbl st) (Z.to_nat i) v;
                    highestpwrtblpwr := highestpwrtblpwr st |})
    else Undefined (OutOfBoundsWrite i).

Definition get_init : M bool := fun st => Ok (init st, st).
Definition set_init (b : bool) : M unit :=
  fun st => Ok (tt, {| init := b; pwrtbl := pwrtbl st;
                       highestpwrtblpwr := highestpwrtblpwr st |}).
Definition get_highest : M Z := fun st => Ok (highestpwrtblpwr st, st).
Definition set_highest (h : Z) : M unit :=
  fun st => Ok (tt, {| init := init st; pwrtbl := pwrtbl st;
                       highestpwrtblpwr := h |}).
Definition table_size : M nat := fun st => Ok (length (pwrtbl st), st).

(** ** expoMod *)

(** [while (pwrtbl[highestpwrtblpwr] < n) { pwrtbl[h+1] = pwrtbl[h] * 2; h++; }] *)
Fixpoint grow_table (fuel : nat) (n : double) : M unit :=
  match fuel with
  | O => out_of_fuel
  | S fuel' =>
      h <- get_highest ;;
      x <- load h ;;
      if (Z2D x <? n)%float then
        x' <- load h ;;
        y <- int (x' * 2) ;;
        h1 <- int (h + 1) ;;
        store h1 y ;;
        h' <- int (h + 1) ;;
        set_highest h' ;;
        grow_table fuel' n
      else ret tt
  end.

(** [while (!init) { pwrtbl[0] = 1; ...; init = 1; }]: the body sets [init],
    so it runs at most once.  Each turn of the inner loop moves
    [highestpwrtblpwr] one slot up, so it makes at most as many turns as the
    table has slots before a store falls outside. *)
Definition init_table (n : double) : M unit :=
  i <- get_init ;;
  if i then ret tt
  else
    store 0 1 ;;
    N <- table_size ;;
    grow_table (S N) n ;;
    set_init true.

(** [for (; pwrtbl[bitsneeded] < n; bitsneeded++);] *)
Fixpoint scan_table (fuel : nat) (n : double) (bitsneeded : Z) : M Z :=
  match fuel with
  | O => out_of_fuel
  | S fuel' =>
      x <- load bitsneeded ;;
      if (Z2D x <? n)%float then
        b <- int (bitsneeded + 1) ;;
        scan_table fuel' n b
      else ret bitsneeded
  end.

(** [r = r - static_cast<int>(r/k)*k;] *)
Definition mod_step (r k : double) : M double :=
  q <- static_cast_int (r / k)%float ;;
  ret (r - Z2D q * k)%float.

(** The body of [for (int i = 0; i <= bitsneeded; i++)], on [(n, t, r)]. *)
Definition expo_body (k : double) (ntr : double * Z * double)
  : M (double * Z * double) :=
  let '(n, t, r) := ntr in
  nr <- (if (Z2D t <=? n)%float then
           r1 <- mod_step (r * 16)%float k ;;
           ret ((n - Z2D t)%float, r1)
         else ret (n, r)) ;;
  let '(n, r) := nr in
  let t := Z.quot t 2 in
  if 1 <=? t then
    r2 <- mod_step (r * r)%float k ;;
    ret (n, t, r2)
  else ret (n, t, r).

Fixpoint expo_loop (count : nat) (k : double) (ntr : double * Z * double)
  : M (double * Z * double) :=
  match count with
  | O => ret ntr
  | S count' => ntr' <- expo_body k ntr ;; expo_loop count' k ntr'
  end.

(** [double expoMod(double n, double k)] *)
Definition expoMod (n k : double) : M double :=
  init_table n ;;
  N <- table_size ;;
  b <- scan_table (S N) n 0 ;;
  x <- load b ;;
  bitsneeded <- (if negb (Z2D x =? n)%float then int (b - 1) else ret b) ;;
  t <- load bitsneeded ;;
  ntr <- expo_loop (Z.to_nat (bitsneeded + 1)) k (n, t, 1%float) ;;
  ret (snd ntr).

(** ** leftPortionThreaded *)

(** One turn of the chunk loop:
    [denominator = 8*k + j; numerator = expoMod(d - k, denominator);
     s = s + numerator/denominator; s = s - std::floor(s);] *)
Definition left_term (j d k : Z) (s : double) : M double :=
  k8 <- int (8 * k) ;;
  den <- int (k8 + j) ;;
  let denominator := Z2D den in
  e <- int (d - k) ;;
  numerator <- expoMod (Z2D e) denominator ;;
  let s := (s + numerator / denominator)%float in
  ret (s - floor s)%float.

(** [for (; k < bound; k++)], at most [count] turns. *)
Fixpoint chunk_loop (count : nat) (bound j d k : Z) (s : double) : M double :=
  match count with
  | O => ret s
  | S count' =>
      if k <? bound then
        s' <- left_term j d k s ;;
        k' <- int (k + 1) ;;
        chunk_loop count' bound j d k' s'
      else ret s
  end.

(** The GPU's [leftPortionThreaded(int terms, int k, int j, int d)]. *)
Definition leftPortionThreaded_gpu (terms k j d : Z) : M double :=
  bound <- int (k + terms) ;;
  chunk_loop (Z.to_nat terms) bound j d k 0%float.

(** The CPU's [leftPortionThreaded(double *threadResult, int k, int j, int d)];
    the value stored through [threadResult] is the one returned here. *)
Definition leftPortionThreaded (k j d : Z) : M double :=
  bound <- int (k + 100000) ;;
  chunk_loop (Z.to_nat 100000) bound j d k 0%float.

(** ** bbpf16jsd *)

(** [s = s + x; s = s - static_cast<int>(s);] *)
Definition accumulate (s x : double) : M double :=
  let s := (s + x)%float in
  i <- static_cast_int s ;;
  ret (s - Z2D i)%float.

(** The sequential branch of the left portion, for one [k]. *)
Definition seq_term (j d k : Z) (s : double) : M double :=
  k8 <- int (8 * k) ;;
  den <- int (k8 + j) ;;
  let denominator := Z2D den in
  e <- int (d - k) ;;
  numerator <- expoMod (Z2D e) denominator ;;
  let term := (numerator / denominator)%float in
  accumulate s term.

(** The workers of a batch all call [expoMod] with no synchronisation
    between them.  With two workers or more and the table not yet built
    (its first call is then made inside the workers, each of which writes
    [init], [pwrtbl] and [highestpwrtblpwr]) the batch is a data race.  With
    the table built the workers only read the statics. *)
Definition start_workers (noOfThreads : Z) : M unit :=
  fun st =>
    if (2 <=? noOfThreads) && negb (init st) then Undefined DataRace
    else Ok (tt, st).

(** [for (uint i1 = 0; i1 < noOfThreads; i1++)
       { threadArray[i1] = std::thread(leftPortionThreaded, ...); k = k + 100000; }]
    The results are listed by thread index.  Used after [start_workers]:
    the workers do not race, and run here one after the other. *)
Fixpoint spawn_threads (count : nat) (j d k : Z) : M (list double * Z) :=
  match count with
  | O => ret ([], k)
  | S count' =>
      r <- leftPortionThreaded k j d ;;
      k' <- int (k + 100000) ;;
      rk <- spawn_threads count' j d k' ;;
      ret (r :: fst rk, snd rk)
  end.

(** [for (int i2 = noOfThreads-1; i2 > -1; i2--)
       { join; s = s + threadResults[i2]; s = s - static_cast<int>(s); }]
    [results] is read at index [i2], [i2 - 1], ..., 0. *)
Fixpoint join_threads (count : nat) (results : list double) (i2 : Z)
    (s : double) : M double :=
  match count with
  | O => ret s
  | S count' =>
      if -1 <? i2 then
        s' <- accumulate s (nth (Z.to_nat i2) results 0%float) ;;
        join_threads count' results (i2 - 1) s'
      else ret s
  end.

(** [while (k < d) { if (k + (100000*noOfThreads) < d) {...} else {...} }].
    In the guard [100000*noOfThreads] is [unsigned]: the sum and the
    comparison are in [unsigned] arithmetic. *)
Fixpoint left_portion (fuel : nat) (noOfThreads j d k : Z) (s : double)
  : M (Z * double) :=
  match fuel with
  | O => out_of_fuel
  | S fuel' =>
      if k <? d then
        if to_uint (to_uint k + to_uint (100000 * noOfThreads)) <? to_uint d then
          start_workers noOfThreads ;;
          rk <- spawn_threads (Z.to_nat noOfThreads) j d k ;;
          let '(results, k') := rk in
          let i2 := uint_to_int (to_uint (noOfThreads - 1)) in
          s' <- join_threads (Z.to_nat noOfThreads) results i2 s ;;
          left_portion fuel' noOfThreads j d k' s'
        else
          s' <- seq_term j d k s ;;
          k' <- int (k + 1) ;;
          left_portion fuel' noOfThreads j d k' s'
      else ret (k, s)
  end.

(** One turn of the right portion; [None] is [break]. *)
Definition right_term (j d k : Z) (s : double) : M (option double) :=
  e <- int (d - k) ;;
  let numerator := pow16 e in
  k8 <- int (8 * k) ;;
  den <- int (k8 + j) ;;
  let denominator := Z2D den in
  let term := (numerator / denominator)%float in
  if (term <? 1e-17)%float then ret None
  else s' <- accumulate s term ;; ret (Some s').

(** [for (int k = d; k <= d+100; k++)]: at most 101 turns. *)
Fixpoint right_loop (count : nat) (j d k : Z) (s : double) : M double :=
  match count with
  | O => ret s
  | S count' =>
      top <- int (d + 100) ;;
      if k <=? top then
        o <- right_term j d k s ;;
        match o with
        | None => ret s
        | Some s' => k' <- int (k + 1) ;; right_loop count' j d k' s'
        end
      else ret s
  end.

Definition right_portion (j d : Z) (s : double) : M double :=
  right_loop 102 j d d s.

(** [double bbpf16jsd(int j, int d)], with the global [noOfThreads]. *)
Definition bbpf16jsd (fuel : nat) (noOfThreads j d : Z) : M double :=
  ks <- left_portion fuel noOfThreads j d 0 0%float ;;
  right_portion j d (snd ks).

(** ** bbpfCalc and toHex *)

(** [result = 4.*S1 - 2.*S4 - S5 - S6; result = result - static_cast<int>(result) + 1.;] *)
Definition combine (S1 S4 S5 S6 : double) : M double :=
  let result := (4 * S1 - 2 * S4 - S5 - S6)%float in
  i <- static_cast_int result ;;
  ret (result - Z2D i + 1)%float.

(** [void bbpfCalc(double *pidec, int *place)].  C++ leaves the order of
    the four calls open; they are taken left to right here. *)
Definition bbpfCalc (fuel : nat) (noOfThreads place : Z) : M double :=
  S1 <- bbpf16jsd fuel noOfThreads 1 place ;;
  S4 <- bbpf16jsd fuel noOfThreads 4 place ;;
  S5 <- bbpf16jsd fuel noOfThreads 5 place ;;
  S6 <- bbpf16jsd fuel noOfThreads 6 place ;;
  combine S1 S4 S5 S6.

(** [char hexNumbers[] = "0123456789ABCDEF";]: 16 digits and the
    terminating NUL, 17 chars. *)
Definition hexNumbers : list ascii :=
  list_ascii_of_string "0123456789ABCDEF" ++ [Ascii.zero].

(** [for (int i = 0; i <= 8; i++) { x = 16.0 * (x - std::floor(x));
       out[i] = hexNumbers[static_cast<int>(x)]; }], where [x] is the double
    that [in] points to. *)
Fixpoint toHex_loop (count : nat) (x : double) : M (list ascii * double) :=
  match count with
  | O => ret ([], x)
  | S count' =>
      let x := (16 * (x - floor x))%float in
      i <- static_cast_int x ;;
      if (0 <=? i) && (i <? Z.of_nat (length hexNumbers)) then
        rest <- toHex_loop count' x ;;
        ret (nth (Z.to_nat i) hexNumbers Ascii.zero :: fst rest, snd rest)
      else undefined (OutOfBoundsRead i)
  end.

Definition toHex (x : double) : M (string * double) :=
  r <- toHex_loop 9 x ;;
  ret (string_of_list_ascii (fst r), snd r).

(** The computation of [main]: [placeNo] is the requested position less one. *)
Definition pi_hex (fuel : nat) (noOfThreads position : Z) : M string :=
  placeNo <- int (position - 1) ;;
  piArr <- bbpfCalc fuel noOfThreads placeNo ;;
  h <- toHex piArr ;;
  ret (fst h).

Definition value {A} (o : outcome (A * statics)) : option A :=
  match o with Ok (a, _) => Some a | _ => None end.

(** ** The meaning of doubles

    The value of a finite double as a rational, and the rounding that
    [SpecFloat] implements, stated on rationals. *)

Definition pow2 (e : Z) : Q := (2 ^ e)%Q.

Definition SF2Q (x : spec_float) : Q :=
  match x with
  | S754_finite s m e =>
      ((if s then inject_Z (Zneg m) else inject_Z (Zpos m)) * pow2 e)%Q
  | _ => 0%Q
  end.

Definition finite_SF (x : spec_float) : bool :=
  match x with
  | S754_finite _ _ _ | S754_zero _ => true
  | _ => false
  end.

Definition sign_SF (x : spec_float) : bool :=
  match x with
  | S754_zero s | S754_infinity s | S754_finite s _ _ => s
  | S754_nan => false
  end.

Definition D2Q (x : double) : Q := SF2Q (Prim2SF x).
Definition finiteD (x : double) : bool := finite_SF (Prim2SF x).
Definition signD (x : double) : bool := sign_SF (Prim2SF x).

(** Round to the nearest integer, ties to even. *)
Definition rne (x : Q) : Z :=
  let f := Qfloor x in
  match (x - inject_Z f ?= 1 # 2)%Q with
  | Lt => f
  | Eq => if Z.even f then f else f + 1
  | Gt => f + 1
  end.

(** The binary magnitude of a positive rational:
    2^(mag x - 1) <= x < 2^(mag x). *)
Definition mag (x : Q) : Z :=
  let l := Z.log2 (Qnum x) - Z.log2 (Zpos (Qden x)) in
  if Qle_bool (pow2 l) x then l + 1 else l.

(** Rounding of a non-negative rational to binary64 (no overflow). *)
Definition RNpos (x : Q) : Q :=
  let E := fexp prec emax (mag x) in
  (inject_Z (rne (x * pow2 (- E))) * pow2 E)%Q.

Definition RN (x : Q) : Q :=
  if Qle_bool 0 x then RNpos x else (- RNpos (- x))%Q.

(** What a mantissa with a rounding location stands for. *)
Definition loc_of (m : Z) (l : location) (x : Q) : Prop :=
  match l with
  | loc_Exact => (x == inject_Z m)%Q
  | loc_Inexact Lt => (inject_Z m < x /\ x < inject_Z m + (1 # 2))%Q
  | loc_Inexact Eq => (x == inject_Z m + (1 # 2))%Q
  | loc_Inexact Gt => (inject_Z m + (1 # 2) < x /\ x < inject_Z m + 1)%Q
  end.

Definition rec_of (mrs : shr_record) (x : Q) : Prop :=
  loc_of (shr_m mrs) (loc_of_shr_record mrs) x.

(** The float built from a rounded mantissa [m1 <= 2^53] at exponent [E]. *)
Definition mk_float (sx : bool) (m1 E : Z) : spec_float :=
  if (m1 =? 2 ^ 53)%Z then S754_finite sx (2 ^ 52) (E + 1)
  else match m1 with
       | Z0 => S754_zero sx
       | Zpos q => S754_finite sx q E
       | Zneg _ => S754_nan
       end.

(** ** Reference definitions for the properties *)

(** The table as the first call leaves it: 1, 2, 4, ..., 2^h, then the
    zeros of static storage. *)
Definition powers (h : nat) : list Z :=
  map (fun i => 2 ^ Z.of_nat i) (seq 0 (S h)).

Definition table (N h : nat) : list Z := powers h ++ repeat 0 (N - S h).

(** The statics while the first call builds the table, and afterwards. *)
Definition building (N h : nat) : statics :=
  {| init := false; pwrtbl := table N h; highestpwrtblpwr := Z.of_nat h |}.

Definition built (N h : nat) : statics :=
  {| init := true; pwrtbl := table N h; highestpwrtblpwr := Z.of_nat h |}.

(** The statics are ready for the exponent [n]: nothing has been called yet
    (CPU table of 64, GPU table of 32), or the table reaches [n]. *)
Definition ready (st : statics) (n : Z) : Prop :=
  st = fresh 64 \/ st = fresh 32 \/
  exists N h, st = built N h /\ (h < N)%nat /\ (h <= 30)%nat /\ n <= 2 ^ Z.of_nat h.

(** The statics after a call with the exponent [n]: the first call builds
    the table, a later call leaves it as it is. *)
Definition after (st : statics) (n : Z) : statics :=
  if init st then st
  else built (length (pwrtbl st)) (Z.to_nat (Z.log2_up n)).

(** The loop of [expoMod] on exact integers. *)
Definition expoZ_body (K : Z) (ntr : Z * Z * Z) : Z * Z * Z :=
  let '(n, t, r) := ntr in
  let '(n, r) := if t <=? n then (n - t, (r * 16) mod K) else (n, r) in
  let t := Z.quot t 2 in
  if 1 <=? t then (n, t, (r * r) mod K) else (n, t, r).

Fixpoint expoZ_loop (count : nat) (K : Z) (ntr : Z * Z * Z) : Z * Z * Z :=
  match count with
  | O => ntr
  | S count' => expoZ_loop count' K (expoZ_body K ntr)
  end.

(** The largest modulus for which every product in [expoMod] is below 2^53. *)
Definition K_MAX : Z := 94906266.

(** A double in the interval [0, 1). *)
Definition in_unit (s : double) : bool := (0 <=? s)%float && (s <? 1)%float.

(** The exact term of the left portion, [(16^(d-k) mod (8k+j)) / (8k+j)],
    the quotient taken in doubles. *)
Definition left_term_ref (j d k : Z) : double :=
  (Z2D (16 ^ (d - k) mod (8 * k + j)) / Z2D (8 * k + j))%float.

(** The sum of [count] terms from [k] on, reduced modulo 1 after every
    addition. *)
Fixpoint chunk_sum (count : nat) (j d k : Z) (s : double) : double :=
  match count with
  | O => s
  | S count' =>
      let s' := (s + left_term_ref j d k)%float in
      chunk_sum count' j d (k + 1) (s' - floor s')%float
  end.

(** The term of the right portion, [16^(d-k) / (8k+j)]. *)
Definition right_term_ref (j d k : Z) : double :=
  (pow16 (d - k) / Z2D (8 * k + j))%float.

(** [s - static_cast<int>(s)] of a double that converts. *)
Definition drop_int (v : double) : double :=
  match truncD v with
  | Some z => (v - Z2D z)%float
  | None => v
  end.

(** The running sum after the right-portion terms [k], ..., [k + count - 1]. *)
Fixpoint right_sum (count : nat) (j d k : Z) (s : double) : double :=
  match count with
  | O => s
  | S count' =>
      right_sum count' j d (k + 1) (drop_int (s + right_term_ref j d k)%float)
  end.

(** The largest digit position at which every modulus [8k+j], [k < d],
    [j <= 6], is at most [K_MAX]. *)
Definition D_MAX : Z := 11863283.

(** The batches of [bbpf16jsd(j, d)] do not race: there is a single worker,
    or the table is built before the first batch, or no batch is started
    at all (the guard [k + 100000 * noOfThreads < d] already fails at
    [k = 0]). *)
Definition race_free (noOfThreads d : Z) (st : statics) : Prop :=
  noOfThreads <= 1 \/ init st = true \/ d <= 100000 * noOfThreads.

(** The series indices of the formula. *)
Definition series (j : Z) : Prop := j = 1 \/ j = 4 \/ j = 5 \/ j = 6.

(** A computation that only does arithmetic: it returns without touching
    the statics, or stops at a conversion from double to int. *)
Definition arith_only {A} (c : M A) : Prop :=
  forall st, (exists a, c st = Ok (a, st)) \/ c st = Undefined DoubleToInt.

(** An outcome that is a read outside the table. *)
Definition oob_read {A} (o : outcome A) : Prop :=
  exists i, o = Undefined (OutOfBoundsRead i).

(** An outcome that is a normal return. *)
Definition returns {A} (o : outcome A) : Prop := exists a, o = Ok a.

(** ** main *)

(** [int placeNo = (argc >= 2) && (std::atoi(argv[1]) > 0)
       ? std::atoi(argv[1]) - 1 : 10000000 - 1;]
    [a1] is what [atoi] returns for [argv[1]]; it is read only when
    [argc >= 2]. *)
Definition main_placeNo (argc a1 : Z) : M Z :=
  if (2 <=? argc) && (0 <? a1) then int (a1 - 1) else int (10000000 - 1).

(** [noOfThreads = (argc >= 3) && (std::atoi(argv[2]) > 0)
       ? static_cast<uint>(std::atoi(argv[2])) : std::thread::hardware_concurrency();]
    [hw] is what [hardware_concurrency] returns. *)
Definition main_noOfThreads (argc a2 hw : Z) : Z :=
  if (3 <=? argc) && (0 <? a2) then to_uint a2 else hw.

(** The CPU's [main]: the position printed is [placeNo + 1]; the value
    returned here is the string printed after [Pi Estimation Hex: ]. *)
Definition main_cpu (fuel : nat) (argc a1 a2 hw : Z) : M string :=
  placeNo <- main_placeNo argc a1 ;;
  let noOfThreads := main_noOfThreads argc a2 hw in
  _ <- int (placeNo + 1) ;;
  piArr <- bbpfCalc fuel noOfThreads placeNo ;;
  h <- toHex piArr ;;
  ret (fst h).

(** The position that [main] announces, [placeNo + 1]. *)
Definition main_position (argc a1 : Z) : Z :=
  if (2 <=? argc) && (0 <? a1) then a1 else 10000000.

(** ** Reference definitions for toHex *)

(** The fractional part of a rational. *)
Definition frac (q : Q) : Q := (q - inject_Z (Qfloor q))%Q.

(** The hexadecimal digit of weight 16^-(i+1) of a rational. *)
Definition hex_digit (q : Q) (i : nat) : Z :=
  Qfloor (q * inject_Z (16 ^ Z.of_nat (S i)))%Q mod 16.

(** The character [hexNumbers[z]]. *)
Definition hex_char (z : Z) : ascii := nth (Z.to_nat z) hexNumbers Ascii.zero.

(** One of the sixteen characters 0-9, A-F. *)
Definition is_hex_digit (c : ascii) : bool :=
  existsb (Ascii.eqb c) (list_ascii_of_string "0123456789ABCDEF").

(** ** Reference definitions for the series *)

(** The results of a batch of [T] workers started at [k], by thread index:
    worker [i] sums the chunk of 100000 terms from [k + 100000 i]. *)
Definition batch_ref (T : nat) (j d k : Z) : list double :=
  map (fun i => chunk_sum (Z.to_nat 100000) j d (k + 100000 * Z.of_nat i) 0%float)
      (seq 0 T).

(** The join loop: the results are folded into the running sum from the
    last worker to the first. *)
Definition join_ref (results : list double) (s : double) : double :=
  fold_left (fun s r => drop_int (s + r)%float) (rev results) s.

(** The left portion as a function: batches while a whole batch fits below
    [d], single terms after that. *)
Fixpoint left_ref (fuel : nat) (T j d k : Z) (s : double) : double :=
  match fuel with
  | O => s
  | S fuel' =>
      if k <? d then
        if k + 100000 * T <? d then
          left_ref fuel' T j d (k + 100000 * T)
                   (join_ref (batch_ref (Z.to_nat T) j d k) s)
        else
          left_ref fuel' T j d (k + 1) (drop_int (s + left_term_ref j d k)%float)
      else s
  end.

(** The right portion as a function: terms are added until one is below
    1e-17, at most [count] of them. *)
Fixpoint right_ref (count : nat) (j d k : Z) (s : double) : double :=
  match count with
  | O => s
  | S count' =>
      if (right_term_ref j d k <? 1e-17)%float then s
      else right_ref count' j d (k + 1) (drop_int (s + right_term_ref j d k)%float)
  end.

(** The value of [bbpf16jsd(j, d)] with [T] workers. *)
Definition series_ref (T j d : Z) : double :=
  right_ref 101 j d d (left_ref (S (Z.to_nat d)) T j d 0 0%float).

(** The four series evaluated in a given order, each result kept with its
    index.  C++ does not fix the order in which the operands of
    [4.*bbpf16jsd(1,n) - 2.*bbpf16jsd(4,n) - bbpf16jsd(5,n) - bbpf16jsd(6,n)]
    are evaluated. *)
Fixpoint eval_series (fuel : nat) (noOfThreads place : Z) (order : list Z)
  : M (list (Z * double)) :=
  match order with
  | [] => ret []
  | j :: rest =>
      s <- bbpf16jsd fuel noOfThreads j place ;;
      vals <- eval_series fuel noOfThreads place rest ;;
      ret ((j, s) :: vals)
  end.

Definition series_value (vals : list (Z * double)) (j : Z) : double :=
  match find (fun p => fst p =? j) vals with
  | Some p => snd p
  | None => 0%float
  end.

(** bbpfCalc with the four calls made in the order [order]. *)
Definition bbpfCalc_in_order (fuel : nat) (noOfThreads place : Z) (order : list Z)
  : M double :=
  vals <- eval_series fuel noOfThreads place order ;;
  combine (series_value vals 1) (series_value vals 4)
          (series_value vals 5) (series_value vals 6).

(** * Binary64 arithmetic

    What the operations of [SpecFloat] compute, as rationals. *)

Local Open Scope Q_scope.


Lemma pow2_gt_0 e : 0 < pow2 e.
Proof. apply Qpower_0_lt. reflexivity. Qed.

Lemma pow2_add a b : pow2 (a + b) == pow2 a * pow2 b.
Proof. apply Qpower_plus. discriminate. Qed.

Lemma pow2_opp a : pow2 (- a) == / pow2 a.
Proof. apply Qpower_opp. Qed.

Lemma pow2_0 : pow2 0 == 1.
Proof. reflexivity. Qed.

Lemma pow2_1 : pow2 1 == 2.
Proof. reflexivity. Qed.

Lemma pow2_sub a b : pow2 (a - b) == pow2 a / pow2 b.
Proof.
  unfold Z.sub. rewrite pow2_add, pow2_opp. reflexivity.
Qed.

Lemma pow2_inv_l a : pow2 (- a) * pow2 a == 1.
Proof. rewrite <- pow2_add. replace (- a + a)%Z with 0%Z by lia. reflexivity. Qed.

Lemma pow2_inv_r a : pow2 a * pow2 (- a) == 1.
Proof. rewrite Qmult_comm. apply pow2_inv_l. Qed.

Lemma pow2_le a b : (a <= b)%Z -> pow2 a <= pow2 b.
Proof. intros. apply Qpower_le_compat_l; [assumption | discriminate]. Qed.

Lemma pow2_lt a b : (a < b)%Z -> pow2 a < pow2 b.
Proof. intros. apply Qpower_lt_compat_l; [assumption | reflexivity]. Qed.

Lemma pow2_lt_inv a b : pow2 a < pow2 b -> (a < b)%Z.
Proof. intros. apply Qpower_lt_compat_l_inv with (q := 2); [assumption | reflexivity]. Qed.

Lemma pow2_Z n : (0 <= n)%Z -> pow2 n == inject_Z (2 ^ n).
Proof. intros. unfold pow2. rewrite Zpower_Qpower by assumption. reflexivity. Qed.

Lemma pow2_succ a : pow2 (a + 1) == 2 * pow2 a.
Proof. rewrite pow2_add, pow2_1. ring. Qed.

Lemma pow2_pred a : pow2 (a - 1) == pow2 a / 2.
Proof. rewrite pow2_sub, pow2_1. reflexivity. Qed.

(** ** Qfloor and rne *)

Lemma Qfloor_unique (x : Q) (m : Z) :
  inject_Z m <= x -> x < inject_Z m + 1 -> Qfloor x = m.
Proof.
  intros H1 H2.
  pose proof (Qfloor_le x) as F1. pose proof (Qlt_floor x) as F2.
  rewrite inject_Z_plus in F2.
  assert (m < Qfloor x + 1)%Z.
  { rewrite Zlt_Qlt, inject_Z_plus. change (inject_Z 1) with 1 in *. lra. }
  assert (Qfloor x < m + 1)%Z.
  { rewrite Zlt_Qlt, inject_Z_plus. change (inject_Z 1) with 1 in *. lra. }
  lia.
Qed.

#[global] Instance rne_comp : Proper (Qeq ==> eq) rne.
Proof.
  intros x y H. unfold rne.
  assert (E : Qfloor x = Qfloor y) by (apply Qfloor_comp; exact H).
  rewrite E.
  assert (C : (x - inject_Z (Qfloor y) ?= 1 # 2) = (y - inject_Z (Qfloor y) ?= 1 # 2)).
  { apply Qcompare_comp; [rewrite H; reflexivity | reflexivity]. }
  rewrite C. reflexivity.
Qed.

Lemma rne_Z z : rne (inject_Z z) = z.
Proof.
  unfold rne. rewrite Qfloor_Z.
  assert (inject_Z z - inject_Z z == 0) as -> by ring. reflexivity.
Qed.

Lemma rne_bounds x : (Qfloor x <= rne x <= Qfloor x + 1)%Z.
Proof.
  unfold rne. destruct (_ ?= _)%Q; try destruct (Z.even _); lia.
Qed.

Lemma rne_mono x y : x <= y -> (rne x <= rne y)%Z.
Proof.
  intros H.
  pose proof (Qfloor_resp_le _ _ H) as F.
  destruct (Z.eq_dec (Qfloor x) (Qfloor y)) as [E|E].
  - unfold rne. rewrite <- E.
    destruct (x - inject_Z (Qfloor x) ?= 1 # 2) eqn:Cx;
    destruct (y - inject_Z (Qfloor x) ?= 1 # 2) eqn:Cy;
    try destruct (Z.even _); try lia;
    try rewrite <- Qeq_alt in *; try rewrite <- Qlt_alt in *; try rewrite <- Qgt_alt in *; lra.
  - pose proof (rne_bounds x). pose proof (rne_bounds y). lia.
Qed.

(** ** Locations *)

Lemma loc_of_bounds m l x : loc_of m l x -> inject_Z m <= x /\ x < inject_Z m + 1.
Proof. destruct l as [|[]]; simpl; lra. Qed.

Lemma loc_of_ext m l x y : x == y -> loc_of m l x -> loc_of m l y.
Proof. intros E. destruct l as [|[]]; simpl; rewrite E; auto. Qed.

Lemma round_loc m l x : loc_of m l x -> round_nearest_even m l = rne x.
Proof.
  intros H. pose proof (loc_of_bounds _ _ _ H) as [B1 B2].
  unfold rne. rewrite (Qfloor_unique x m B1 B2).
  destruct l as [|[]]; simpl in *.
  - assert ((x - inject_Z m ?= 1 # 2) = Lt) as -> by (rewrite <- Qlt_alt; lra). reflexivity.
  - assert ((x - inject_Z m ?= 1 # 2) = Eq) as -> by (rewrite <- Qeq_alt; lra). reflexivity.
  - assert ((x - inject_Z m ?= 1 # 2) = Lt) as -> by (rewrite <- Qlt_alt; lra). reflexivity.
  - assert ((x - inject_Z m ?= 1 # 2) = Gt) as -> by (rewrite <- Qgt_alt; lra). reflexivity.
Qed.

Lemma rec_of_loc m l : loc_of_shr_record (shr_record_of_loc m l) = l
  /\ shr_m (shr_record_of_loc m l) = m.
Proof. destruct l as [|[]]; split; reflexivity. Qed.

Lemma inject_Z_xO p : inject_Z (Zpos p~0) == 2 * inject_Z (Zpos p).
Proof. rewrite Pos2Z.inj_xO, inject_Z_mult. reflexivity. Qed.

Lemma inject_Z_xI p : inject_Z (Zpos p~1) == 2 * inject_Z (Zpos p) + 1.
Proof. rewrite Pos2Z.inj_xI, inject_Z_plus, inject_Z_mult. reflexivity. Qed.

Lemma shr_1_rec mrs x :
  (0 <= shr_m mrs)%Z -> rec_of mrs x ->
  rec_of (shr_1 mrs) (x * (1 # 2)) /\ (0 <= shr_m (shr_1 mrs))%Z.
Proof.
  destruct mrs as [m r s]. unfold rec_of. simpl shr_m at 1 2.
  intros Hm H.
  destruct m as [|p|p]; [| |lia].
  - destruct r, s; simpl in *; change (inject_Z 0) with 0 in *; split; try lia; lra.
  - destruct p as [p|p|];
      [pose proof (inject_Z_xI p)|pose proof (inject_Z_xO p)|];
      destruct r, s; simpl in *;
      change (inject_Z 0) with 0 in *; change (inject_Z 1) with 1 in *;
      split; try lia; lra.
Qed.

Lemma iter_shr_rec p : forall mrs x,
  (0 <= shr_m mrs)%Z -> rec_of mrs x ->
  rec_of (iter_pos shr_1 p mrs) (x * pow2 (- Zpos p))
  /\ (0 <= shr_m (iter_pos shr_1 p mrs))%Z.
Proof.
  induction p as [p IH|p IH|]; intros mrs x Hm H; simpl iter_pos.
  - destruct (shr_1_rec _ _ Hm H) as [H1 M1].
    destruct (IH _ _ M1 H1) as [H2 M2].
    destruct (IH _ _ M2 H2) as [H3 M3].
    split; [|exact M3].
    eapply loc_of_ext; [|exact H3].
    rewrite Pos2Z.inj_xI.
    replace (- (2 * Zpos p + 1))%Z with (-1 + (- Zpos p + - Zpos p))%Z by lia.
    rewrite !pow2_add. change (pow2 (-1)) with (1 # 2). ring.
  - destruct (IH _ _ Hm H) as [H2 M2].
    destruct (IH _ _ M2 H2) as [H3 M3].
    split; [|exact M3].
    eapply loc_of_ext; [|exact H3].
    rewrite Pos2Z.inj_xO.
    replace (- (2 * Zpos p))%Z with (- Zpos p + - Zpos p)%Z by lia.
    rewrite !pow2_add. ring.
  - exact (shr_1_rec _ _ Hm H).
Qed.

(** [shr] by [n >= 0] positions. *)
Lemma shr_rec mrs e n x :
  (0 <= n)%Z -> (0 <= shr_m mrs)%Z -> rec_of mrs x ->
  rec_of (fst (shr mrs e n)) (x * pow2 (- n))
  /\ (0 <= shr_m (fst (shr mrs e n)))%Z
  /\ snd (shr mrs e n) = (e + n)%Z.
Proof.
  intros Hn Hm H. destruct n as [|p|p]; [| |lia]; simpl.
  - repeat split; [|assumption|lia].
    eapply loc_of_ext; [|exact H]. change (pow2 (-0)) with 1. ring.
  - destruct (iter_shr_rec p _ _ Hm H). auto.
Qed.

(** ** Digits *)

Lemma digits2_size p : digits2_pos p = Pos.size p.
Proof. induction p; simpl; congruence. Qed.

Lemma digits2_bounds p :
  (2 ^ (Zpos (digits2_pos p) - 1) <= Zpos p < 2 ^ Zpos (digits2_pos p))%Z.
Proof.
  rewrite digits2_size.
  pose proof (Pos.size_gt p) as G. pose proof (Pos.size_le p) as L.
  split.
  - apply Pos2Z.pos_le_pos in L. rewrite Pos2Z.inj_xO, Pos2Z.inj_pow in L.
    replace (Zpos (Pos.size p)) with (Zpos (Pos.size p) - 1 + 1)%Z in L by lia.
    rewrite Z.pow_add_r in L by lia. lia.
  - apply Pos2Z.pos_lt_pos in G. rewrite Pos2Z.inj_pow in G. exact G.
Qed.

Lemma digits2_unique p d :
  (2 ^ (d - 1) <= Zpos p < 2 ^ d)%Z -> Zpos (digits2_pos p) = d.
Proof.
  intros [H1 H2]. pose proof (digits2_bounds p) as [B1 B2].
  assert (0 < d)%Z.
  { destruct (Z_lt_le_dec 0 d); [assumption|].
    destruct d; [simpl in H2; lia | lia | rewrite Z.pow_neg_r in H2 by lia; lia]. }
  assert (d - 1 < Zpos (digits2_pos p))%Z.
  { apply (Z.pow_lt_mono_r_iff 2); lia. }
  assert (Zpos (digits2_pos p) - 1 < d)%Z.
  { apply (Z.pow_lt_mono_r_iff 2); lia. }
  lia.
Qed.

Lemma fexp_eq e : fexp prec emax e = Z.max (e - 53) (-1074).
Proof. reflexivity. Qed.

Lemma Qmake_inject a b : a # b == inject_Z a / inject_Z (Zpos b).
Proof. apply Qmake_Qdiv. Qed.

Lemma Q_num_den x : x * inject_Z (Zpos (Qden x)) == inject_Z (Qnum x).
Proof.
  destruct x as [a b]. simpl. rewrite (Qmake_inject a b).
  field. intros H. discriminate H.
Qed.

Lemma inject_Z_pos p : 0 < inject_Z (Zpos p).
Proof. reflexivity. Qed.

Lemma mag_spec_aux x : 0 < x ->
  let l := (Z.log2 (Qnum x) - Z.log2 (Zpos (Qden x)))%Z in
  pow2 (l - 1) < x /\ x < pow2 (l + 1).
Proof.
  intros Hx l.
  pose proof (Q_num_den x) as E.
  pose proof (inject_Z_pos (Qden x)) as Hb.
  assert (Ha : (0 < Qnum x)%Z).
  { destruct x as [a b]. unfold Qlt in Hx. simpl in *. lia. }
  pose proof (Z.log2_spec _ Ha) as [A1 A2].
  pose proof (Z.log2_spec (Zpos (Qden x)) eq_refl) as [B1 B2].
  pose proof (Z.log2_nonneg (Qnum x)) as La.
  pose proof (Z.log2_nonneg (Zpos (Qden x))) as Lb.
  set (la := Z.log2 (Qnum x)) in *. set (lb := Z.log2 (Zpos (Qden x))) in *.
  rewrite Zle_Qle, <- pow2_Z in A1, B1 by lia.
  replace (Z.succ la) with (la + 1)%Z in A2 by lia.
  replace (Z.succ lb) with (lb + 1)%Z in B2 by lia.
  rewrite Zlt_Qlt, <- pow2_Z in A2, B2 by lia.
  split.
  - apply (Qmult_lt_r _ _ (inject_Z (Zpos (Qden x))) Hb). rewrite E.
    apply Qlt_le_trans with (pow2 (l - 1) * pow2 (lb + 1)).
    + apply Qmult_lt_l; [apply pow2_gt_0 | assumption].
    + rewrite <- pow2_add. replace (l - 1 + (lb + 1))%Z with la by (unfold l; lia).
      assumption.
  - apply (Qmult_lt_r _ _ (inject_Z (Zpos (Qden x))) Hb). rewrite E.
    apply Qlt_le_trans with (pow2 (l + 1) * pow2 lb).
    + rewrite <- pow2_add. replace (l + 1 + lb)%Z with (la + 1)%Z by (unfold l; lia).
      assumption.
    + apply Qmult_le_l; [apply pow2_gt_0 | assumption].
Qed.

Lemma mag_spec x : 0 < x -> pow2 (mag x - 1) <= x /\ x < pow2 (mag x).
Proof.
  intros Hx. destruct (mag_spec_aux x Hx) as [L U]. unfold mag.
  set (l := (Z.log2 (Qnum x) - Z.log2 (Zpos (Qden x)))%Z) in *.
  destruct (Qle_bool (pow2 l) x) eqn:C.
  - apply Qle_bool_iff in C. replace (l + 1 - 1)%Z with l by lia. split; [assumption|assumption].
  - split; [apply Qlt_le_weak; assumption|].
    apply Qnot_le_lt. intros H. apply Qle_bool_iff in H. congruence.
Qed.

Lemma mag_unique x d : pow2 (d - 1) <= x -> x < pow2 d -> mag x = d.
Proof.
  intros L U.
  assert (Hx : 0 < x) by (pose proof (pow2_gt_0 (d - 1)); lra).
  destruct (mag_spec x Hx) as [L' U'].
  assert (d - 1 < mag x)%Z by (apply pow2_lt_inv; lra).
  assert (mag x - 1 < d)%Z by (apply pow2_lt_inv; lra).
  lia.
Qed.

Lemma mag_comp x y : 0 < x -> x == y -> mag x = mag y.
Proof.
  intros Hx E. destruct (mag_spec x Hx) as [L U].
  symmetry. apply mag_unique; rewrite <- E; assumption.
Qed.

Lemma Qmult_zero_l x c : x == 0 -> x * c == inject_Z 0.
Proof. intros H. rewrite H. change (inject_Z 0) with 0. ring. Qed.

Lemma RNpos_comp x y : 0 <= x -> x == y -> RNpos x == RNpos y.
Proof.
  intros Hx E. unfold RNpos.
  destruct (Qlt_le_dec 0 x) as [P|P].
  - rewrite (mag_comp x y P E). rewrite E. reflexivity.
  - assert (x == 0) as X by lra. assert (y == 0) as Y by lra.
    rewrite (Qmult_zero_l x _ X), (Qmult_zero_l y _ Y).
    rewrite !rne_Z. change (inject_Z 0) with 0. ring.
Qed.

Lemma RNpos_0 : RNpos 0 == 0.
Proof. reflexivity. Qed.

Lemma pow2_53 : pow2 53 == inject_Z 9007199254740992.
Proof. reflexivity. Qed.

(** The mantissa after rounding has at most 53 digits, or is 2^53. *)
Lemma rne_digits x k :
  (0 <= k)%Z -> 0 <= x -> x < pow2 k -> (0 <= rne x <= 2 ^ k)%Z.
Proof.
  intros Hk H0 H.
  split.
  - replace 0%Z with (rne (inject_Z 0)) by apply rne_Z. apply rne_mono. exact H0.
  - rewrite <- (rne_Z (2 ^ k)). apply rne_mono. rewrite <- pow2_Z by assumption.
    apply Qlt_le_weak. assumption.
Qed.

Lemma rne_small x : 0 <= x -> x < 1 -> (0 <= rne x <= 1)%Z.
Proof. intros. apply (rne_digits x 0); [lia|assumption|assumption]. Qed.

Lemma Zdigits2_pos_le p k : (Zpos p < 2 ^ k)%Z -> (Zpos (digits2_pos p) <= k)%Z.
Proof.
  intros H. pose proof (digits2_bounds p) as [B _].
  destruct (Z_lt_le_dec k 0) as [N|N]; [rewrite Z.pow_neg_r in H by lia; lia|].
  assert (Zpos (digits2_pos p) - 1 < k)%Z; [|lia].
  apply (Z.pow_lt_mono_r_iff 2); lia.
Qed.

Lemma mk_float_spec sx m1 E :
  (0 <= m1)%Z ->
  finite_SF (mk_float sx m1 E) = true /\ sign_SF (mk_float sx m1 E) = sx /\
  SF2Q (mk_float sx m1 E) == (if sx then -1 else 1) * (inject_Z m1 * pow2 E).
Proof.
  intros H. unfold mk_float.
  destruct (Z.eqb_spec m1 (2 ^ 53)) as [C|C].
  - rewrite C. repeat split. simpl SF2Q. rewrite pow2_add. change (pow2 1) with 2.
    destruct sx.
    + change (inject_Z (Z.neg (2 ^ 52))) with (- inject_Z (2 ^ 52)).
      change (inject_Z (2 ^ 53)) with (2 * inject_Z (2 ^ 52)). ring.
    + change (inject_Z (Z.pos (2 ^ 52))) with (inject_Z (2 ^ 52)).
      change (inject_Z (2 ^ 53)) with (2 * inject_Z (2 ^ 52)). ring.
  - destruct m1 as [|q|q]; [| |lia]; repeat split; simpl SF2Q.
    + change (inject_Z 0) with 0. ring.
    + destruct sx; [change (inject_Z (Z.neg q)) with (- inject_Z (Zpos q))|]; ring.
Qed.

Theorem bra_eq sx p ex lx x :
  loc_of (Zpos p) lx x ->
  let d := (Zpos (digits2_pos p) + ex)%Z in
  let E := fexp prec emax d in
  (ex <= E)%Z -> (d < emax)%Z ->
  let m1 := rne (x * pow2 (- (E - ex))) in
  binary_round_aux prec emax sx (Zpos p) ex lx = mk_float sx m1 E
  /\ (0 <= m1 <= 2 ^ 53)%Z /\ mag (x * pow2 ex) = d.
Proof.
  intros Hl d E He Hd m1.
  pose proof (loc_of_bounds _ _ _ Hl) as [X1 X2].
  pose proof (digits2_bounds p) as [D1 D2].
  set (dg := Zpos (digits2_pos p)) in *.
  assert (Hdg : (0 < dg)%Z) by (unfold dg; lia).
  assert (XL : pow2 (dg - 1) <= x).
  { rewrite pow2_Z by lia. rewrite Zle_Qle in D1. lra. }
  assert (XU : x < pow2 dg).
  { rewrite pow2_Z by lia.
    assert (Zpos p + 1 <= 2 ^ dg)%Z as T by lia.
    rewrite Zle_Qle, inject_Z_plus in T. change (inject_Z 1) with 1 in T. lra. }
  assert (Hmag : mag (x * pow2 ex) = d).
  { apply mag_unique.
    - replace (d - 1)%Z with ((dg - 1) + ex)%Z by (unfold d; lia).
      rewrite pow2_add. apply Qmult_le_compat_r; [assumption|apply Qlt_le_weak, pow2_gt_0].
    - unfold d. rewrite pow2_add. apply Qmult_lt_r; [apply pow2_gt_0|assumption]. }
  assert (HE : (d - 53 <= E /\ -1074 <= E /\ E <= 970)%Z).
  { unfold E. rewrite fexp_eq. unfold emax in Hd. lia. }
  set (y := x * pow2 (- (E - ex))) in *.
  assert (Y0 : 0 <= y).
  { unfold y. apply Qmult_le_0_compat; [|apply Qlt_le_weak, pow2_gt_0].
    pose proof (pow2_gt_0 (dg - 1)). lra. }
  assert (YU : y < pow2 (d - E)).
  { unfold y. replace (d - E)%Z with (dg + - (E - ex))%Z by (unfold d; lia).
    rewrite pow2_add. apply Qmult_lt_r; [apply pow2_gt_0|assumption]. }
  assert (B : (0 <= m1 <= 2 ^ 53)%Z).
  { destruct (Z_lt_le_dec (d - E) 0) as [N|N].
    - assert (y < 1).
      { apply Qlt_le_trans with (1 := YU). change 1 with (pow2 0). apply pow2_le. lia. }
      pose proof (rne_small y Y0 H). fold m1 in H0. lia.
    - pose proof (rne_digits y (d - E) N Y0 YU) as T. fold m1 in T.
      assert (2 ^ (d - E) <= 2 ^ 53)%Z by (apply Z.pow_le_mono_r; lia). lia. }
  split; [|split; assumption].
  (* first shift *)
  assert (R0 : rec_of (shr_record_of_loc (Zpos p) lx) x).
  { unfold rec_of. destruct (rec_of_loc (Zpos p) lx) as [-> ->]. exact Hl. }
  assert (M0 : (0 <= shr_m (shr_record_of_loc (Zpos p) lx))%Z).
  { destruct (rec_of_loc (Zpos p) lx) as [_ ->]. lia. }
  destruct (shr_rec _ ex (E - ex) x ltac:(lia) M0 R0) as (R1 & M1 & E1).
  unfold binary_round_aux.
  replace (shr_fexp prec emax (Zpos p) ex lx)
    with (shr (shr_record_of_loc (Zpos p) lx) ex (E - ex)) by reflexivity.
  destruct (shr (shr_record_of_loc (Zpos p) lx) ex (E - ex)) as [mrs' e'].
  simpl fst in *. simpl snd in *.
  replace e' with E by lia. clear E1 e'.
  rewrite (round_loc _ _ _ R1). fold y. fold m1.
  unfold shr_fexp, mk_float.
  destruct (Z.eqb_spec m1 (2 ^ 53)) as [C|C].
  - rewrite C. change (Zdigits2 (2 ^ 53)) with 54%Z.
    replace (fexp prec emax (54 + E) - E)%Z with 1%Z by (rewrite fexp_eq; lia).
    cbn -[Z.add].
    replace (E + 1 <=? emax - prec)%Z with true
      by (symmetry; apply Z.leb_le; unfold emax, prec in *; lia).
    reflexivity.
  - destruct m1 as [|q|q] eqn:Hm1; [| |lia].
    + simpl Zdigits2.
      assert (fexp prec emax (0 + E) - E <= 0)%Z as T by (rewrite fexp_eq; lia).
      destruct (fexp prec emax (0 + E) - E)%Z; try lia; reflexivity.
    + simpl Zdigits2.
      assert (Zpos (digits2_pos q) <= 53)%Z by (apply Zdigits2_pos_le; lia).
      assert (fexp prec emax (Zpos (digits2_pos q) + E) - E <= 0)%Z as T
        by (rewrite fexp_eq; lia).
      destruct (fexp prec emax (Zpos (digits2_pos q) + E) - E)%Z; try lia; simpl;
        (destruct (Z.leb_spec E 971); [reflexivity|lia]).
Qed.

Theorem bra_spec sx p ex lx x :
  loc_of (Zpos p) lx x ->
  (ex <= fexp prec emax (Zpos (digits2_pos p) + ex))%Z ->
  (Zpos (digits2_pos p) + ex < emax)%Z ->
  finite_SF (binary_round_aux prec emax sx (Zpos p) ex lx) = true /\
  sign_SF (binary_round_aux prec emax sx (Zpos p) ex lx) = sx /\
  SF2Q (binary_round_aux prec emax sx (Zpos p) ex lx)
    == (if sx then -1 else 1) * RNpos (x * pow2 ex).
Proof.
  intros Hl He Hd.
  destruct (bra_eq sx p ex lx x Hl He Hd) as (-> & B & Hmag).
  destruct (mk_float_spec sx _ (fexp prec emax (Zpos (digits2_pos p) + ex)) (proj1 B))
    as (F & S & V).
  split; [exact F|split; [exact S|]].
  rewrite V. unfold RNpos. rewrite Hmag.
  set (E := fexp prec emax (Zpos (digits2_pos p) + ex)).
  assert (x * pow2 ex * pow2 (- E) == x * pow2 (- (E - ex))) as ->.
  { replace (- (E - ex))%Z with (ex + - E)%Z by lia. rewrite pow2_add. ring. }
  reflexivity.
Qed.

Lemma mant_bounds p :
  pow2 (Zpos (digits2_pos p) - 1) <= inject_Z (Zpos p)
  /\ inject_Z (Zpos p) < pow2 (Zpos (digits2_pos p)).
Proof.
  pose proof (digits2_bounds p) as [D1 D2].
  rewrite !pow2_Z by lia. rewrite <- Zle_Qle, <- Zlt_Qlt. split; assumption.
Qed.

Lemma mag_mant p e :
  mag (inject_Z (Zpos p) * pow2 e) = (Zpos (digits2_pos p) + e)%Z.
Proof.
  destruct (mant_bounds p) as [L U]. pose proof (pow2_gt_0 e).
  apply mag_unique.
  - replace (Zpos (digits2_pos p) + e - 1)%Z with (Zpos (digits2_pos p) - 1 + e)%Z by lia.
    rewrite pow2_add. apply Qmult_le_compat_r; lra.
  - rewrite pow2_add. apply Qmult_lt_r; assumption.
Qed.

Lemma inject_Z_pow2 M k : (0 <= k)%Z -> inject_Z M * pow2 k == inject_Z (M * 2 ^ k).
Proof. intros. rewrite inject_Z_mult, pow2_Z by assumption. reflexivity. Qed.

Lemma RNpos_exact M e :
  (0 <= M < 2 ^ 53)%Z -> (-1074 <= e)%Z ->
  RNpos (inject_Z M * pow2 e) == inject_Z M * pow2 e.
Proof.
  intros HM He. destruct M as [|p|p]; [| |lia].
  - rewrite (RNpos_comp _ 0); [reflexivity| |];
      change (inject_Z 0) with 0; try lra; ring_simplify; lra.
  - unfold RNpos. rewrite mag_mant.
    assert (Zpos (digits2_pos p) <= 53)%Z by (apply Zdigits2_pos_le; lia).
    set (E := fexp prec emax (Zpos (digits2_pos p) + e)).
    assert (E <= e)%Z by (unfold E; rewrite fexp_eq; lia).
    assert (inject_Z (Zpos p) * pow2 e * pow2 (- E)
            == inject_Z (Zpos p * 2 ^ (e - E))) as ->.
    { rewrite <- inject_Z_pow2 by lia. unfold Z.sub. rewrite pow2_add. ring. }
    rewrite rne_Z. rewrite <- inject_Z_pow2 by lia.
    unfold Z.sub. rewrite pow2_add. rewrite <- !Qmult_assoc, pow2_inv_l. ring.
Qed.

Lemma RNpos_nonneg x : 0 <= x -> 0 <= RNpos x.
Proof.
  intros H. unfold RNpos.
  apply Qmult_le_0_compat; [|apply Qlt_le_weak, pow2_gt_0].
  change 0 with (inject_Z 0). rewrite <- Zle_Qle.
  rewrite <- (rne_Z 0). apply rne_mono. change (inject_Z 0) with 0.
  apply Qmult_le_0_compat; [assumption|apply Qlt_le_weak, pow2_gt_0].
Qed.

Lemma Qmult_pow2_cancel x E : x * pow2 (- E) * pow2 E == x.
Proof. rewrite <- Qmult_assoc, pow2_inv_l. ring. Qed.

(** Below a power of two the rounding stays below it, provided the power is
    on the grid. *)
Lemma RNpos_le_pow2 x d :
  0 < x -> x <= pow2 d -> (fexp prec emax (mag x) <= d)%Z -> RNpos x <= pow2 d.
Proof.
  intros Hx H HE. unfold RNpos. set (E := fexp prec emax (mag x)) in *.
  assert (rne (x * pow2 (- E)) <= 2 ^ (d - E))%Z.
  { rewrite <- (rne_Z (2 ^ (d - E))). apply rne_mono.
    rewrite <- pow2_Z by lia. unfold Z.sub. rewrite pow2_add.
    apply Qmult_le_compat_r; [assumption|apply Qlt_le_weak, pow2_gt_0]. }
  rewrite Zle_Qle in H0. rewrite <- pow2_Z in H0 by lia.
  apply Qle_trans with (pow2 (d - E) * pow2 E).
  - apply Qmult_le_compat_r; [assumption|apply Qlt_le_weak, pow2_gt_0].
  - rewrite <- pow2_add. replace (d - E + E)%Z with d by lia. apply Qle_refl.
Qed.

Lemma RNpos_ge_pow2 x d :
  pow2 d <= x -> (fexp prec emax (mag x) <= d)%Z -> pow2 d <= RNpos x.
Proof.
  intros H HE. unfold RNpos. set (E := fexp prec emax (mag x)) in *.
  assert (2 ^ (d - E) <= rne (x * pow2 (- E)))%Z.
  { rewrite <- (rne_Z (2 ^ (d - E))). apply rne_mono.
    rewrite <- pow2_Z by lia. unfold Z.sub. rewrite pow2_add.
    apply Qmult_le_compat_r; [assumption|apply Qlt_le_weak, pow2_gt_0]. }
  rewrite Zle_Qle in H0. rewrite <- pow2_Z in H0 by lia.
  apply Qle_trans with (pow2 (d - E) * pow2 E).
  - rewrite <- pow2_add. replace (d - E + E)%Z with d by lia. apply Qle_refl.
  - apply Qmult_le_compat_r; [assumption|apply Qlt_le_weak, pow2_gt_0].
Qed.

Lemma RNpos_mono x y : 0 <= x -> x <= y -> RNpos x <= RNpos y.
Proof.
  intros H0 H.
  destruct (Qlt_le_dec 0 x) as [Hx|Hx].
  2:{ rewrite (RNpos_comp x 0) by lra. rewrite RNpos_0. apply RNpos_nonneg. lra. }
  assert (Hy : 0 < y) by lra.
  destruct (mag_spec x Hx) as [Lx Ux]. destruct (mag_spec y Hy) as [Ly Uy].
  assert (Hd : (mag x <= mag y)%Z).
  { assert (mag x - 1 < mag y)%Z by (apply pow2_lt_inv; lra). lia. }
  destruct (Z.eq_dec (fexp prec emax (mag x)) (fexp prec emax (mag y))) as [e|n].
  - unfold RNpos. rewrite e.
    apply Qmult_le_compat_r; [|apply Qlt_le_weak, pow2_gt_0].
    rewrite <- Zle_Qle. apply rne_mono.
    apply Qmult_le_compat_r; [assumption|apply Qlt_le_weak, pow2_gt_0].
  - rewrite !fexp_eq in n.
    assert (mag x < mag y)%Z by lia.
    assert (-1074 < mag y - 53)%Z by lia.
    apply Qle_trans with (pow2 (mag y - 1)).
    + destruct (Z_lt_le_dec (mag x) (fexp prec emax (mag x))) as [S|S].
      * (* below the smallest subnormal's binade *)
        unfold RNpos. set (E := fexp prec emax (mag x)) in *.
        assert (x * pow2 (- E) < 1).
        { apply Qlt_le_trans with (pow2 (mag x) * pow2 (- E)).
          - apply Qmult_lt_r; [apply pow2_gt_0|assumption].
          - rewrite <- pow2_add. change 1 with (pow2 0). apply pow2_le. lia. }
        assert (0 <= x * pow2 (- E)).
        { apply Qmult_le_0_compat; [lra|apply Qlt_le_weak, pow2_gt_0]. }
        pose proof (rne_small _ H4 H3) as [_ R].
        rewrite Zle_Qle in R. change (inject_Z 1) with 1 in R.
        apply Qle_trans with (1 * pow2 E).
        -- apply Qmult_le_compat_r; [assumption|apply Qlt_le_weak, pow2_gt_0].
        -- rewrite Qmult_1_l. apply pow2_le. unfold E in *. rewrite fexp_eq in *. lia.
      * apply Qle_trans with (pow2 (mag x)).
        -- apply RNpos_le_pow2; [assumption|lra|assumption].
        -- apply pow2_le. lia.
    + apply RNpos_ge_pow2; [assumption|rewrite fexp_eq; lia].
Qed.

Lemma RN_pos x : 0 <= x -> RN x = RNpos x.
Proof. intros H. unfold RN. apply Qle_bool_iff in H. rewrite H. reflexivity. Qed.

Lemma RN_neg x : x < 0 -> RN x = - RNpos (- x).
Proof.
  intros H. unfold RN. destruct (Qle_bool 0 x) eqn:C; [|reflexivity].
  apply Qle_bool_iff in C. lra.
Qed.

Lemma RN_comp x y : x == y -> RN x == RN y.
Proof.
  intros E. destruct (Qlt_le_dec x 0) as [N|N].
  - rewrite (RN_neg x), (RN_neg y) by lra.
    rewrite (RNpos_comp (- x) (- y)); [reflexivity|lra|lra].
  - rewrite (RN_pos x), (RN_pos y) by lra. apply RNpos_comp; assumption.
Qed.

#[global] Instance RN_proper : Proper (Qeq ==> Qeq) RN.
Proof. exact RN_comp. Qed.

Lemma RN_mono x y : x <= y -> RN x <= RN y.
Proof.
  intros H. destruct (Qlt_le_dec x 0) as [Nx|Nx]; destruct (Qlt_le_dec y 0) as [Ny|Ny].
  - rewrite (RN_neg x), (RN_neg y) by assumption.
    assert (RNpos (- y) <= RNpos (- x)) by (apply RNpos_mono; lra). lra.
  - rewrite (RN_neg x), (RN_pos y) by assumption.
    pose proof (RNpos_nonneg (- x)). pose proof (RNpos_nonneg y). lra.
  - lra.
  - rewrite (RN_pos x), (RN_pos y) by assumption. apply RNpos_mono; assumption.
Qed.

Lemma RN_exact M e :
  (- 2 ^ 53 < M < 2 ^ 53)%Z -> (-1074 <= e)%Z ->
  RN (inject_Z M * pow2 e) == inject_Z M * pow2 e.
Proof.
  intros HM He. pose proof (pow2_gt_0 e).
  destruct (Z_lt_le_dec M 0) as [N|N].
  - assert (inject_Z M * pow2 e < 0).
    { rewrite Zlt_Qlt in N. change (inject_Z 0) with 0 in N. nra. }
    rewrite RN_neg by assumption.
    rewrite (RNpos_comp _ (inject_Z (- M) * pow2 e)).
    + rewrite RNpos_exact by lia. rewrite inject_Z_opp. ring.
    + lra.
    + rewrite inject_Z_opp. ring.
  - assert (0 <= inject_Z M * pow2 e).
    { rewrite Zle_Qle in N. change (inject_Z 0) with 0 in N. nra. }
    rewrite RN_pos by assumption. apply RNpos_exact; lia.
Qed.

Lemma RN_Z z : (- 2 ^ 53 <= z <= 2 ^ 53)%Z -> RN (inject_Z z) == inject_Z z.
Proof.
  intros H.
  destruct (Z.eq_dec z (2 ^ 53)) as [->|]; [|destruct (Z.eq_dec z (- 2 ^ 53)) as [->|]].
  - rewrite (RN_comp _ (inject_Z (2 ^ 52) * pow2 1)) by reflexivity.
    rewrite RN_exact by lia. reflexivity.
  - rewrite (RN_comp _ (inject_Z (- 2 ^ 52) * pow2 1)) by reflexivity.
    rewrite RN_exact by lia. reflexivity.
  - rewrite (RN_comp _ (inject_Z z * pow2 0)) by (change (pow2 0) with 1; ring).
    rewrite RN_exact by lia. change (pow2 0) with 1; ring.
Qed.

Lemma RN_0 : RN 0 == 0.
Proof. reflexivity. Qed.

(** ** Valid floats *)

Lemma valid_finite s m e :
  valid_binary (S754_finite s m e) = true ->
  (Zpos (digits2_pos m) <= 53 /\ -1074 <= e <= 971
   /\ (Zpos (digits2_pos m) = 53 \/ e = -1074))%Z.
Proof.
  unfold SpecFloat.valid_binary, bounded, canonical_mantissa. intros H.
  apply andb_true_iff in H. destruct H as [H1 H2].
  apply Z.eqb_eq in H1. apply Z.leb_le in H2. rewrite fexp_eq in H1.
  unfold emax, prec in H2. lia.
Qed.

Lemma valid_mant_lt m :
  (Zpos (digits2_pos m) <= 53)%Z -> (Zpos m < 2 ^ 53)%Z.
Proof.
  intros H. pose proof (digits2_bounds m) as [_ U].
  apply Z.lt_le_trans with (1 := U). apply Z.pow_le_mono_r; lia.
Qed.

Lemma SF2Q_finite s m e :
  SF2Q (S754_finite s m e) == inject_Z (if s then Zneg m else Zpos m) * pow2 e.
Proof. destruct s; reflexivity. Qed.

(** A valid float is a fixed point of the rounding. *)
Lemma RN_valid x :
  valid_binary x = true -> RN (SF2Q x) == SF2Q x.
Proof.
  intros V. destruct x as [s|s| |s m e]; try reflexivity.
  destruct (valid_finite _ _ _ V) as (D & E & _).
  pose proof (valid_mant_lt m D).
  rewrite SF2Q_finite. apply RN_exact; [destruct s; lia|lia].
Qed.

Lemma iter_xO m d : Zpos (Pos.iter xO m d) = (Zpos m * 2 ^ Zpos d)%Z.
Proof.
  induction d using Pos.peano_ind.
  - simpl. lia.
  - rewrite Pos.iter_succ, Pos2Z.inj_xO, IHd, Pos2Z.inj_succ, Z.pow_succ_r by lia. lia.
Qed.

Lemma shl_align_spec mx ex ez :
  (ez <= ex)%Z ->
  Zpos (fst (shl_align mx ex ez)) = (Zpos mx * 2 ^ (ex - ez))%Z
  /\ snd (shl_align mx ex ez) = ez.
Proof.
  intros H. unfold shl_align.
  destruct (ez - ex)%Z as [|d|d] eqn:E; try lia.
  - replace (ex - ez)%Z with 0%Z by lia. cbn [fst snd]. rewrite Z.pow_0_r. split; lia.
  - cbn [fst snd]. rewrite iter_xO. replace (ex - ez)%Z with (Zpos d) by lia. split; lia.
Qed.

Lemma shl_align_ge mx ex ez :
  (ex <= ez)%Z -> shl_align mx ex ez = (mx, ex).
Proof.
  intros H. unfold shl_align. destruct (ez - ex)%Z eqn:E; try lia; reflexivity.
Qed.

Lemma digits2_shift m k :
  (0 <= k)%Z -> forall q, Zpos q = (Zpos m * 2 ^ k)%Z ->
  Zpos (digits2_pos q) = (Zpos (digits2_pos m) + k)%Z.
Proof.
  intros Hk q Hq. apply digits2_unique. rewrite Hq.
  pose proof (digits2_bounds m) as [L U].
  replace (Zpos (digits2_pos m) + k - 1)%Z with (Zpos (digits2_pos m) - 1 + k)%Z by lia.
  rewrite !Z.pow_add_r by lia.
  assert (0 < 2 ^ k)%Z by (apply Z.pow_pos_nonneg; lia). nia.
Qed.

Lemma loc_exact m : loc_of m loc_Exact (inject_Z m).
Proof. simpl. reflexivity. Qed.

Theorem binary_round_spec sx mx ex :
  (Zpos (digits2_pos mx) + ex < emax)%Z ->
  finite_SF (binary_round prec emax sx mx ex) = true /\
  sign_SF (binary_round prec emax sx mx ex) = sx /\
  SF2Q (binary_round prec emax sx mx ex)
    == (if sx then -1 else 1) * RNpos (inject_Z (Zpos mx) * pow2 ex).
Proof.
  intros Hd. unfold binary_round.
  set (E := fexp prec emax (Zpos (digits2_pos mx) + ex)).
  destruct (Z_lt_le_dec E ex) as [C|C].
  - destruct (shl_align_spec mx ex E ltac:(lia)) as [A B].
    destruct (shl_align mx ex E) as [mz ez]. cbn [fst snd] in A, B. subst ez.
    pose proof (digits2_shift mx (ex - E) ltac:(lia) mz A) as Dz.
    destruct (bra_spec sx mz E loc_Exact (inject_Z (Zpos mz)) (loc_exact _)) as (F & S & V).
    + rewrite Dz. replace (Zpos (digits2_pos mx) + (ex - E) + E)%Z
        with (Zpos (digits2_pos mx) + ex)%Z by lia. fold E. lia.
    + rewrite Dz. lia.
    + split; [exact F|split; [exact S|]]. rewrite V.
      rewrite (RNpos_comp (inject_Z (Zpos mz) * pow2 E) (inject_Z (Zpos mx) * pow2 ex)).
      * reflexivity.
      * apply Qmult_le_0_compat; [discriminate|apply Qlt_le_weak, pow2_gt_0].
      * rewrite A, <- inject_Z_pow2 by lia. unfold Z.sub. rewrite pow2_add.
        rewrite <- !Qmult_assoc, pow2_inv_l. ring.
  - rewrite shl_align_ge by assumption.
    apply bra_spec; [apply loc_exact|assumption|assumption].
Qed.

Lemma digits_lt_emax m e :
  Qabs (inject_Z (Zpos m) * pow2 e) < pow2 1023 ->
  (Zpos (digits2_pos m) + e < emax)%Z.
Proof.
  intros H. destruct (mant_bounds m) as [L _]. pose proof (pow2_gt_0 e).
  rewrite Qabs_pos in H by (apply Qmult_le_0_compat; [discriminate|lra]).
  assert (pow2 (Zpos (digits2_pos m) - 1 + e) < pow2 1023).
  { rewrite pow2_add. apply Qle_lt_trans with (2 := H).
    apply Qmult_le_compat_r; lra. }
  apply pow2_lt_inv in H1. unfold emax. lia.
Qed.

Theorem binary_normalize_spec m e sz :
  Qabs (inject_Z m * pow2 e) < pow2 1023 ->
  finite_SF (binary_normalize prec emax m e sz) = true /\
  sign_SF (binary_normalize prec emax m e sz)
    = (if (m =? 0)%Z then sz else (m <? 0)%Z) /\
  SF2Q (binary_normalize prec emax m e sz) == RN (inject_Z m * pow2 e).
Proof.
  intros H. pose proof (pow2_gt_0 e). destruct m as [|p|p]; simpl binary_normalize.
  - split; [reflexivity|split; [reflexivity|]].
    rewrite RN_comp with (y := 0) by (change (inject_Z 0) with 0; ring).
    reflexivity.
  - destruct (binary_round_spec false p e (digits_lt_emax _ _ H)) as (F & S & V).
    split; [exact F|split; [exact S|]]. rewrite V. rewrite RN_pos; [ring|].
    apply Qmult_le_0_compat; [discriminate|lra].
  - assert (H' : Qabs (inject_Z (Zpos p) * pow2 e) < pow2 1023).
    { change (inject_Z (Zneg p)) with (- inject_Z (Zpos p)) in H.
      rewrite <- Qabs_opp. 
      assert (- (inject_Z (Zpos p) * pow2 e) == - inject_Z (Zpos p) * pow2 e) as -> by ring.
      exact H. }
    destruct (binary_round_spec true p e (digits_lt_emax _ _ H')) as (F & S & V).
    split; [exact F|split; [exact S|]]. rewrite V.
    assert (0 < inject_Z (Zpos p) * pow2 e).
    { apply Qmult_lt_0_compat; [reflexivity|assumption]. }
    rewrite RN_neg.
    + rewrite (RNpos_comp (- (inject_Z (Zneg p) * pow2 e)) (inject_Z (Zpos p) * pow2 e)).
      * ring.
      * change (inject_Z (Zneg p)) with (- inject_Z (Zpos p)). lra.
      * change (inject_Z (Zneg p)) with (- inject_Z (Zpos p)). ring.
    + change (inject_Z (Zneg p)) with (- inject_Z (Zpos p)). lra.
Qed.

(** ** Addition and subtraction *)

Lemma cond_Zopp_Q s m e ez :
  (ez <= e)%Z ->
  inject_Z (cond_Zopp s (Zpos (fst (shl_align m e ez)))) * pow2 ez
  == SF2Q (S754_finite s m e).
Proof.
  intros H. destruct (shl_align_spec m e ez H) as [A _]. rewrite A.
  rewrite SF2Q_finite.
  assert (pow2 e == pow2 (e - ez) * pow2 ez) as ->.
  { rewrite <- pow2_add. replace (e - ez + ez)%Z with e by lia. reflexivity. }
  rewrite (pow2_Z (e - ez)) by lia.
  destruct s; unfold cond_Zopp.
  - change (Zneg m) with (- Zpos m)%Z. rewrite !inject_Z_opp, inject_Z_mult. ring.
  - rewrite inject_Z_mult. ring.
Qed.

Theorem SFadd_spec x y :
  valid_binary x = true -> valid_binary y = true ->
  finite_SF x = true -> finite_SF y = true ->
  Qabs (SF2Q x + SF2Q y) < pow2 1023 ->
  finite_SF (SFadd prec emax x y) = true /\
  SF2Q (SFadd prec emax x y) == RN (SF2Q x + SF2Q y).
Proof.
  intros Vx Vy Fx Fy H.
  destruct x as [sx|sx| |sx mx ex]; try discriminate;
  destruct y as [sy|sy| |sy my ey]; try discriminate.
  - simpl SFadd. destruct sx, sy; split; reflexivity.
  - simpl SFadd. split; [reflexivity|].
    rewrite RN_comp with (y := SF2Q (S754_finite sy my ey)) by (simpl SF2Q at 1; ring).
    symmetry. apply RN_valid. assumption.
  - simpl SFadd. split; [reflexivity|].
    rewrite RN_comp with (y := SF2Q (S754_finite sx mx ex)) by (simpl SF2Q at 2; ring).
    symmetry. apply RN_valid. assumption.
  - unfold SFadd. set (ez := Z.min ex ey).
    set (S := (cond_Zopp sx (Zpos (fst (shl_align mx ex ez)))
               + cond_Zopp sy (Zpos (fst (shl_align my ey ez))))%Z).
    assert (E : inject_Z S * pow2 ez
                == SF2Q (S754_finite sx mx ex) + SF2Q (S754_finite sy my ey)).
    { unfold S. rewrite inject_Z_plus, Qmult_plus_distr_l.
      rewrite !cond_Zopp_Q by (unfold ez; lia). reflexivity. }
    destruct (binary_normalize_spec S ez false) as (F & _ & V).
    + rewrite E. exact H.
    + split; [exact F|]. rewrite V. apply RN_comp. exact E.
Qed.

Theorem SFsub_spec x y :
  valid_binary x = true -> valid_binary y = true ->
  finite_SF x = true -> finite_SF y = true ->
  Qabs (SF2Q x - SF2Q y) < pow2 1023 ->
  finite_SF (SFsub prec emax x y) = true /\
  SF2Q (SFsub prec emax x y) == RN (SF2Q x - SF2Q y).
Proof.
  intros Vx Vy Fx Fy H.
  destruct x as [sx|sx| |sx mx ex]; try discriminate;
  destruct y as [sy|sy| |sy my ey]; try discriminate.
  - simpl SFsub. destruct sx, sy; split; reflexivity.
  - simpl SFsub. split; [reflexivity|].
    rewrite RN_comp with (y := SF2Q (S754_finite (negb sy) my ey)).
    + symmetry. apply RN_valid. exact Vy.
    + destruct sy; cbn [SF2Q negb];
        change (inject_Z (Zneg my)) with (- inject_Z (Zpos my)); ring.
  - simpl SFsub. split; [reflexivity|].
    rewrite RN_comp with (y := SF2Q (S754_finite sx mx ex)) by (simpl SF2Q at 2; ring).
    symmetry. apply RN_valid. assumption.
  - unfold SFsub. set (ez := Z.min ex ey).
    set (S := (cond_Zopp sx (Zpos (fst (shl_align mx ex ez)))
               - cond_Zopp sy (Zpos (fst (shl_align my ey ez))))%Z).
    assert (E : inject_Z S * pow2 ez
                == SF2Q (S754_finite sx mx ex) - SF2Q (S754_finite sy my ey)).
    { unfold S, Z.sub. rewrite inject_Z_plus, inject_Z_opp.
      rewrite <- (cond_Zopp_Q sx mx ex ez), <- (cond_Zopp_Q sy my ey ez) by (unfold ez; lia).
      ring. }
    destruct (binary_normalize_spec S ez false) as (F & _ & V).
    + rewrite E. exact H.
    + split; [exact F|]. rewrite V. apply RN_comp. exact E.
Qed.

Lemma digits2_ge p t : (2 ^ t <= Zpos p)%Z -> (t + 1 <= Zpos (digits2_pos p))%Z.
Proof.
  intros H. pose proof (digits2_bounds p) as [_ U].
  destruct (Z_lt_le_dec t 0) as [N|N]; [lia|].
  assert (t < Zpos (digits2_pos p))%Z; [|lia].
  apply (Z.pow_lt_mono_r_iff 2); lia.
Qed.

Lemma digits2_mul_ge p q :
  (Zpos (digits2_pos p) + Zpos (digits2_pos q) - 1 <= Zpos (digits2_pos (p * q)))%Z.
Proof.
  pose proof (digits2_bounds p) as [Lp _]. pose proof (digits2_bounds q) as [Lq _].
  assert (2 ^ (Zpos (digits2_pos p) - 1 + (Zpos (digits2_pos q) - 1)) <= Zpos (p * q))%Z.
  { rewrite Z.pow_add_r by lia. rewrite Pos2Z.inj_mul.
    apply Z.mul_le_mono_nonneg; try lia; apply Z.pow_nonneg; lia. }
  apply digits2_ge in H. lia.
Qed.

Lemma Qabs_mant m e : Qabs (inject_Z (Zpos m) * pow2 e) == inject_Z (Zpos m) * pow2 e.
Proof.
  apply Qabs_pos. apply Qmult_le_0_compat; [discriminate|apply Qlt_le_weak, pow2_gt_0].
Qed.

Lemma Qabs_SF2Q s m e :
  Qabs (SF2Q (S754_finite s m e)) == inject_Z (Zpos m) * pow2 e.
Proof.
  destruct s; cbn [SF2Q].
  - change (inject_Z (Zneg m)) with (- inject_Z (Zpos m)).
    assert (- inject_Z (Zpos m) * pow2 e == - (inject_Z (Zpos m) * pow2 e)) as -> by ring.
    rewrite Qabs_opp. apply Qabs_mant.
  - apply Qabs_mant.
Qed.

Lemma SF2Q_sign s m e :
  SF2Q (S754_finite s m e) == (if s then -1 else 1) * (inject_Z (Zpos m) * pow2 e).
Proof.
  destruct s; cbn [SF2Q]; [change (inject_Z (Zneg m)) with (- inject_Z (Zpos m))|]; ring.
Qed.

Lemma RN_sign (s : bool) x :
  0 <= x -> (if s then -1 else 1) * RNpos x == RN ((if s then -1 else 1) * x).
Proof.
  intros H. destruct s.
  - destruct (Qlt_le_dec 0 x) as [P|P].
    + rewrite RN_neg by lra. rewrite (RNpos_comp (- (-1 * x)) x); [ring|lra|ring].
    + rewrite (RN_comp (-1 * x) 0) by lra. rewrite (RNpos_comp x 0) by lra.
      rewrite RNpos_0. reflexivity.
  - rewrite RN_pos by lra. rewrite (RNpos_comp (1 * x) x); [ring|lra|ring].
Qed.

Theorem SFmul_spec x y :
  valid_binary x = true -> valid_binary y = true ->
  finite_SF x = true -> finite_SF y = true ->
  Qabs (SF2Q x * SF2Q y) < pow2 1023 ->
  finite_SF (SFmul prec emax x y) = true /\
  sign_SF (SFmul prec emax x y) = xorb (sign_SF x) (sign_SF y) /\
  SF2Q (SFmul prec emax x y) == RN (SF2Q x * SF2Q y).
Proof.
  intros Vx Vy Fx Fy H.
  destruct x as [sx|sx| |sx mx ex]; try discriminate;
  destruct y as [sy|sy| |sy my ey]; try discriminate;
  try (cbn [SFmul sign_SF finite_SF]; split; [reflexivity|split; [reflexivity|]];
       cbn [SF2Q]; rewrite RN_comp with (y := 0) by ring; reflexivity).
  unfold SFmul. cbn [sign_SF].
  destruct (valid_finite _ _ _ Vx) as (Dx & Ex & Nx).
  destruct (valid_finite _ _ _ Vy) as (Dy & Ey & Ny).
  pose proof (digits2_mul_ge mx my) as Dm.
  assert (P : Qabs (inject_Z (Zpos (mx * my)) * pow2 (ex + ey)) < pow2 1023).
  { rewrite Qabs_mant. rewrite Qabs_Qmult, !Qabs_SF2Q in H.
    rewrite Pos2Z.inj_mul, inject_Z_mult, pow2_add.
    apply Qle_lt_trans with (2 := H). apply Qle_lteq. right. ring. }
  destruct (bra_spec (xorb sx sy) (mx * my) (ex + ey) loc_Exact
              (inject_Z (Zpos (mx * my))) (loc_exact _)) as (F & S & V).
  - rewrite fexp_eq. lia.
  - apply digits_lt_emax. exact P.
  - split; [exact F|split; [exact S|]]. rewrite V.
    rewrite RN_sign by (apply Qmult_le_0_compat; [discriminate|apply Qlt_le_weak, pow2_gt_0]).
    apply RN_comp. rewrite !SF2Q_sign, Pos2Z.inj_mul, inject_Z_mult, pow2_add.
    destruct sx, sy; cbn [xorb]; ring.
Qed.

(** ** Division *)

Lemma new_location_spec nb q r :
  (0 <= r < nb)%Z ->
  loc_of q (new_location nb r) (inject_Z q + inject_Z r / inject_Z nb).
Proof.
  intros H.
  set (rho := inject_Z r / inject_Z nb).
  assert (Hnb : 0 < inject_Z nb).
  { change 0 with (inject_Z 0). rewrite <- Zlt_Qlt. lia. }
  assert (E : rho * inject_Z nb == inject_Z r).
  { unfold rho. field. lra. }
  clearbody rho.
  assert (Z0 : r = 0%Z -> rho == 0).
  { intros Hz. rewrite Hz in E. change (inject_Z 0) with 0 in E.
    apply Qmult_integral in E. destruct E; [assumption|lra]. }
  assert (NZ : r <> 0%Z -> 0 < rho /\ rho < 1).
  { intros Hz.
    assert (R0 : 0 < inject_Z r).
    { change 0 with (inject_Z 0). rewrite <- Zlt_Qlt. lia. }
    assert (Rn : inject_Z r < inject_Z nb) by (rewrite <- Zlt_Qlt; lia).
    split; nra. }
  assert (LT : (2 * r < nb)%Z -> rho < 1 # 2).
  { intros C. rewrite Zlt_Qlt, inject_Z_mult in C. change (inject_Z 2) with 2 in C. nra. }
  assert (GT : (nb < 2 * r)%Z -> 1 # 2 < rho).
  { intros C. rewrite Zlt_Qlt, inject_Z_mult in C. change (inject_Z 2) with 2 in C. nra. }
  assert (EQ : (2 * r = nb)%Z -> rho == 1 # 2).
  { intros C. assert (2 * inject_Z r == inject_Z nb).
    { rewrite <- C, inject_Z_mult. reflexivity. }
    nra. }
  unfold new_location, new_location_even, new_location_odd.
  destruct (Z.even nb) eqn:Ev; destruct (Z.eqb_spec r 0) as [Hz|Hz];
    try (specialize (Z0 Hz); simpl; lra);
    destruct (NZ Hz) as [P1 P2].
  - destruct (Z.compare_spec (2 * r) nb) as [C|C|C]; simpl.
    + specialize (EQ C). lra.
    + specialize (LT C). lra.
    + specialize (GT C). lra.
  - assert (Od : (2 * r <> nb)%Z).
    { intros C. rewrite <- C, Z.even_mul in Ev. discriminate. }
    destruct (Z.compare_spec (2 * r + 1) nb) as [C|C|C]; simpl.
    + specialize (LT ltac:(lia)). lra.
    + specialize (LT ltac:(lia)). lra.
    + specialize (GT ltac:(lia)). lra.
Qed.

Lemma pow2_le_inv a b : pow2 a <= pow2 b -> (a <= b)%Z.
Proof.
  intros H. destruct (Z_lt_le_dec b a) as [C|C]; [|assumption].
  apply pow2_lt in C. lra.
Qed.

Lemma shiftl_match m s :
  (0 <= s)%Z ->
  match s with
  | Zpos _ => Z.shiftl m s
  | Z0 => m
  | Zneg _ => 0%Z
  end = (m * 2 ^ s)%Z.
Proof.
  intros H. destruct s as [|p|p]; [rewrite Z.pow_0_r; lia| |lia].
  apply Z.shiftl_mul_pow2. lia.
Qed.

Theorem SFdiv_finite_spec sx mx ex sy my ey :
  valid_binary (S754_finite sx mx ex) = true ->
  valid_binary (S754_finite sy my ey) = true ->
  let X := inject_Z (Zpos mx) * pow2 ex / (inject_Z (Zpos my) * pow2 ey) in
  pow2 (-1022) <= X -> X < pow2 1023 ->
  let r := SFdiv prec emax (S754_finite sx mx ex) (S754_finite sy my ey) in
  finite_SF r = true /\ sign_SF r = xorb sx sy /\
  SF2Q r == (if xorb sx sy then -1 else 1) * RNpos X.
Proof.
  intros Vx Vy X XL XU.
  destruct (valid_finite _ _ _ Vx) as (Dx & Ex & Nx).
  destruct (valid_finite _ _ _ Vy) as (Dy & Ey & Ny).
  destruct (mant_bounds mx) as [Lx Ux]. destruct (mant_bounds my) as [Ly Uy].
  pose proof (digits2_bounds mx) as [ZLx ZUx]. pose proof (digits2_bounds my) as [ZLy ZUy].
  set (d1 := Zpos (digits2_pos mx)) in *. set (d2 := Zpos (digits2_pos my)) in *.
  assert (Hd1 : (0 < d1)%Z) by (unfold d1; lia).
  assert (Hd2 : (0 < d2)%Z) by (unfold d2; lia).
  set (D := (d1 + ex - (d2 + ey))%Z).
  pose proof (pow2_gt_0 ex) as Pex. pose proof (pow2_gt_0 ey) as Pey.
  assert (Pmy : 0 < inject_Z (Zpos my)) by reflexivity.
  assert (Pmx : 0 < inject_Z (Zpos mx)) by reflexivity.
  set (Xd := inject_Z (Zpos my) * pow2 ey) in *.
  set (Xn := inject_Z (Zpos mx) * pow2 ex) in *.
  assert (PXd : 0 < Xd) by (unfold Xd; nra).
  assert (EX : X * Xd == Xn) by (unfold X; field; lra).
  (* the quotient is in the normal range *)
  assert (HD : (-1022 <= D)%Z).
  { assert (pow2 (-1022 + (d2 - 1 + ey)) < pow2 (d1 + ex)).
    { rewrite !pow2_add.
      apply Qle_lt_trans with (X * Xd).
      - apply Qle_trans with (X * (pow2 (d2 - 1) * pow2 ey)).
        + apply Qmult_le_compat_r; [assumption|]. apply Qlt_le_weak.
          apply Qmult_lt_0_compat; apply pow2_gt_0.
        + apply Qmult_le_l; [pose proof (pow2_gt_0 (-1022)); lra|].
          unfold Xd. apply Qmult_le_compat_r; lra.
      - rewrite EX. unfold Xn. apply Qmult_lt_r; assumption. }
    apply pow2_lt_inv in H. unfold D. lia. }
  set (e' := Z.min (fexp prec emax D) (ex - ey)).
  set (s := (ex - ey - e')%Z).
  assert (Hs : (0 <= s)%Z) by (unfold s, e'; lia).
  assert (He' : (e' <= fexp prec emax D)%Z) by (unfold e'; lia).
  set (t := (d1 - 1 + s - d2)%Z).
  assert (Ht : (0 <= t)%Z).
  { unfold t, s, e', D in *. rewrite fexp_eq in *. lia. }
  set (m' := (Zpos mx * 2 ^ s)%Z).
  assert (Hm' : match s with
                | Zpos _ => Z.shiftl (Zpos mx) s
                | Z0 => Zpos mx
                | Zneg _ => 0%Z
                end = m').
  { unfold m'. apply shiftl_match. assumption. }
  pose proof (Z_div_mod m' (Zpos my) eq_refl) as DM.
  destruct (Z.div_eucl m' (Zpos my)) as [q r] eqn:Ediv.
  destruct DM as [DM1 DM2].
  (* the quotient has enough digits *)
  assert (Hq : (2 ^ t <= q)%Z).
  { assert (2 ^ t * Zpos my <= m')%Z.
    { unfold m'. apply Z.le_trans with (2 ^ t * 2 ^ d2)%Z.
      - apply Z.mul_le_mono_nonneg_l; [apply Z.pow_nonneg; lia|lia].
      - rewrite <- Z.pow_add_r by lia.
        replace (t + d2)%Z with ((d1 - 1) + s)%Z by (unfold t; lia).
        rewrite Z.pow_add_r by lia.
        apply Z.mul_le_mono_nonneg_r; [apply Z.pow_nonneg; lia|assumption]. }
    assert (0 < 2 ^ t)%Z by (apply Z.pow_pos_nonneg; lia).
    nia. }
  assert (Hq0 : (0 < q)%Z).
  { assert (0 < 2 ^ t)%Z by (apply Z.pow_pos_nonneg; lia). lia. }
  destruct q as [|pq|pq]; try lia.
  pose proof (digits2_ge pq t Hq) as Dq.
  set (x := inject_Z (Zpos pq) + inject_Z r / inject_Z (Zpos my)).
  assert (Hx : x * pow2 e' == X).
  { apply (Qmult_inj_r _ _ Xd); [lra|]. rewrite EX.
    unfold x, Xd, Xn.
    assert (inject_Z (Zpos mx) * pow2 s == inject_Z (Zpos my) * inject_Z (Zpos pq) + inject_Z r) as Em.
    { rewrite inject_Z_pow2 by assumption. fold m'. rewrite DM1.
      rewrite inject_Z_plus, inject_Z_mult. reflexivity. }
    assert (pow2 ex == pow2 s * pow2 e' * pow2 ey) as ->.
    { rewrite <- !pow2_add. replace (s + e' + ey)%Z with ex by (unfold s; lia). reflexivity. }
    assert ((inject_Z (Zpos pq) + inject_Z r / inject_Z (Zpos my)) * pow2 e'
              * (inject_Z (Zpos my) * pow2 ey)
            == (inject_Z (Zpos my) * inject_Z (Zpos pq) + inject_Z r)
               * (pow2 e' * pow2 ey)) as -> by (field; lra).
    rewrite <- Em. ring. }
  pose proof (new_location_spec (Zpos my) (Zpos pq) r DM2) as Loc. fold x in Loc.
  destruct (loc_of_bounds _ _ _ Loc) as [B1 B2].
  destruct (mant_bounds pq) as [Lq Uq].
  destruct (bra_spec (xorb sx sy) pq e' (new_location (Zpos my) r) x Loc) as (F & S & V).
  - apply Z.le_trans with (1 := He'). rewrite !fexp_eq. unfold t, s, D in *. lia.
  - assert (pow2 (Zpos (digits2_pos pq) - 1 + e') < pow2 1023).
    { apply Qle_lt_trans with (2 := XU). rewrite <- Hx, pow2_add.
      apply Qmult_le_compat_r; [lra|apply Qlt_le_weak, pow2_gt_0]. }
    apply pow2_lt_inv in H. unfold emax. lia.
  - unfold SFdiv, SFdiv_core_binary. cbn [Zdigits2]. fold d1 d2 D e' s.
    rewrite Hm', Ediv.
    split; [exact F|split; [exact S|]]. rewrite V.
    rewrite (RNpos_comp (x * pow2 e') X); [reflexivity| |exact Hx].
    pose proof (pow2_gt_0 e'). pose proof (pow2_gt_0 (Zpos (digits2_pos pq) - 1)). nra.
Qed.

(** ** Order and equality of valid floats *)

Lemma canonical_lt m1 e1 m2 e2 s1 s2 :
  valid_binary (S754_finite s1 m1 e1) = true ->
  valid_binary (S754_finite s2 m2 e2) = true ->
  (e1 < e2)%Z ->
  inject_Z (Zpos m1) * pow2 e1 < inject_Z (Zpos m2) * pow2 e2.
Proof.
  intros V1 V2 H.
  destruct (valid_finite _ _ _ V1) as (D1 & E1 & N1).
  destruct (valid_finite _ _ _ V2) as (D2 & E2 & N2).
  destruct (mant_bounds m1) as [_ U1]. destruct (mant_bounds m2) as [L2 _].
  pose proof (pow2_gt_0 e1). pose proof (pow2_gt_0 e2).
  apply Qlt_le_trans with (pow2 (Zpos (digits2_pos m1)) * pow2 e1).
  - apply Qmult_lt_r; assumption.
  - apply Qle_trans with (pow2 (Zpos (digits2_pos m2) - 1) * pow2 e2).
    + rewrite <- !pow2_add. apply pow2_le. lia.
    + apply Qmult_le_compat_r; lra.
Qed.

Lemma Qcompare_Lt x y : x < y -> (x ?= y) = Lt.
Proof. intros. apply Qlt_alt. assumption. Qed.
Lemma Qcompare_Gt x y : y < x -> (x ?= y) = Gt.
Proof. intros. apply Qgt_alt. assumption. Qed.
Lemma Qcompare_Eq x y : x == y -> (x ?= y) = Eq.
Proof. intros. apply Qeq_alt. assumption. Qed.

Lemma mant_compare m1 m2 e :
  (inject_Z (Zpos m1) * pow2 e ?= inject_Z (Zpos m2) * pow2 e) = Pos.compare m1 m2.
Proof.
  pose proof (pow2_gt_0 e).
  destruct (Pos.compare_spec m1 m2) as [C|C|C].
  - subst. apply Qcompare_Eq. reflexivity.
  - apply Qcompare_Lt. apply Qmult_lt_r; [assumption|]. rewrite <- Zlt_Qlt. lia.
  - apply Qcompare_Gt. apply Qmult_lt_r; [assumption|]. rewrite <- Zlt_Qlt. lia.
Qed.

Lemma pos_compare m1 m2 e1 e2 s1 s2 :
  valid_binary (S754_finite s1 m1 e1) = true ->
  valid_binary (S754_finite s2 m2 e2) = true ->
  (inject_Z (Zpos m1) * pow2 e1 ?= inject_Z (Zpos m2) * pow2 e2)
  = match Z.compare e1 e2 with
    | Lt => Lt
    | Gt => Gt
    | Eq => Pos.compare_cont Eq m1 m2
    end.
Proof.
  intros V1 V2. destruct (Z.compare_spec e1 e2) as [C|C|C].
  - subst. apply mant_compare.
  - apply Qcompare_Lt. eapply canonical_lt; eauto.
  - apply Qcompare_Gt. eapply canonical_lt; eauto.
Qed.

Lemma Qcompare_opp x y : (- x ?= - y) = CompOpp (x ?= y).
Proof.
  destruct (Qcompare_spec x y) as [C|C|C]; simpl.
  - apply Qcompare_Eq. rewrite C. reflexivity.
  - apply Qcompare_Gt. lra.
  - apply Qcompare_Lt. lra.
Qed.

Theorem SFcompare_spec x y :
  valid_binary x = true -> valid_binary y = true ->
  finite_SF x = true -> finite_SF y = true ->
  SFcompare x y = Some (SF2Q x ?= SF2Q y).
Proof.
  intros Vx Vy Fx Fy.
  destruct x as [sx|sx| |sx mx ex]; try discriminate;
  destruct y as [sy|sy| |sy my ey]; try discriminate; cbn [SFcompare].
  - reflexivity.
  - f_equal. symmetry. rewrite SF2Q_sign. cbn [SF2Q].
    pose proof (pow2_gt_0 ey). assert (0 < inject_Z (Zpos my)) by reflexivity.
    destruct sy; [apply Qcompare_Gt|apply Qcompare_Lt]; nra.
  - f_equal. symmetry. rewrite SF2Q_sign. cbn [SF2Q].
    pose proof (pow2_gt_0 ex). assert (0 < inject_Z (Zpos mx)) by reflexivity.
    destruct sx; [apply Qcompare_Lt|apply Qcompare_Gt]; nra.
  - f_equal. symmetry. rewrite !SF2Q_sign.
    pose proof (pow2_gt_0 ex). assert (0 < inject_Z (Zpos mx)) by reflexivity.
    pose proof (pow2_gt_0 ey). assert (0 < inject_Z (Zpos my)) by reflexivity.
    destruct sx, sy.
    + transitivity (CompOpp (inject_Z (Zpos mx) * pow2 ex ?= inject_Z (Zpos my) * pow2 ey)).
      * rewrite <- Qcompare_opp. apply Qcompare_comp; ring.
      * rewrite (pos_compare mx my ex ey true true Vx Vy).
        destruct (ex ?= ey)%Z; reflexivity.
    + apply Qcompare_Lt. nra.
    + apply Qcompare_Gt. nra.
    + rewrite <- (pos_compare mx my ex ey false false Vx Vy).
      apply Qcompare_comp; ring.
Qed.

Theorem SF_unique x y :
  valid_binary x = true -> valid_binary y = true ->
  finite_SF x = true -> finite_SF y = true ->
  sign_SF x = sign_SF y -> SF2Q x == SF2Q y -> x = y.
Proof.
  intros Vx Vy Fx Fy S E.
  destruct x as [sx|sx| |sx mx ex]; try discriminate;
  destruct y as [sy|sy| |sy my ey]; try discriminate; cbn [sign_SF] in S; subst.
  - reflexivity.
  - exfalso. rewrite SF2Q_sign in E. cbn [SF2Q] in E.
    pose proof (pow2_gt_0 ey). assert (0 < inject_Z (Zpos my)) by reflexivity.
    destruct sy; nra.
  - exfalso. rewrite SF2Q_sign in E. cbn [SF2Q] in E.
    pose proof (pow2_gt_0 ex). assert (0 < inject_Z (Zpos mx)) by reflexivity.
    destruct sy; nra.
  - rewrite !SF2Q_sign in E.
    assert (E' : inject_Z (Zpos mx) * pow2 ex == inject_Z (Zpos my) * pow2 ey).
    { destruct sy; lra. }
    apply Qcompare_Eq in E'. rewrite (pos_compare _ _ _ _ _ _ Vx Vy) in E'.
    destruct (Z.compare_spec ex ey); try discriminate. subst.
    change (Pos.compare_cont Eq mx my) with (Pos.compare mx my) in E'.
    apply Pos.compare_eq in E'. subst. reflexivity.
Qed.

(** ** The primitive operations *)

Theorem D_unique x y :
  finiteD x = true -> finiteD y = true -> signD x = signD y -> D2Q x == D2Q y ->
  x = y.
Proof.
  intros. apply Prim2SF_inj. apply SF_unique; auto using Prim2SF_valid.
Qed.

Theorem add_correct x y :
  finiteD x = true -> finiteD y = true ->
  Qabs (D2Q x + D2Q y) < pow2 1023 ->
  finiteD (x + y) = true /\ D2Q (x + y) == RN (D2Q x + D2Q y).
Proof.
  intros. unfold finiteD, D2Q. rewrite FloatAxioms.add_spec.
  apply SFadd_spec; auto using Prim2SF_valid.
Qed.

Theorem sub_correct x y :
  finiteD x = true -> finiteD y = true ->
  Qabs (D2Q x - D2Q y) < pow2 1023 ->
  finiteD (x - y) = true /\ D2Q (x - y) == RN (D2Q x - D2Q y).
Proof.
  intros. unfold finiteD, D2Q. rewrite FloatAxioms.sub_spec.
  apply SFsub_spec; auto using Prim2SF_valid.
Qed.

Theorem mul_correct x y :
  finiteD x = true -> finiteD y = true ->
  Qabs (D2Q x * D2Q y) < pow2 1023 ->
  finiteD (x * y) = true /\ signD (x * y) = xorb (signD x) (signD y) /\
  D2Q (x * y) == RN (D2Q x * D2Q y).
Proof.
  intros. unfold finiteD, signD, D2Q. rewrite FloatAxioms.mul_spec.
  apply SFmul_spec; auto using Prim2SF_valid.
Qed.

Theorem div_correct x y :
  finiteD x = true -> finiteD y = true -> ~ D2Q y == 0 ->
  (D2Q x == 0 \/ pow2 (-1022) <= Qabs (D2Q x / D2Q y)) ->
  Qabs (D2Q x / D2Q y) < pow2 1023 ->
  finiteD (x / y) = true /\ signD (x / y) = xorb (signD x) (signD y) /\
  D2Q (x / y) == RN (D2Q x / D2Q y).
Proof.
  unfold finiteD, signD, D2Q. rewrite FloatAxioms.div_spec.
  pose proof (Prim2SF_valid x) as Vx. pose proof (Prim2SF_valid y) as Vy.
  destruct (Prim2SF x) as [sx|sx| |sx mx ex]; try discriminate;
  destruct (Prim2SF y) as [sy|sy| |sy my ey]; try discriminate;
  intros _ _ Ny L U; try (exfalso; apply Ny; reflexivity).
  - split; [reflexivity|split; [reflexivity|]].
    cbn [SF2Q SFdiv SF64div]. rewrite RN_comp with (y := 0); [reflexivity|].
    unfold Qdiv. ring.
  - pose proof (pow2_gt_0 ex). assert (0 < inject_Z (Zpos mx)) by reflexivity.
    pose proof (pow2_gt_0 ey). assert (0 < inject_Z (Zpos my)) by reflexivity.
    assert (Px : 0 < inject_Z (Zpos mx) * pow2 ex) by nra.
    assert (Py : 0 < inject_Z (Zpos my) * pow2 ey) by nra.
    destruct L as [L|L].
    { exfalso. rewrite SF2Q_sign in L. destruct sx; nra. }
    assert (A : Qabs (SF2Q (S754_finite sx mx ex) / SF2Q (S754_finite sy my ey))
                == inject_Z (Zpos mx) * pow2 ex / (inject_Z (Zpos my) * pow2 ey)).
    { unfold Qdiv. rewrite Qabs_Qmult, Qabs_Qinv, !Qabs_SF2Q. reflexivity. }
    rewrite A in L, U.
    destruct (SFdiv_finite_spec sx mx ex sy my ey Vx Vy L U) as (F & S & V).
    split; [exact F|split; [exact S|]]. unfold SF64div. rewrite V.
    rewrite RN_sign.
    + apply RN_comp. rewrite !SF2Q_sign. destruct sx, sy; cbn [xorb]; field; lra.
    + apply Qlt_le_weak. apply Qlt_shift_div_l; lra.
Qed.

Lemma to_Z_of_Z z : (0 <= z < 2 ^ 63)%Z -> Uint63.to_Z (Uint63.of_Z z) = z.
Proof.
  intros H. rewrite Uint63.of_Z_spec. apply Z.mod_small. exact H.
Qed.

Lemma Qabs_Z_lt z : (- 2 ^ 53 <= z <= 2 ^ 53)%Z -> Qabs (inject_Z z * pow2 0) < pow2 1023.
Proof.
  intros H. change (pow2 0) with 1. rewrite Qmult_1_r.
  apply Qle_lt_trans with (pow2 53); [|apply pow2_lt; lia].
  rewrite pow2_Z by lia. apply Qabs_Qle_condition.
  rewrite <- inject_Z_opp, <- !Zle_Qle. lia.
Qed.

Lemma of_uint63_correct z :
  (0 <= z <= 2 ^ 53)%Z ->
  finiteD (of_uint63 (Uint63.of_Z z)) = true
  /\ signD (of_uint63 (Uint63.of_Z z)) = false
  /\ D2Q (of_uint63 (Uint63.of_Z z)) == inject_Z z.
Proof.
  intros H. unfold finiteD, signD, D2Q. rewrite of_uint63_spec, to_Z_of_Z by lia.
  destruct (binary_normalize_spec z 0 false (Qabs_Z_lt z ltac:(lia))) as (F & S & V).
  split; [exact F|split].
  - rewrite S. destruct (Z.eqb_spec z 0); [reflexivity|]. apply Z.ltb_ge. lia.
  - rewrite V. rewrite RN_comp with (y := inject_Z z) by (change (pow2 0) with 1; ring).
    apply RN_Z. lia.
Qed.

Lemma SFopp_spec x :
  finite_SF x = true ->
  finite_SF (SFopp x) = true /\ sign_SF (SFopp x) = negb (sign_SF x)
  /\ SF2Q (SFopp x) == - SF2Q x.
Proof.
  destruct x as [s|s| |s m e]; try discriminate; intros _;
    (split; [reflexivity|split; [reflexivity|]]); cbn [SFopp SF2Q]; try ring.
  destruct s; cbn [negb];
    change (inject_Z (Zneg m)) with (- inject_Z (Zpos m)); ring.
Qed.

Theorem Z2D_correct z :
  (- 2 ^ 53 <= z <= 2 ^ 53)%Z ->
  finiteD (Z2D z) = true /\ signD (Z2D z) = (z <? 0)%Z /\ D2Q (Z2D z) == inject_Z z.
Proof.
  intros H. unfold Z2D. destruct (Z.ltb_spec z 0) as [N|N].
  - destruct (of_uint63_correct (- z) ltac:(lia)) as (F & S & V).
    unfold finiteD, signD, D2Q in *. rewrite FloatAxioms.opp_spec.
    destruct (SFopp_spec _ F) as (F' & S' & V').
    split; [exact F'|split].
    + rewrite S', S. reflexivity.
    + rewrite V', V, inject_Z_opp. ring.
  - apply of_uint63_correct. lia.
Qed.

Lemma Z2D_finite z : (- 2 ^ 53 <= z <= 2 ^ 53)%Z -> finiteD (Z2D z) = true.
Proof. intros. apply Z2D_correct. assumption. Qed.

Lemma Z2D_value z : (- 2 ^ 53 <= z <= 2 ^ 53)%Z -> D2Q (Z2D z) == inject_Z z.
Proof. intros. apply Z2D_correct. assumption. Qed.

Lemma Z2D_sign z : (- 2 ^ 53 <= z <= 2 ^ 53)%Z -> signD (Z2D z) = (z <? 0)%Z.
Proof. intros. apply Z2D_correct. assumption. Qed.

Lemma Qabs_Z_bound z B :
  (- B <= z <= B)%Z -> Qabs (inject_Z z) <= inject_Z B.
Proof.
  intros H. apply Qabs_Qle_condition. rewrite <- inject_Z_opp, <- !Zle_Qle. lia.
Qed.

Lemma small_lt_huge z : (- 2 ^ 60 <= z <= 2 ^ 60)%Z -> Qabs (inject_Z z) < pow2 1023.
Proof.
  intros H. apply Qle_lt_trans with (inject_Z (2 ^ 60)).
  - apply Qabs_Z_bound. lia.
  - rewrite <- pow2_Z by lia. apply pow2_lt. lia.
Qed.

(** Products and differences of integers that fit in 53 bits are exact. *)
Theorem Z2D_mul a b :
  (0 <= a)%Z -> (0 <= b)%Z -> (a * b <= 2 ^ 53)%Z -> (a <= 2 ^ 53)%Z -> (b <= 2 ^ 53)%Z ->
  (Z2D a * Z2D b)%float = Z2D (a * b).
Proof.
  intros Ha Hb Hab Ha' Hb'.
  destruct (Z2D_correct a ltac:(lia)) as (Fa & Sa & Va).
  destruct (Z2D_correct b ltac:(lia)) as (Fb & Sb & Vb).
  destruct (Z2D_correct (a * b) ltac:(nia)) as (Fc & Sc & Vc).
  destruct (mul_correct (Z2D a) (Z2D b) Fa Fb) as (F & S & V).
  { rewrite Va, Vb, <- inject_Z_mult. apply small_lt_huge. nia. }
  apply D_unique; try assumption.
  - rewrite S, Sa, Sb, Sc.
    destruct (Z.ltb_spec a 0), (Z.ltb_spec b 0), (Z.ltb_spec (a * b) 0); try reflexivity; nia.
  - rewrite V, Vc. rewrite RN_comp with (y := inject_Z (a * b)).
    + apply RN_Z. nia.
    + rewrite Va, Vb, inject_Z_mult. reflexivity.
Qed.

Lemma SFsub_sign x y :
  finite_SF x = true -> finite_SF y = true ->
  sign_SF x = false -> sign_SF y = false ->
  0 <= SF2Q x - SF2Q y -> sign_SF (SFsub prec emax x y) = false.
Proof.
  intros Fx Fy Sx Sy H.
  destruct x as [sx|sx| |sx mx ex]; try discriminate;
  destruct y as [sy|sy| |sy my ey]; try discriminate;
  cbn [sign_SF] in Sx, Sy; subst; cbn [SFsub sign_SF]; try reflexivity.
  - exfalso. cbn [SF2Q] in H. pose proof (pow2_gt_0 ey).
    assert (0 < inject_Z (Zpos my)) by reflexivity. nra.
  - set (ez := Z.min ex ey).
    set (S := (cond_Zopp false (Zpos (fst (shl_align mx ex ez)))
               - cond_Zopp false (Zpos (fst (shl_align my ey ez))))%Z).
    assert (E : inject_Z S * pow2 ez
                == SF2Q (S754_finite false mx ex) - SF2Q (S754_finite false my ey)).
    { unfold S, Z.sub. rewrite inject_Z_plus, inject_Z_opp.
      rewrite <- (cond_Zopp_Q false mx ex ez), <- (cond_Zopp_Q false my ey ez)
        by (unfold ez; lia).
      ring. }
    assert (0 <= S)%Z.
    { rewrite <- E in H. pose proof (pow2_gt_0 ez).
      rewrite Zle_Qle. change (inject_Z 0) with 0. nra. }
    destruct S as [|p|p]; try lia; cbn [binary_normalize sign_SF]; [reflexivity|].
    destruct (shl_align_spec mx ex ez ltac:(unfold ez; lia)) as [A _].
    unfold binary_round.
    destruct (shl_align p ez _) as [mz e1].
    unfold binary_round_aux.
    destruct (shr_fexp _ _ _ _ _) as [m1 e2].
    destruct (shr_fexp _ _ _ _ _) as [m2 e3].
    destruct (shr_m m2); try reflexivity.
    destruct (e3 <=? emax - prec)%Z; reflexivity.
Qed.

Theorem Z2D_sub a b :
  (0 <= b <= a)%Z -> (a <= 2 ^ 53)%Z ->
  (Z2D a - Z2D b)%float = Z2D (a - b).
Proof.
  intros Hb Ha.
  destruct (Z2D_correct a ltac:(lia)) as (Fa & Sa & Va).
  destruct (Z2D_correct b ltac:(lia)) as (Fb & Sb & Vb).
  destruct (Z2D_correct (a - b) ltac:(lia)) as (Fc & Sc & Vc).
  destruct (sub_correct (Z2D a) (Z2D b) Fa Fb) as (F & V).
  { rewrite Va, Vb. unfold Qminus. rewrite <- inject_Z_opp, <- inject_Z_plus.
    apply small_lt_huge. lia. }
  apply D_unique; try assumption.
  - rewrite Sc. replace (a - b <? 0)%Z with false by (symmetry; apply Z.ltb_ge; lia).
    unfold signD. rewrite FloatAxioms.sub_spec. apply SFsub_sign; try assumption.
    + fold (signD (Z2D a)). rewrite Sa. apply Z.ltb_ge. lia.
    + fold (signD (Z2D b)). rewrite Sb. apply Z.ltb_ge. lia.
    + fold (D2Q (Z2D a)). fold (D2Q (Z2D b)). rewrite Va, Vb.
      unfold Qminus. rewrite <- inject_Z_opp, <- inject_Z_plus.
      change 0 with (inject_Z 0). rewrite <- Zle_Qle. lia.
  - rewrite V, Vc. rewrite RN_comp with (y := inject_Z (a - b)).
    + apply RN_Z. lia.
    + rewrite Va, Vb. unfold Z.sub. rewrite inject_Z_plus, inject_Z_opp. reflexivity.
Qed.

(** ** Comparisons *)

Theorem compare_correct x y :
  finiteD x = true -> finiteD y = true ->
  SFcompare (Prim2SF x) (Prim2SF y) = Some (D2Q x ?= D2Q y).
Proof. intros. apply SFcompare_spec; auto using Prim2SF_valid. Qed.

Theorem ltb_correct x y :
  finiteD x = true -> finiteD y = true ->
  (x <? y)%float = match D2Q x ?= D2Q y with Lt => true | _ => false end.
Proof.
  intros Fx Fy. rewrite FloatAxioms.ltb_spec. unfold SFltb. rewrite compare_correct by assumption.
  reflexivity.
Qed.

Theorem leb_correct x y :
  finiteD x = true -> finiteD y = true ->
  (x <=? y)%float = match D2Q x ?= D2Q y with Gt => false | _ => true end.
Proof.
  intros Fx Fy. rewrite FloatAxioms.leb_spec. unfold SFleb. rewrite compare_correct by assumption.
  destruct (D2Q x ?= D2Q y); reflexivity.
Qed.

Theorem eqb_correct x y :
  finiteD x = true -> finiteD y = true ->
  (x =? y)%float = match D2Q x ?= D2Q y with Eq => true | _ => false end.
Proof.
  intros Fx Fy. rewrite FloatAxioms.eqb_spec. unfold SFeqb. rewrite compare_correct by assumption.
  reflexivity.
Qed.

Lemma ltb_true x y :
  finiteD x = true -> finiteD y = true -> ((x <? y)%float = true <-> D2Q x < D2Q y).
Proof.
  intros Fx Fy. rewrite ltb_correct by assumption. rewrite Qlt_alt.
  destruct (D2Q x ?= D2Q y); split; congruence.
Qed.

Lemma leb_true x y :
  finiteD x = true -> finiteD y = true -> ((x <=? y)%float = true <-> D2Q x <= D2Q y).
Proof.
  intros Fx Fy. rewrite leb_correct by assumption. rewrite Qle_alt.
  destruct (D2Q x ?= D2Q y); split; congruence.
Qed.

Lemma Qcompare_inject a b : (inject_Z a ?= inject_Z b) = (a ?= b)%Z.
Proof.
  destruct (Z.compare_spec a b) as [C|C|C].
  - subst. apply Qcompare_Eq. reflexivity.
  - apply Qcompare_Lt. rewrite <- Zlt_Qlt. assumption.
  - apply Qcompare_Gt. rewrite <- Zlt_Qlt. assumption.
Qed.

Lemma Z2D_compare a b :
  (- 2 ^ 53 <= a <= 2 ^ 53)%Z -> (- 2 ^ 53 <= b <= 2 ^ 53)%Z ->
  (D2Q (Z2D a) ?= D2Q (Z2D b)) = (a ?= b)%Z.
Proof.
  intros Ha Hb. rewrite <- Qcompare_inject.
  apply Qcompare_comp; apply Z2D_value; assumption.
Qed.

Theorem Z2D_ltb a b :
  (- 2 ^ 53 <= a <= 2 ^ 53)%Z -> (- 2 ^ 53 <= b <= 2 ^ 53)%Z ->
  (Z2D a <? Z2D b)%float = (a <? b)%Z.
Proof.
  intros Ha Hb. rewrite ltb_correct by (apply Z2D_finite; assumption).
  rewrite Z2D_compare by assumption. reflexivity.
Qed.

Theorem Z2D_leb a b :
  (- 2 ^ 53 <= a <= 2 ^ 53)%Z -> (- 2 ^ 53 <= b <= 2 ^ 53)%Z ->
  (Z2D a <=? Z2D b)%float = (a <=? b)%Z.
Proof.
  intros Ha Hb. rewrite leb_correct by (apply Z2D_finite; assumption).
  rewrite Z2D_compare by assumption. unfold Z.leb. destruct (a ?= b)%Z; reflexivity.
Qed.

Theorem Z2D_eqb a b :
  (- 2 ^ 53 <= a <= 2 ^ 53)%Z -> (- 2 ^ 53 <= b <= 2 ^ 53)%Z ->
  (Z2D a =? Z2D b)%float = (a =? b)%Z.
Proof.
  intros Ha Hb. rewrite eqb_correct by (apply Z2D_finite; assumption).
  rewrite Z2D_compare by assumption. unfold Z.eqb at 1.
  destruct (Z.compare_spec a b) as [C|C|C].
  - subst. symmetry. apply Z.eqb_refl.
  - symmetry. apply Z.eqb_neq. lia.
  - symmetry. apply Z.eqb_neq. lia.
Qed.

(** ** Truncation *)

Lemma Qfloor_mant m e :
  Qfloor (inject_Z (Zpos m) * pow2 e)
  = match e with
    | Zneg p => Z.shiftr (Zpos m) (Zpos p)
    | _ => Z.shiftl (Zpos m) e
    end.
Proof.
  destruct e as [|p|p].
  - change (pow2 0) with 1. rewrite Qmult_1_r, Qfloor_Z. reflexivity.
  - rewrite Z.shiftl_mul_pow2 by lia. rewrite inject_Z_pow2 by lia. apply Qfloor_Z.
  - rewrite Z.shiftr_div_pow2 by lia. rewrite Zdiv_Qdiv.
    apply Qfloor_comp. change (Zneg p) with (- Zpos p)%Z.
    rewrite pow2_opp, pow2_Z by lia. reflexivity.
Qed.

Theorem truncD_nonneg x :
  finiteD x = true -> 0 <= D2Q x -> truncD x = Some (Qfloor (D2Q x)).
Proof.
  unfold finiteD, D2Q, truncD.
  destruct (Prim2SF x) as [s|s| |s m e]; try discriminate; intros _ H.
  - reflexivity.
  - destruct s.
    + exfalso. cbn [SF2Q] in H. pose proof (pow2_gt_0 e).
      change (inject_Z (Zneg m)) with (- inject_Z (Zpos m)) in H.
      assert (0 < inject_Z (Zpos m)) by reflexivity. nra.
    + cbn [trunc_SF SF2Q]. rewrite Qfloor_mant. reflexivity.
Qed.

Lemma rne_below_half y N : y < inject_Z N - (1 # 2) -> (rne y <= N - 1)%Z.
Proof.
  intros H. pose proof (Qfloor_le y) as F1.
  assert (Qfloor y < N)%Z as F.
  { rewrite Zlt_Qlt. lra. }
  unfold rne. destruct (Qcompare_spec (y - inject_Z (Qfloor y)) (1 # 2)) as [C|C|C].
  - assert (Qfloor y <> N - 1)%Z; [|destruct (Z.even _); lia].
    intros E. rewrite E in C. unfold Z.sub in C. rewrite inject_Z_plus, inject_Z_opp in C.
    change (inject_Z 1) with 1 in C. lra.
  - lia.
  - assert (Qfloor y <> N - 1)%Z; [|lia].
    intros E. rewrite E in C. unfold Z.sub in C. rewrite inject_Z_plus, inject_Z_opp in C.
    change (inject_Z 1) with 1 in C. lra.
Qed.

(** The quotient of two integers, rounded to a double, has the integer part
    of the exact quotient. *)
Lemma Qfloor_RN_div a b :
  (0 < a)%Z -> (0 < b)%Z -> (a + b <= 2 ^ 53)%Z ->
  Qfloor (RNpos (inject_Z a / inject_Z b)) = (a / b)%Z.
Proof.
  intros Ha Hb Hab.
  set (X := inject_Z a / inject_Z b).
  assert (Pa : 0 < inject_Z a) by (change 0 with (inject_Z 0); rewrite <- Zlt_Qlt; lia).
  assert (Pb : 0 < inject_Z b) by (change 0 with (inject_Z 0); rewrite <- Zlt_Qlt; lia).
  assert (EX : X * inject_Z b == inject_Z a) by (unfold X; field; lra).
  assert (PX : 0 < X) by (unfold X; apply Qlt_shift_div_l; lra).
  pose proof (Z.div_mod a b ltac:(lia)) as DM.
  pose proof (Z.mod_pos_bound a b Hb) as MB.
  set (Qz := (a / b)%Z) in *.
  assert (HQz : (0 <= Qz)%Z) by (apply Z.div_pos; lia).
  assert (XL : inject_Z Qz <= X).
  { apply (Qmult_le_r _ _ (inject_Z b) Pb). rewrite EX, <- inject_Z_mult, <- Zle_Qle. nia. }
  apply Qfloor_unique.
  - rewrite <- (RN_Z Qz) by nia. rewrite RN_pos by (change 0 with (inject_Z 0); rewrite <- Zle_Qle; lia).
    apply RNpos_mono; [change 0 with (inject_Z 0); rewrite <- Zle_Qle; lia|assumption].
  - destruct (mag_spec X PX) as [ML MU].
    set (d := mag X) in *.
    assert (Hd : (-53 <= d <= 53)%Z).
    { split.
      - assert (pow2 (-53) < pow2 d); [|apply pow2_lt_inv in H; lia].
        apply Qle_lt_trans with (2 := MU).
        apply (Qmult_le_r _ _ (inject_Z b) Pb). rewrite EX.
        apply Qle_trans with (pow2 (-53) * pow2 53).
        + apply Qmult_le_l; [apply pow2_gt_0|]. rewrite pow2_Z, <- Zle_Qle by lia. lia.
        + rewrite <- pow2_add. change (pow2 (-53 + 53)) with (inject_Z 1).
          rewrite <- Zle_Qle. lia.
      - assert (pow2 (d - 1) < pow2 53); [|apply pow2_lt_inv in H; lia].
        apply Qle_lt_trans with (1 := ML).
        apply (Qmult_lt_r _ _ (inject_Z b) Pb). rewrite EX.
        apply Qlt_le_trans with (inject_Z (2 ^ 53) * 1).
        + rewrite Qmult_1_r, <- Zlt_Qlt. lia.
        + rewrite pow2_Z by lia. apply Qmult_le_l; [reflexivity|].
          change 1 with (inject_Z 1). rewrite <- Zle_Qle. lia. }
    unfold RNpos. fold d. rewrite fexp_eq.
    replace (Z.max (d - 53) (-1074)) with (d - 53)%Z by lia.
    set (k := (53 - d)%Z). replace (- (d - 53))%Z with k by (unfold k; lia).
    assert (Hk : (0 <= k)%Z) by (unfold k; lia).
    (* b < 2^(k+1) *)
    assert (Hb2 : (b < 2 ^ (k + 1))%Z).
    { assert (inject_Z b * pow2 (d - 1) < pow2 53).
      { apply Qle_lt_trans with (inject_Z b * X).
        - apply Qmult_le_l; assumption.
        - rewrite Qmult_comm, EX, pow2_Z, <- Zlt_Qlt by lia. lia. }
      assert (inject_Z b < pow2 (k + 1)).
      { apply (Qmult_lt_r _ _ (pow2 (d - 1)) (pow2_gt_0 _)).
        rewrite <- pow2_add. replace (k + 1 + (d - 1))%Z with 53%Z by (unfold k; lia).
        assumption. }
      rewrite pow2_Z in H0 by lia. rewrite <- Zlt_Qlt in H0. assumption. }
    set (N := ((Qz + 1) * 2 ^ k)%Z).
    assert (R : (rne (X * pow2 k) <= N - 1)%Z).
    { apply rne_below_half.
      apply (Qmult_lt_r _ _ (2 * inject_Z b)); [lra|].
      assert (X * pow2 k * (2 * inject_Z b) == inject_Z (2 * a * 2 ^ k)) as ->.
      { rewrite !inject_Z_mult, <- pow2_Z, <- EX by lia. change (inject_Z 2) with 2. ring. }
      assert ((inject_Z N - (1 # 2)) * (2 * inject_Z b) == inject_Z (2 * N * b - b)) as ->.
      { unfold Z.sub. rewrite inject_Z_plus, inject_Z_opp, !inject_Z_mult.
        change (inject_Z 2) with 2. ring. }
      rewrite <- Zlt_Qlt. unfold N.
      assert (0 < 2 ^ k)%Z by (apply Z.pow_pos_nonneg; lia).
      rewrite Z.pow_add_r, Z.pow_1_r in Hb2 by lia.
      assert (1 <= (Qz + 1) * b - a)%Z by nia. nia. }
    rewrite Zle_Qle in R.
    apply Qle_lt_trans with (inject_Z (N - 1) * pow2 (d - 53)).
    + apply Qmult_le_compat_r; [assumption|apply Qlt_le_weak, pow2_gt_0].
    + unfold N, Z.sub. rewrite inject_Z_plus, inject_Z_opp, inject_Z_mult, inject_Z_plus.
      rewrite <- pow2_Z by lia. change (inject_Z 1) with 1.
      assert (pow2 k * pow2 (d + -53) == 1).
      { rewrite <- pow2_add. replace (k + (d + -53))%Z with 0%Z by (unfold k; lia). reflexivity. }
      pose proof (pow2_gt_0 (d + -53)).
      assert (((inject_Z Qz + 1) * pow2 k + - (1)) * pow2 (d + -53)
              == (inject_Z Qz + 1) * (pow2 k * pow2 (d + -53)) - pow2 (d + -53)) as -> by ring.
      rewrite H. lra.
Qed.

Theorem Z2D_div_trunc a b :
  (0 <= a)%Z -> (0 < b)%Z -> (a + b <= 2 ^ 53)%Z ->
  truncD (Z2D a / Z2D b) = Some (a / b)%Z.
Proof.
  intros Ha Hb Hab.
  destruct (Z2D_correct a ltac:(lia)) as (Fa & Sa & Va).
  destruct (Z2D_correct b ltac:(lia)) as (Fb & Sb & Vb).
  assert (Pb : 0 < inject_Z b) by (change 0 with (inject_Z 0); rewrite <- Zlt_Qlt; lia).
  assert (Pa : 0 <= inject_Z a) by (change 0 with (inject_Z 0); rewrite <- Zle_Qle; lia).
  assert (X0 : 0 <= inject_Z a / inject_Z b).
  { apply Qle_shift_div_l; lra. }
  assert (XU : inject_Z a / inject_Z b <= pow2 53).
  { apply Qle_shift_div_r; [assumption|].
    apply Qle_trans with (pow2 53 * 1).
    - rewrite Qmult_1_r, pow2_Z, <- Zle_Qle by lia. lia.
    - apply Qmult_le_l; [apply pow2_gt_0|]. change 1 with (inject_Z 1).
      rewrite <- Zle_Qle. lia. }
  destruct (div_correct (Z2D a) (Z2D b) Fa Fb) as (F & S & V).
  - rewrite Vb. lra.
  - destruct (Z.eq_dec a 0) as [->|Na]; [left; rewrite Va; reflexivity|right].
    rewrite Va, Vb. rewrite Qabs_pos by assumption.
    apply Qle_shift_div_l; [assumption|].
    apply Qle_trans with (pow2 (-1022) * pow2 53).
    + apply Qmult_le_l; [apply pow2_gt_0|]. rewrite pow2_Z, <- Zle_Qle by lia. lia.
    + rewrite <- pow2_add. change (pow2 (-1022 + 53)) with (pow2 (-969)).
      apply Qle_trans with 1; [apply Qlt_le_weak; reflexivity|].
      change 1 with (inject_Z 1). rewrite <- Zle_Qle. lia.
  - rewrite Va, Vb. rewrite Qabs_pos by assumption.
    apply Qle_lt_trans with (1 := XU). apply pow2_lt. lia.
  - assert (V' : D2Q (Z2D a / Z2D b) == RNpos (inject_Z a / inject_Z b)).
    { rewrite V. rewrite RN_comp with (y := inject_Z a / inject_Z b) by (rewrite Va, Vb; reflexivity).
      rewrite RN_pos by assumption. reflexivity. }
    rewrite truncD_nonneg.
    + f_equal. rewrite (Qfloor_comp _ _ V').
      destruct (Z.eq_dec a 0) as [->|Na].
      * rewrite (Qfloor_comp _ (inject_Z 0)); [rewrite Qfloor_Z; reflexivity|].
        rewrite (RNpos_comp _ 0); [reflexivity|assumption|]. unfold Qdiv. ring.
      * apply Qfloor_RN_div; lia.
    + assumption.
    + rewrite V'. apply RNpos_nonneg. assumption.
Qed.
(** ** Fractional parts, powers of 16 *)

Lemma valid_prim_finite x s m e :
  Prim2SF x = S754_finite s m e ->
  (Zpos m < 2 ^ 53 /\ -1074 <= e <= 971)%Z.
Proof.
  intros H. pose proof (Prim2SF_valid x) as V. rewrite H in V.
  destruct (valid_finite _ _ _ V) as (D & E & _).
  split; [apply valid_mant_lt; assumption|assumption].
Qed.

Lemma trunc_SF_abs s m e a :
  a = Qfloor (inject_Z (Zpos m) * pow2 e) ->
  trunc_SF (S754_finite s m e) = Some (if s then (- a)%Z else a).
Proof. intros ->. cbn [trunc_SF]. rewrite Qfloor_mant. reflexivity. Qed.

(** The part of a mantissa below the binary point. *)
Lemma frac_mant m e :
  (e < 0)%Z ->
  inject_Z (Zpos m) * pow2 e - inject_Z (Qfloor (inject_Z (Zpos m) * pow2 e))
  == inject_Z (Zpos m mod 2 ^ (- e)) * pow2 e.
Proof.
  intros He. rewrite Qfloor_mant. destruct e as [|p|p]; try lia.
  rewrite Z.shiftr_div_pow2 by lia.
  change (- Zneg p)%Z with (Zpos p).
  pose proof (Z.div_mod (Zpos m) (2 ^ Zpos p) ltac:(apply Z.pow_nonzero; lia)) as DM.
  assert (inject_Z (Zpos m) == inject_Z (2 ^ Zpos p) * inject_Z (Zpos m / 2 ^ Zpos p)
                               + inject_Z (Zpos m mod 2 ^ Zpos p)) as E.
  { rewrite <- inject_Z_mult, <- inject_Z_plus, <- DM. reflexivity. }
  rewrite E at 1. rewrite <- pow2_Z by lia.
  assert (pow2 (Zpos p) * pow2 (Zneg p) == 1) as I.
  { rewrite <- pow2_add. replace (Zpos p + Zneg p)%Z with 0%Z by lia. reflexivity. }
  assert ((pow2 (Zpos p) * inject_Z (Zpos m / 2 ^ Zpos p)
           + inject_Z (Zpos m mod 2 ^ Zpos p)) * pow2 (Zneg p)
          - inject_Z (Zpos m / 2 ^ Zpos p)
          == (pow2 (Zpos p) * pow2 (Zneg p)) * inject_Z (Zpos m / 2 ^ Zpos p)
             - inject_Z (Zpos m / 2 ^ Zpos p)
             + inject_Z (Zpos m mod 2 ^ Zpos p) * pow2 (Zneg p)) as -> by ring.
  rewrite I. ring.
Qed.

Lemma frac_mant_int m e :
  (0 <= e)%Z ->
  inject_Z (Zpos m) * pow2 e - inject_Z (Qfloor (inject_Z (Zpos m) * pow2 e)) == 0.
Proof.
  intros He.
  assert (E : inject_Z (Zpos m) * pow2 e == inject_Z (Zpos m * 2 ^ e))
    by (apply inject_Z_pow2; assumption).
  rewrite (Qfloor_comp _ _ E), Qfloor_Z, E. ring.
Qed.

(** Subtracting its integer part from a double is exact. *)
Theorem sub_trunc_exact x z :
  finiteD x = true -> truncD x = Some z -> (- 2 ^ 53 <= z <= 2 ^ 53)%Z ->
  finiteD (x - Z2D z) = true
  /\ D2Q (x - Z2D z) == D2Q x - inject_Z z
  /\ (0 <= D2Q x -> z = Qfloor (D2Q x) /\ 0 <= D2Q x - inject_Z z < 1)
  /\ (D2Q x <= 0 -> -1 < D2Q x - inject_Z z <= 0).
Proof.
  intros Fx Tz Hz.
  destruct (Z2D_correct z Hz) as (Fz & _ & Vz).
  assert (Ex : exists M e, (- 2 ^ 53 < M < 2 ^ 53)%Z /\ (-1074 <= e)%Z
             /\ D2Q x - inject_Z z == inject_Z M * pow2 e
             /\ (0 <= D2Q x -> z = Qfloor (D2Q x) /\ 0 <= D2Q x - inject_Z z < 1)
             /\ (D2Q x <= 0 -> -1 < D2Q x - inject_Z z <= 0)).
  { unfold truncD, finiteD, D2Q in *.
    destruct (Prim2SF x) as [s|s| |s m e] eqn:Px; try discriminate.
    - cbn [trunc_SF] in Tz. injection Tz as <-. exists 0%Z, 0%Z.
      cbn [SF2Q]. change (inject_Z 0) with 0.
      repeat split; try lia; try lra; try reflexivity.
    - destruct (valid_prim_finite _ _ _ _ Px) as [Hm He].
      set (v := inject_Z (Zpos m) * pow2 e).
      remember (Qfloor v) as a eqn:Ha.
      rewrite (trunc_SF_abs s m e a Ha) in Tz.
      assert (Ez : z = if s then (- a)%Z else a) by congruence.
      clear Tz.
      assert (Pv : 0 < v).
      { unfold v. apply Qmult_lt_0_compat; [reflexivity|apply pow2_gt_0]. }
      pose proof (Qfloor_le v) as FL. pose proof (Qlt_floor v) as FU.
      rewrite inject_Z_plus in FU. change (inject_Z 1) with 1 in FU.
      rewrite <- Ha in FL, FU.
      assert (Hfr : exists M, (0 <= M < 2 ^ 53)%Z
                 /\ v - inject_Z a == inject_Z M * pow2 e).
      { rewrite Ha. destruct (Z_lt_le_dec e 0) as [N|N].
        - exists (Zpos m mod 2 ^ (- e))%Z. split.
          + pose proof (Z.mod_pos_bound (Zpos m) (2 ^ (- e))
                          ltac:(apply Z.pow_pos_nonneg; lia)).
            pose proof (Z.mod_le (Zpos m) (2 ^ (- e)) ltac:(lia)
                          ltac:(apply Z.pow_pos_nonneg; lia)). lia.
          + apply frac_mant. assumption.
        - exists 0%Z. split; [lia|]. unfold v. rewrite frac_mant_int by assumption.
          change (inject_Z 0) with 0. ring. }
      destruct Hfr as (M & HM & EM).
      assert (SV : SF2Q (S754_finite s m e) == (if s then -1 else 1) * v).
      { unfold v. apply SF2Q_sign. }
      destruct s; subst z.
      + exists (- M)%Z, e. split; [lia|split; [lia|]].
        rewrite SV, !inject_Z_opp. split; [|split].
        * assert (- inject_Z M * pow2 e == - (inject_Z M * pow2 e)) as -> by ring.
          rewrite <- EM. ring.
        * intros. lra.
        * intros. lra.
      + exists M, e. split; [lia|split; [lia|]].
        rewrite SV. split; [|split].
        * rewrite <- EM. ring.
        * intros. split; [|lra]. rewrite Ha. apply Qfloor_comp. ring.
        * intros. lra. }
  destruct Ex as (M & e & HM & He & EM & P1 & P2).
  destruct (sub_correct x (Z2D z) Fx Fz) as (F & V).
  - rewrite Vz.
    apply Qle_lt_trans with (pow2 0); [|apply pow2_lt; lia].
    change (pow2 0) with 1. apply Qabs_Qle_condition.
    destruct (Qlt_le_dec (D2Q x) 0) as [N|N].
    + specialize (P2 ltac:(lra)). lra.
    + specialize (P1 N). lra.
  - split; [exact F|split; [|split; assumption]].
    rewrite V, Vz, EM. apply RN_exact; assumption.
Qed.

Lemma sub_self_zero v :
  finiteD v = true -> Qabs (D2Q v) < pow2 1023 ->
  finiteD (v - v) = true /\ D2Q (v - v) == 0.
Proof.
  intros F B. destruct (sub_correct v v F F) as (F' & V).
  - assert (D2Q v - D2Q v == 0) as -> by ring. reflexivity.
  - split; [exact F'|]. rewrite V. rewrite RN_comp with (y := 0) by ring. reflexivity.
Qed.

Lemma finite_abs_bound v :
  finiteD v = true -> Qabs (D2Q v) < pow2 1024.
Proof.
  unfold finiteD, D2Q. destruct (Prim2SF v) as [s|s| |s m e] eqn:Pv; try discriminate; intros _.
  - reflexivity.
  - destruct (valid_prim_finite _ _ _ _ Pv) as [Hm He].
    rewrite Qabs_SF2Q.
    apply Qlt_le_trans with (pow2 53 * pow2 e).
    + apply Qmult_lt_r; [apply pow2_gt_0|]. rewrite pow2_Z, <- Zlt_Qlt by lia. assumption.
    + rewrite <- pow2_add. apply pow2_le. lia.
Qed.

(** [v - std::floor(v)] for a non-negative double. *)
Theorem floor_sub_exact v :
  finiteD v = true -> 0 <= D2Q v -> D2Q v <= pow2 53 ->
  finiteD (v - floor v) = true
  /\ D2Q (v - floor v) == D2Q v - inject_Z (Qfloor (D2Q v)).
Proof.
  intros F P B.
  assert (Self : (exists z, D2Q v == inject_Z z) ->
                 finiteD (v - v) = true
                 /\ D2Q (v - v) == D2Q v - inject_Z (Qfloor (D2Q v))).
  { intros [z Ez]. destruct (sub_self_zero v F) as (F' & V').
    - rewrite Qabs_pos by assumption. apply Qle_lt_trans with (1 := B).
      apply pow2_lt. lia.
    - split; [exact F'|]. rewrite V', (Qfloor_comp _ _ Ez), Qfloor_Z, Ez. ring. }
  unfold floor.
  destruct (Prim2SF v) as [s|s| |s m e] eqn:Pv;
    try (unfold finiteD in F; rewrite Pv in F; discriminate).
  - cbn [floor_SF]. apply Self. exists 0%Z. unfold D2Q. rewrite Pv. reflexivity.
  - assert (Hs : s = false).
    { destruct s; [|reflexivity]. exfalso. unfold D2Q in P. rewrite Pv in P.
      rewrite SF2Q_sign in P. pose proof (pow2_gt_0 e).
      assert (0 < inject_Z (Zpos m)) by reflexivity. nra. }
    subst s. destruct e as [|p|p].
    + cbn [floor_SF]. apply Self. exists (Zpos m). unfold D2Q. rewrite Pv.
      cbn [SF2Q]. change (pow2 0) with 1. ring.
    + cbn [floor_SF]. apply Self. exists (Zpos m * 2 ^ Zpos p)%Z. unfold D2Q. rewrite Pv.
      cbn [SF2Q]. apply inject_Z_pow2. lia.
    + cbn [floor_SF].
      assert (T : truncD v = Some (Z.shiftr (Zpos m) (Zpos p))).
      { unfold truncD. rewrite Pv. reflexivity. }
      assert (Hz : (- 2 ^ 53 <= Z.shiftr (Zpos m) (Zpos p) <= 2 ^ 53)%Z).
      { destruct (valid_prim_finite _ _ _ _ Pv) as [Hm _].
        rewrite Z.shiftr_div_pow2 by lia.
        pose proof (Z.div_pos (Zpos m) (2 ^ Zpos p) ltac:(lia)
                      ltac:(apply Z.pow_pos_nonneg; lia)).
        pose proof (Z.div_le_upper_bound (Zpos m) (2 ^ Zpos p) (Zpos m)
                      ltac:(apply Z.pow_pos_nonneg; lia)).
        assert (0 < 2 ^ Zpos p)%Z by (apply Z.pow_pos_nonneg; lia).
        assert (Zpos m <= 2 ^ Zpos p * Zpos m)%Z by nia. lia. }
      destruct (sub_trunc_exact v _ F T Hz) as (F' & V' & P1 & _).
      destruct (P1 P) as [Ez _].
      split; [exact F'|]. rewrite V', Ez. reflexivity.
Qed.

Lemma Qfloor_frac_bounds q : 0 <= q - inject_Z (Qfloor q) /\ q - inject_Z (Qfloor q) < 1.
Proof.
  pose proof (Qfloor_le q). pose proof (Qlt_floor q).
  rewrite inject_Z_plus in H0. change (inject_Z 1) with 1 in H0. lra.
Qed.

(** ** Powers of 16 *)

Lemma Prim2SF_one : Prim2SF 1 = S754_finite false 4503599627370496 (-52).
Proof. reflexivity. Qed.

Theorem pow16_correct i :
  (-255 <= i <= 255)%Z ->
  finiteD (pow16 i) = true /\ signD (pow16 i) = false /\ D2Q (pow16 i) == pow2 (4 * i).
Proof.
  intros H. unfold finiteD, signD, D2Q, pow16.
  rewrite Z_ldexp_spec, Prim2SF_one. cbn [SFldexp].
  destruct (binary_round_spec false 4503599627370496 (-52 + 4 * i)) as (F & S & V).
  - change (Zpos (digits2_pos 4503599627370496)) with 53%Z. unfold emax. lia.
  - split; [exact F|split; [exact S|]]. rewrite V.
    rewrite RNpos_exact by lia.
    rewrite pow2_add. change (inject_Z 4503599627370496) with (pow2 52).
    change (pow2 (-52)) with (/ pow2 52). field. discriminate.
Qed.
(** * The program *)

Local Open Scope Z_scope.

(** ** The monad *)

Lemma bind_Ok {A B} (c : M A) (f : A -> M B) st a st' :
  c st = Ok (a, st') -> bind c f st = f a st'.
Proof. intros H. unfold bind. rewrite H. reflexivity. Qed.

Lemma bind_Undefined {A B} (c : M A) (f : A -> M B) st u :
  c st = Undefined u -> bind c f st = Undefined u.
Proof. intros H. unfold bind. rewrite H. reflexivity. Qed.

Lemma bind_OutOfFuel {A B} (c : M A) (f : A -> M B) st :
  c st = OutOfFuel -> bind c f st = OutOfFuel.
Proof. intros H. unfold bind. rewrite H. reflexivity. Qed.

Lemma bind_ret {A B} (a : A) (f : A -> M B) st : bind (ret a) f st = f a st.
Proof. reflexivity. Qed.

Lemma int_Ok z st : INT_MIN <= z <= INT_MAX -> int z st = Ok (z, st).
Proof.
  intros H. unfold int, in_int.
  destruct (Z.leb_spec INT_MIN z); [|lia]. destruct (Z.leb_spec z INT_MAX); [|lia].
  reflexivity.
Qed.

Lemma int_overflow z st : INT_MAX < z -> int z st = Undefined SignedOverflow.
Proof.
  intros H. unfold int, in_int.
  destruct (Z.leb_spec z INT_MAX); [lia|]. rewrite andb_false_r. reflexivity.
Qed.

Lemma int_range : INT_MIN = -2147483648 /\ INT_MAX = 2147483647.
Proof. split; reflexivity. Qed.

(** ** The table *)

Lemma powers_length h : length (powers h) = S h.
Proof. unfold powers. rewrite length_map, length_seq. reflexivity. Qed.

Lemma table_length N h : (h < N)%nat -> length (table N h) = N.
Proof.
  intros H. unfold table. rewrite length_app, powers_length, repeat_length. lia.
Qed.

Lemma nth_powers h i : (i <= h)%nat -> nth i (powers h) 0 = 2 ^ Z.of_nat i.
Proof.
  intros H. unfold powers.
  set (f := fun i : nat => 2 ^ Z.of_nat i).
  rewrite (nth_indep _ 0 (f 0%nat)) by (rewrite length_map, length_seq; lia).
  rewrite map_nth, seq_nth by lia. reflexivity.
Qed.

Lemma nth_table_low N h i : (i <= h)%nat -> nth i (table N h) 0 = 2 ^ Z.of_nat i.
Proof.
  intros H. unfold table. rewrite app_nth1 by (rewrite powers_length; lia).
  apply nth_powers. assumption.
Qed.

Lemma nth_table_high N h i : (h < i)%nat -> nth i (table N h) 0 = 0.
Proof.
  intros H. unfold table. rewrite app_nth2 by (rewrite powers_length; lia).
  destruct (Nat.lt_ge_cases (i - length (powers h)) (N - S h)) as [L|L].
  - apply nth_repeat_lt. assumption.
  - apply nth_overflow. rewrite repeat_length. assumption.
Qed.

Lemma update_app_r l1 : forall l2 i v,
  update (l1 ++ l2) (length l1 + i) v = l1 ++ update l2 i v.
Proof.
  induction l1 as [|x l1 IH]; intros; simpl; [reflexivity|].
  rewrite IH. reflexivity.
Qed.

Lemma powers_S h : powers (S h) = powers h ++ [2 ^ Z.of_nat (S h)].
Proof.
  unfold powers. rewrite (seq_S (S h) 0), map_app. reflexivity.
Qed.

Lemma update_table N h :
  (S h < N)%nat ->
  update (table N h) (S h) (2 ^ Z.of_nat (S h)) = table N (S h).
Proof.
  intros H. unfold table.
  set (v := 2 ^ Z.of_nat (S h)).
  assert (E : update (powers h ++ repeat 0 (N - S h)) (S h) v
              = powers h ++ update (repeat 0 (N - S h)) 0 v).
  { rewrite <- (update_app_r (powers h) _ 0 v), powers_length. f_equal. lia. }
  rewrite E.
  replace (N - S h)%nat with (S (N - S (S h))) by lia.
  simpl repeat. simpl update. rewrite powers_S, <- app_assoc. reflexivity.
Qed.

Lemma load_low st N h i :
  pwrtbl st = table N h -> (h < N)%nat -> 0 <= i <= Z.of_nat h ->
  load i st = Ok (2 ^ i, st).
Proof.
  intros T HN Hi. unfold load. rewrite T, table_length by assumption.
  destruct (Z.leb_spec 0 i); [|lia]. destruct (Z.ltb_spec i (Z.of_nat N)); [|lia].
  cbn [andb]. rewrite nth_table_low by lia. rewrite Z2Nat.id by lia. reflexivity.
Qed.

Lemma load_high st N h i :
  pwrtbl st = table N h -> (h < N)%nat -> Z.of_nat h < i < Z.of_nat N ->
  load i st = Ok (0, st).
Proof.
  intros T HN Hi. unfold load. rewrite T, table_length by assumption.
  destruct (Z.leb_spec 0 i); [|lia]. destruct (Z.ltb_spec i (Z.of_nat N)); [|lia].
  cbn [andb]. rewrite nth_table_high by lia. reflexivity.
Qed.

Lemma load_oob st N h i :
  pwrtbl st = table N h -> (h < N)%nat -> i < 0 \/ Z.of_nat N <= i ->
  load i st = Undefined (OutOfBoundsRead i).
Proof.
  intros T HN Hi. unfold load. rewrite T, table_length by assumption.
  destruct (Z.leb_spec 0 i); destruct (Z.ltb_spec i (Z.of_nat N)); try lia; reflexivity.
Qed.

Lemma store_building N h :
  (S h < N)%nat ->
  store (Z.of_nat (S h)) (2 ^ Z.of_nat (S h)) (building N h)
  = Ok (tt, {| init := false; pwrtbl := table N (S h);
               highestpwrtblpwr := Z.of_nat h |}).
Proof.
  intros H. unfold store, building. cbn [pwrtbl init highestpwrtblpwr].
  rewrite table_length by lia.
  destruct (Z.leb_spec 0 (Z.of_nat (S h))); [|lia].
  destruct (Z.ltb_spec (Z.of_nat (S h)) (Z.of_nat N)); [|lia].
  cbn [andb]. rewrite Nat2Z.id, update_table by assumption. reflexivity.
Qed.

Lemma pow2_le_2_30 i : 0 <= i <= 30 -> 1 <= 2 ^ i <= 2 ^ 30.
Proof.
  intros H. split.
  - apply (Z.pow_le_mono_r 2 0 i); lia.
  - apply Z.pow_le_mono_r; lia.
Qed.

Lemma log2_up_lt n i : 0 <= i < Z.log2_up n -> 2 ^ i < n.
Proof.
  intros H. destruct (Z_lt_le_dec 1 n) as [G|G].
  - pose proof (Z.log2_up_spec n G) as [L _].
    apply Z.le_lt_trans with (2 := L). apply Z.pow_le_mono_r; lia.
  - rewrite Z.log2_up_eqn0 in H by lia. lia.
Qed.

Lemma log2_up_ge n : 1 <= n -> n <= 2 ^ Z.log2_up n.
Proof.
  intros H. destruct (Z.eq_dec n 1) as [->|N]; [simpl; lia|].
  apply Z.log2_up_spec. lia.
Qed.

Lemma log2_up_le_30 n : n <= 2 ^ 30 -> 0 <= Z.log2_up n <= 30.
Proof.
  intros H. split; [apply Z.log2_up_nonneg|].
  destruct (Z_lt_le_dec 0 n) as [P|P].
  - apply Z.log2_up_le_pow2; lia.
  - rewrite Z.log2_up_nonpos by lia. lia.
Qed.

Lemma Z2D_pow_ltb i n :
  0 <= i <= 30 -> - 2 ^ 53 <= n <= 2 ^ 53 ->
  (Z2D (2 ^ i) <? Z2D n)%float = (2 ^ i <? n).
Proof.
  intros Hi Hn. apply Z2D_ltb; [|assumption].
  pose proof (pow2_le_2_30 i Hi). lia.
Qed.

(** The inner loop of the initialisation doubles up to the first power of
    two that is not below [n]. *)
Lemma grow_table_spec N n :
  n <= 2 ^ 30 -> - 2 ^ 53 <= n ->
  let H := Z.to_nat (Z.log2_up n) in
  (H < N)%nat ->
  forall fuel h, (h <= H)%nat -> (H - h < fuel)%nat ->
  grow_table fuel (Z2D n) (building N h) = Ok (tt, building N H).
Proof.
  intros Hn Hn' H HN.
  pose proof (log2_up_le_30 n Hn) as HL.
  assert (HH : Z.of_nat H = Z.log2_up n) by (unfold H; lia).
  induction fuel as [|fuel IH]; intros h Hh Hf; [lia|].
  cbn [grow_table].
  rewrite (bind_Ok get_highest _ _ (Z.of_nat h) (building N h)) by reflexivity.
  rewrite (bind_Ok (load (Z.of_nat h)) _ _ (2 ^ Z.of_nat h) (building N h))
    by (apply (load_low _ N h); [reflexivity|lia|lia]).
  rewrite Z2D_pow_ltb by lia.
  destruct (Z.ltb_spec (2 ^ Z.of_nat h) n) as [C|C].
  - assert (h < H)%nat.
    { destruct (Nat.eq_dec h H) as [->|]; [|lia].
      rewrite HH in C. destruct (Z_lt_le_dec n 1).
      - rewrite Z.log2_up_eqn0 in C by lia. simpl in C. lia.
      - pose proof (log2_up_ge n ltac:(lia)). lia. }
    rewrite (bind_Ok (load (Z.of_nat h)) _ _ (2 ^ Z.of_nat h) (building N h))
      by (apply (load_low _ N h); [reflexivity|lia|lia]).
    assert (E2 : 2 ^ Z.of_nat h * 2 = 2 ^ Z.of_nat (S h)).
    { rewrite Nat2Z.inj_succ, Z.pow_succ_r by lia. lia. }
    pose proof (pow2_le_2_30 (Z.of_nat (S h)) ltac:(lia)) as B.
    rewrite (bind_Ok (int _) _ _ _ _
               (int_Ok (2 ^ Z.of_nat h * 2) _ ltac:(rewrite E2; unfold INT_MIN, INT_MAX; lia))).
    rewrite (bind_Ok (int _) _ _ _ _
               (int_Ok (Z.of_nat h + 1) _ ltac:(unfold INT_MIN, INT_MAX; lia))).
    rewrite E2. replace (Z.of_nat h + 1) with (Z.of_nat (S h)) by lia.
    rewrite (bind_Ok _ _ _ _ _ (store_building N h ltac:(lia))).
    rewrite (bind_Ok (int _) _ _ _ _
               (int_Ok (Z.of_nat (S h)) _ ltac:(unfold INT_MIN, INT_MAX; lia))).
    unfold set_highest at 1. rewrite bind_Ok with (a := tt)
      (st' := building N (S h)) by reflexivity.
    apply IH; lia.
  - assert (h = H).
    { destruct (Nat.eq_dec h H) as [|N']; [assumption|].
      pose proof (log2_up_lt n (Z.of_nat h) ltac:(lia)). lia. }
    subst h. reflexivity.
Qed.

Lemma store_fresh N :
  (0 < N)%nat -> store 0 1 (fresh N) = Ok (tt, building N 0).
Proof.
  intros H. unfold store, fresh. cbn [pwrtbl init highestpwrtblpwr].
  rewrite repeat_length.
  destruct (Z.ltb_spec 0 (Z.of_nat N)); [|lia]. cbn [Z.leb andb Z.compare].
  unfold building, table. f_equal. f_equal. f_equal.
  destruct N; [lia|]. simpl. rewrite Nat.sub_0_r. reflexivity.
Qed.

Theorem init_table_fresh N n :
  n <= 2 ^ 30 -> - 2 ^ 53 <= n -> (Z.to_nat (Z.log2_up n) < N)%nat ->
  init_table (Z2D n) (fresh N) = Ok (tt, built N (Z.to_nat (Z.log2_up n))).
Proof.
  intros Hn Hn' HN. unfold init_table.
  rewrite (bind_Ok get_init _ _ false (fresh N)) by reflexivity.
  rewrite (bind_Ok _ _ _ _ _ (store_fresh N ltac:(lia))).
  rewrite (bind_Ok table_size _ _ N (building N 0))
    by (unfold table_size, building; cbn [pwrtbl]; rewrite table_length by lia; reflexivity).
  rewrite (bind_Ok _ _ _ _ _ (grow_table_spec N n Hn Hn' HN (S N) 0%nat ltac:(lia) ltac:(lia))).
  reflexivity.
Qed.

Lemma init_table_built N h n : init_table n (built N h) = Ok (tt, built N h).
Proof. reflexivity. Qed.

(** ** The scan for the highest bit *)

Lemma scan_table_spec st N h n :
  pwrtbl st = table N h -> (h < N)%nat -> (h <= 30)%nat ->
  1 <= n <= 2 ^ Z.of_nat h ->
  forall fuel i, 0 <= i <= Z.log2_up n -> (Z.to_nat (Z.log2_up n - i) < fuel)%nat ->
  scan_table fuel (Z2D n) i st = Ok (Z.log2_up n, st).
Proof.
  intros T HN H30 Hn.
  assert (HB : Z.log2_up n <= Z.of_nat h).
  { apply Z.log2_up_le_pow2; lia. }
  assert (Hn53 : - 2 ^ 53 <= n <= 2 ^ 53).
  { pose proof (pow2_le_2_30 (Z.of_nat h) ltac:(lia)). lia. }
  induction fuel as [|fuel IH]; intros i Hi Hf; [lia|].
  cbn [scan_table].
  rewrite (bind_Ok (load i) _ _ (2 ^ i) st) by (apply (load_low _ N h); [assumption|lia|lia]).
  rewrite Z2D_pow_ltb by lia.
  destruct (Z.ltb_spec (2 ^ i) n) as [C|C].
  - assert (i < Z.log2_up n).
    { destruct (Z.eq_dec i (Z.log2_up n)) as [->|]; [|lia].
      pose proof (log2_up_ge n ltac:(lia)). lia. }
    rewrite (bind_Ok (int _) _ _ _ _
               (int_Ok (i + 1) _ ltac:(unfold INT_MIN, INT_MAX; lia))).
    apply IH; lia.
  - assert (i = Z.log2_up n).
    { destruct (Z.eq_dec i (Z.log2_up n)) as [|N']; [assumption|].
      pose proof (log2_up_lt n i ltac:(lia)). lia. }
    subst i. reflexivity.
Qed.

(** Past the table's reach the scan runs off the end of the array. *)
Lemma scan_table_oob st N h n :
  pwrtbl st = table N h -> (h < N)%nat -> (h <= 30)%nat -> (N <= 64)%nat ->
  2 ^ Z.of_nat h < n <= 2 ^ 53 ->
  forall fuel i, 0 <= i <= Z.of_nat N -> (N - Z.to_nat i < fuel)%nat ->
  scan_table fuel (Z2D n) i st = Undefined (OutOfBoundsRead (Z.of_nat N)).
Proof.
  intros T HN H30 N64 Hn.
  pose proof (pow2_le_2_30 (Z.of_nat h) ltac:(lia)) as Bh.
  induction fuel as [|fuel IH]; intros i Hi Hf; [lia|].
  cbn [scan_table].
  destruct (Z.eq_dec i (Z.of_nat N)) as [->|Ni].
  - rewrite (bind_Undefined (load _) _ _ _ (load_oob st N h (Z.of_nat N) T HN ltac:(lia))).
    reflexivity.
  - assert (exists x, load i st = Ok (x, st) /\ 0 <= x <= 2 ^ 30 /\ x < n) as (x & Lx & Bx & Cx).
    { destruct (Z_le_gt_dec i (Z.of_nat h)).
      - exists (2 ^ i). split; [apply (load_low _ N h); [assumption|lia|lia]|].
        pose proof (pow2_le_2_30 i ltac:(lia)).
        assert (2 ^ i <= 2 ^ Z.of_nat h) by (apply Z.pow_le_mono_r; lia). lia.
      - exists 0. split; [apply (load_high _ N h); [assumption|lia|lia]|]. lia. }
    rewrite (bind_Ok _ _ _ _ _ Lx).
    rewrite Z2D_ltb by lia.
    destruct (Z.ltb_spec x n); [|lia].
    rewrite (bind_Ok (int _) _ _ _ _
               (int_Ok (i + 1) _ ltac:(unfold INT_MIN, INT_MAX; lia))).
    apply IH; lia.
Qed.

(** ** One reduction modulo k *)

Lemma static_cast_int_Ok x z st :
  truncD x = Some z -> INT_MIN <= z <= INT_MAX -> static_cast_int x st = Ok (z, st).
Proof.
  intros T H. unfold static_cast_int. rewrite T. unfold in_int.
  destruct (Z.leb_spec INT_MIN z); [|lia]. destruct (Z.leb_spec z INT_MAX); [|lia].
  reflexivity.
Qed.

Theorem mod_step_spec a K st :
  0 <= a -> 0 < K -> a + K <= 2 ^ 53 -> a / K <= INT_MAX ->
  mod_step (Z2D a) (Z2D K) st = Ok (Z2D (a mod K), st).
Proof.
  intros Ha HK Hs Hq. unfold mod_step.
  assert (0 <= a / K) by (apply Z.div_pos; lia).
  rewrite (bind_Ok _ _ _ _ _
             (static_cast_int_Ok _ (a / K) st (Z2D_div_trunc a K Ha HK Hs)
                ltac:(unfold INT_MIN; lia))).
  unfold ret.
  pose proof (Z.mul_div_le a K HK).
  rewrite Z2D_mul by nia.
  rewrite Z2D_sub by nia.
  rewrite Z.mod_eq by lia. do 3 f_equal. lia.
Qed.

(** ** The exponentiation loop, on integers *)

Lemma pow16_step_mul K e :
  0 < K -> 0 <= e -> (16 ^ e mod K * 16) mod K = 16 ^ (e + 1) mod K.
Proof.
  intros HK He. rewrite Z.mul_mod_idemp_l by lia.
  rewrite Z.pow_add_r by lia. reflexivity.
Qed.

Lemma pow16_step_sq K e :
  0 < K -> 0 <= e -> (16 ^ e mod K * (16 ^ e mod K)) mod K = 16 ^ (2 * e) mod K.
Proof.
  intros HK He. rewrite <- Z.mul_mod by lia.
  replace (2 * e) with (e + e) by lia. rewrite Z.pow_add_r by lia. reflexivity.
Qed.

Lemma expoZ_loop_reduced K :
  0 < K ->
  forall j hi n,
  0 <= hi -> 0 <= n < 2 ^ (Z.of_nat j + 1) ->
  expoZ_loop (S j) K (n, 2 ^ Z.of_nat j, 16 ^ (2 * hi) mod K)
  = (0, 0, 16 ^ (hi * 2 ^ (Z.of_nat j + 1) + n) mod K).
Proof.
  intros HK. induction j as [|j IH]; intros hi n Hhi Hn.
  - change (Z.of_nat 0 + 1) with 1 in *. change (2 ^ 1) with 2 in *.
    cbn [expoZ_loop expoZ_body Z.of_nat]. change (2 ^ 0) with 1.
    change (Z.quot 1 2) with 0. cbn [Z.leb Z.compare].
    destruct (Z.leb_spec 1 n).
    + assert (n = 1) by lia. subst n. change (1 - 1) with 0.
      rewrite pow16_step_mul by lia.
      replace (hi * 2 + 1) with (2 * hi + 1) by lia. reflexivity.
    + assert (n = 0) by lia. subst n.
      replace (hi * 2 + 0) with (2 * hi) by lia. reflexivity.
  - cbn [expoZ_loop]. cbn [expoZ_loop] in IH.
    assert (P : 2 ^ Z.of_nat (S j) = 2 * 2 ^ Z.of_nat j).
    { rewrite Nat2Z.inj_succ, Z.pow_succ_r by lia. reflexivity. }
    assert (P0 : 0 < 2 ^ Z.of_nat j) by (apply Z.pow_pos_nonneg; lia).
    assert (P2 : 2 ^ (Z.of_nat (S j) + 1) = 4 * 2 ^ Z.of_nat j).
    { rewrite Z.pow_add_r, P by lia. lia. }
    assert (P3 : 2 ^ (Z.of_nat j + 1) = 2 * 2 ^ Z.of_nat j).
    { rewrite Z.pow_add_r by lia. lia. }
    assert (Q : Z.quot (2 ^ Z.of_nat (S j)) 2 = 2 ^ Z.of_nat j).
    { rewrite P. rewrite Z.mul_comm. apply Z.quot_mul. lia. }
    unfold expoZ_body at 2. rewrite Q.
    destruct (Z.leb_spec 1 (2 ^ Z.of_nat j)); [|lia].
    destruct (Z.leb_spec (2 ^ Z.of_nat (S j)) n) as [C|C].
    + rewrite pow16_step_mul by lia. rewrite pow16_step_sq by lia.
      rewrite IH by lia. do 2 f_equal. f_equal. rewrite P2, P3, P. lia.
    + rewrite pow16_step_sq by lia.
      rewrite IH by lia. do 2 f_equal. f_equal. rewrite P2, P3. lia.
Qed.

(** Left-to-right binary exponentiation from the highest bit of [n]. *)
Theorem expoZ_loop_correct K n :
  0 < K -> 1 <= n ->
  expoZ_loop (Z.to_nat (Z.log2 n + 1)) K (n, 2 ^ Z.log2 n, 1) = (0, 0, 16 ^ n mod K).
Proof.
  intros HK Hn.
  pose proof (Z.log2_spec n ltac:(lia)) as [L U].
  pose proof (Z.log2_nonneg n) as L0.
  set (l := Z.log2 n) in *.
  replace (Z.to_nat (l + 1)) with (S (Z.to_nat l)) by lia.
  cbn [expoZ_loop]. unfold expoZ_body at 1.
  destruct (Z.leb_spec (2 ^ l) n); [|lia].
  change (1 * 16) with 16.
  destruct (Z.eq_dec l 0) as [E|E].
  - rewrite E in *. change (2 ^ 0) with 1 in *. change (Z.succ 0) with 1 in *.
    change (2 ^ 1) with 2 in *. assert (n = 1) by lia. subst n. reflexivity.
  - assert (Q : Z.quot (2 ^ l) 2 = 2 ^ (l - 1)).
    { replace l with (l - 1 + 1) at 1 by lia. rewrite Z.pow_add_r by lia.
      apply Z.quot_mul. lia. }
    rewrite Q.
    assert (0 < 2 ^ (l - 1)) by (apply Z.pow_pos_nonneg; lia).
    destruct (Z.leb_spec 1 (2 ^ (l - 1))); [|lia].
    change (16 mod K) with (16 ^ 1 mod K). rewrite pow16_step_sq by lia.
    set (j := Z.to_nat (l - 1)).
    assert (Ej : Z.of_nat j = l - 1) by (unfold j; lia).
    replace (Z.to_nat l) with (S j) by lia.
    rewrite <- Ej.
    rewrite expoZ_loop_reduced.
    + do 2 f_equal. f_equal. rewrite Ej.
      replace (l - 1 + 1) with l by lia. lia.
    + assumption.
    + lia.
    + rewrite Ej. replace (l - 1 + 1) with l by lia.
      replace (Z.succ l) with (l + 1) in U by lia. rewrite Z.pow_add_r in U by lia. lia.
Qed.

(** ** The exponentiation loop, on doubles *)

Lemma K_MAX_sq K r :
  1 <= K <= K_MAX -> 0 <= r <= Z.max (K - 1) 1 ->
  r * r + K <= 2 ^ 53 /\ r * r / K <= INT_MAX /\ r * 16 + K <= 2 ^ 53
  /\ r * 16 / K <= INT_MAX.
Proof.
  unfold K_MAX, INT_MAX. intros HK Hr.
  assert (r <= 94906265) by lia.
  assert (r * r <= 94906265 * 94906265) by nia.
  repeat split.
  - lia.
  - destruct (Z.eq_dec K 1) as [->|].
    + assert (r * r <= 1) by nia. rewrite Z.div_1_r. lia.
    + assert (r <= K - 1) by lia.
      assert (r * r / K < K); [|lia].
      apply Z.div_lt_upper_bound; nia.
  - lia.
  - assert (r * 16 / K <= r * 16); [|lia].
    apply Z.div_le_upper_bound; nia.
Qed.

Lemma sixteen : 16%float = Z2D 16.
Proof. reflexivity. Qed.

Lemma one_Z2D : 1%float = Z2D 1.
Proof. reflexivity. Qed.

Lemma zero_Z2D : 0%float = Z2D 0.
Proof. reflexivity. Qed.

Lemma mod_bound K a : 1 <= K -> 0 <= a mod K <= Z.max (K - 1) 1.
Proof. intros H. pose proof (Z.mod_pos_bound a K ltac:(lia)). lia. Qed.

Lemma expo_body_sim K n t r st :
  1 <= K <= K_MAX -> 0 <= n <= 2 ^ 31 -> 0 <= t <= 2 ^ 30 ->
  0 <= r <= Z.max (K - 1) 1 ->
  exists n' t' r',
    expoZ_body K (n, t, r) = (n', t', r')
    /\ expo_body (Z2D K) (Z2D n, t, Z2D r) st = Ok ((Z2D n', t', Z2D r'), st)
    /\ 0 <= n' <= 2 ^ 31 /\ 0 <= t' <= 2 ^ 30 /\ 0 <= r' <= Z.max (K - 1) 1.
Proof.
  intros HK Hn Ht Hr.
  unfold expoZ_body, expo_body.
  rewrite Z2D_leb by lia.
  assert (Hq : 0 <= Z.quot t 2 <= 2 ^ 30).
  { split; [apply Z.quot_pos; lia|].
    apply Z.le_trans with t; [|lia]. apply Z.quot_le_upper_bound; lia. }
  assert (Step : forall n1 r1, 0 <= n1 <= 2 ^ 31 -> 0 <= r1 <= Z.max (K - 1) 1 ->
    exists n' t' r',
      (if 1 <=? Z.quot t 2 then (n1, Z.quot t 2, (r1 * r1) mod K)
       else (n1, Z.quot t 2, r1)) = (n', t', r')
      /\ (if 1 <=? Z.quot t 2
          then bind (mod_step (Z2D r1 * Z2D r1) (Z2D K))
                    (fun r2 => ret (Z2D n1, Z.quot t 2, r2))
          else ret (Z2D n1, Z.quot t 2, Z2D r1)) st
         = Ok ((Z2D n', t', Z2D r'), st)
      /\ 0 <= n' <= 2 ^ 31 /\ 0 <= t' <= 2 ^ 30 /\ 0 <= r' <= Z.max (K - 1) 1).
  { intros n1 r1 Hn1 Hr1.
    destruct (K_MAX_sq K r1 HK Hr1) as (B1 & B2 & _).
    destruct (1 <=? Z.quot t 2).
    - exists n1, (Z.quot t 2), ((r1 * r1) mod K). split; [reflexivity|].
      split; [|split; [assumption|split; [assumption|apply mod_bound; lia]]].
      rewrite Z2D_mul by nia.
      rewrite (bind_Ok _ _ _ _ _ (mod_step_spec (r1 * r1) K st ltac:(nia) ltac:(lia) B1 B2)).
      reflexivity.
    - exists n1, (Z.quot t 2), r1. split; [reflexivity|].
      split; [reflexivity|auto]. }
  destruct (Z.leb_spec t n) as [C|C].
  - destruct (K_MAX_sq K r HK Hr) as (_ & _ & B3 & B4).
    rewrite sixteen, Z2D_mul by (unfold K_MAX in *; lia).
    assert (Inner : bind (mod_step (Z2D (r * 16)) (Z2D K))
                         (fun r1 => ret ((Z2D n - Z2D t)%float, r1)) st
                    = Ok ((Z2D (n - t), Z2D ((r * 16) mod K)), st)).
    { rewrite (bind_Ok _ _ _ _ _ (mod_step_spec (r * 16) K st ltac:(lia) ltac:(lia) B3 B4)).
      rewrite Z2D_sub by lia. reflexivity. }
    rewrite (bind_Ok _ _ _ _ _ Inner). cbv beta iota.
    apply Step; [lia|apply mod_bound; lia].
  - rewrite bind_ret. cbv beta iota. apply Step; assumption.
Qed.

Lemma expo_loop_sim K st : 1 <= K <= K_MAX ->
  forall count n t r,
  0 <= n <= 2 ^ 31 -> 0 <= t <= 2 ^ 30 -> 0 <= r <= Z.max (K - 1) 1 ->
  exists n' t' r',
    expoZ_loop count K (n, t, r) = (n', t', r')
    /\ expo_loop count (Z2D K) (Z2D n, t, Z2D r) st = Ok ((Z2D n', t', Z2D r'), st).
Proof.
  intros HK. induction count as [|count IH]; intros n t r Hn Ht Hr.
  - exists n, t, r. split; reflexivity.
  - destruct (expo_body_sim K n t r st HK Hn Ht Hr) as (n1 & t1 & r1 & E1 & E2 & B1 & B2 & B3).
    destruct (IH n1 t1 r1 B1 B2 B3) as (n' & t' & r' & E3 & E4).
    exists n', t', r'. cbn [expoZ_loop expo_loop]. rewrite E1, (bind_Ok _ _ _ _ _ E2).
    split; assumption.
Qed.

Lemma log2_of_log2_up n :
  1 <= n -> Z.log2 n = if 2 ^ Z.log2_up n =? n then Z.log2_up n else Z.log2_up n - 1.
Proof.
  intros H. destruct (Z.eqb_spec (2 ^ Z.log2_up n) n) as [E|E].
  - rewrite <- E at 1. apply Z.log2_pow2. apply Z.log2_up_nonneg.
  - assert (1 < n).
    { destruct (Z.eq_dec n 1) as [->|]; [exfalso; apply E; reflexivity|lia]. }
    pose proof (Z.log2_up_spec n H0) as [L U].
    replace (Z.pred (Z.log2_up n)) with (Z.log2_up n - 1) in L by lia.
    apply Z.log2_unique.
    + assert (0 < Z.log2_up n) by (apply Z.log2_up_pos; lia). lia.
    + replace (Z.succ (Z.log2_up n - 1)) with (Z.log2_up n) by lia. lia.
Qed.

(** [expoMod] on a table that reaches [n]. *)
Theorem expoMod_built N h n K :
  (h < N)%nat -> (h <= 30)%nat -> 1 <= n <= 2 ^ Z.of_nat h -> 1 <= K <= K_MAX ->
  expoMod (Z2D n) (Z2D K) (built N h) = Ok (Z2D (16 ^ n mod K), built N h).
Proof.
  intros HN H30 Hn HK.
  pose proof (pow2_le_2_30 (Z.of_nat h) ltac:(lia)) as Bh.
  assert (HB : 0 <= Z.log2_up n <= Z.of_nat h).
  { split; [apply Z.log2_up_nonneg|apply Z.log2_up_le_pow2; lia]. }
  unfold expoMod.
  rewrite (bind_Ok _ _ _ _ _ (init_table_built N h (Z2D n))).
  rewrite (bind_Ok table_size _ _ N (built N h))
    by (unfold table_size, built; cbn [pwrtbl]; rewrite table_length by lia; reflexivity).
  rewrite (bind_Ok _ _ _ _ _
             (scan_table_spec (built N h) N h n eq_refl HN H30 Hn (S N) 0
                ltac:(lia) ltac:(lia))).
  rewrite (bind_Ok _ _ _ _ _
             (load_low (built N h) N h (Z.log2_up n) eq_refl HN ltac:(lia))).
  pose proof (pow2_le_2_30 (Z.log2_up n) ltac:(lia)) as BB.
  rewrite Z2D_eqb by lia.
  pose proof (log2_of_log2_up n ltac:(lia)) as EL.
  pose proof (Z.log2_nonneg n) as L0.
  assert (LB : Z.log2 n <= Z.of_nat h).
  { destruct (2 ^ Z.log2_up n =? n); lia. }
  assert (Bits : (if negb (2 ^ Z.log2_up n =? n) then int (Z.log2_up n - 1)
                  else ret (Z.log2_up n)) (built N h) = Ok (Z.log2 n, built N h)).
  { rewrite EL. destruct (2 ^ Z.log2_up n =? n) eqn:C; cbn [negb]; [reflexivity|].
    apply int_Ok. unfold INT_MIN, INT_MAX. lia. }
  rewrite (bind_Ok _ _ _ _ _ Bits).
  rewrite (bind_Ok _ _ _ _ _
             (load_low (built N h) N h (Z.log2 n) eq_refl HN ltac:(lia))).
  pose proof (pow2_le_2_30 (Z.log2 n) ltac:(lia)) as BL.
  destruct (expo_loop_sim K (built N h) HK (Z.to_nat (Z.log2 n + 1)) n (2 ^ Z.log2 n) 1
              ltac:(lia) ltac:(lia) ltac:(lia)) as (n' & t' & r' & E1 & E2).
  rewrite expoZ_loop_correct in E1 by lia. injection E1 as <- <- <-.
  rewrite one_Z2D, (bind_Ok _ _ _ _ _ E2). reflexivity.
Qed.

(** The first call of the process. *)
Theorem expoMod_fresh N n K :
  (31 <= N)%nat -> 1 <= n <= 2 ^ 30 -> 1 <= K <= K_MAX ->
  expoMod (Z2D n) (Z2D K) (fresh N)
  = Ok (Z2D (16 ^ n mod K), built N (Z.to_nat (Z.log2_up n))).
Proof.
  intros HN Hn HK.
  pose proof (log2_up_le_30 n ltac:(lia)) as HL.
  set (h := Z.to_nat (Z.log2_up n)).
  assert (Hh : n <= 2 ^ Z.of_nat h).
  { unfold h. rewrite Z2Nat.id by lia. apply log2_up_ge. lia. }
  pose proof (expoMod_built N h n K ltac:(lia) ltac:(lia) ltac:(lia) HK) as E.
  unfold expoMod in *.
  rewrite (bind_Ok _ _ _ _ _ (init_table_fresh N n ltac:(lia) ltac:(lia) ltac:(lia))).
  fold h. rewrite (bind_Ok _ _ _ _ _ (init_table_built N h (Z2D n))) in E.
  exact E.
Qed.

Lemma after_built N h n : after (built N h) n = built N h.
Proof. reflexivity. Qed.

Lemma after_fresh N n : after (fresh N) n = built N (Z.to_nat (Z.log2_up n)).
Proof. unfold after, fresh. cbn [init pwrtbl]. rewrite repeat_length. reflexivity. Qed.

Lemma after_init st n : init st = true -> after st n = st.
Proof. intros H. unfold after. rewrite H. reflexivity. Qed.

Lemma ready_le st n n' : ready st n -> n' <= n -> ready st n'.
Proof.
  intros [->|[->|(N & h & -> & HN & H30 & Hh)]] H.
  - left. reflexivity.
  - right. left. reflexivity.
  - right. right. exists N, h. repeat split; try assumption. lia.
Qed.

(** After a call the table is built, and reaches every smaller exponent. *)
Lemma after_ready st n :
  ready st n -> 1 <= n <= 2 ^ 30 ->
  init (after st n) = true /\ forall n', n' <= n -> ready (after st n) n'.
Proof.
  intros R Hn.
  pose proof (log2_up_le_30 n ltac:(lia)) as HL.
  assert (Fresh : forall N, (31 <= N)%nat ->
            forall n', n' <= n -> ready (built N (Z.to_nat (Z.log2_up n))) n').
  { intros N HN n' Hn'. right. right. exists N, (Z.to_nat (Z.log2_up n)).
    split; [reflexivity|split; [lia|split; [lia|]]].
    rewrite Z2Nat.id by lia. pose proof (log2_up_ge n ltac:(lia)). lia. }
  destruct R as [->|[->|(N & h & -> & HN & H30 & Hh)]].
  - rewrite after_fresh. split; [reflexivity|apply Fresh; lia].
  - rewrite after_fresh. split; [reflexivity|apply Fresh; lia].
  - rewrite after_built. split; [reflexivity|].
    intros n' Hn'. right. right. exists N, h. repeat split; try assumption. lia.
Qed.

Lemma after_after st n n' :
  ready st n -> 1 <= n <= 2 ^ 30 -> after (after st n) n' = after st n.
Proof.
  intros R Hn. apply after_init. apply after_ready; assumption.
Qed.

(** [expoMod] is exact whenever the table is ready for [n]. *)
Theorem expoMod_correct st n K :
  ready st n -> 1 <= n <= 2 ^ 30 -> 1 <= K <= K_MAX ->
  expoMod (Z2D n) (Z2D K) st = Ok (Z2D (16 ^ n mod K), after st n).
Proof.
  intros R Hn HK.
  destruct R as [->|[->|(N & h & -> & HN & H30 & Hh)]].
  - rewrite after_fresh. apply expoMod_fresh; [lia|assumption|assumption].
  - rewrite after_fresh. apply expoMod_fresh; [lia|assumption|assumption].
  - rewrite after_built. apply expoMod_built; try assumption; lia.
Qed.
(** ** Doubles in the unit interval *)

Local Open Scope Q_scope.

Lemma Prim2SF_zero : Prim2SF 0 = S754_zero false.
Proof. reflexivity. Qed.

Lemma in_unit_finite s : in_unit s = true -> finiteD s = true.
Proof.
  unfold in_unit, finiteD. rewrite FloatAxioms.leb_spec, FloatAxioms.ltb_spec.
  rewrite Prim2SF_zero, Prim2SF_one.
  destruct (Prim2SF s) as [sg|[|]| |sg m e]; try reflexivity; intros H;
    cbn in H; discriminate H.
Qed.

Theorem in_unit_iff s :
  in_unit s = true <-> finiteD s = true /\ 0 <= D2Q s /\ D2Q s < 1.
Proof.
  assert (F0 : finiteD 0 = true) by reflexivity.
  assert (F1 : finiteD 1 = true) by reflexivity.
  assert (V0 : D2Q 0 == 0) by reflexivity.
  assert (V1 : D2Q 1 == 1) by reflexivity.
  split.
  - intros H. pose proof (in_unit_finite s H) as F. split; [exact F|].
    unfold in_unit in H. apply andb_true_iff in H. destruct H as [H1 H2].
    apply (leb_true 0 s F0 F) in H1. apply (ltb_true s 1 F F1) in H2.
    rewrite V0 in H1. rewrite V1 in H2. split; assumption.
  - intros (F & H1 & H2). unfold in_unit. apply andb_true_iff. split.
    + apply (leb_true 0 s F0 F). rewrite V0. assumption.
    + apply (ltb_true s 1 F F1). rewrite V1. assumption.
Qed.

Lemma pow2_big_1023 q : Qabs q <= 4 -> Qabs q < pow2 1023.
Proof.
  intros H. apply Qle_lt_trans with (1 := H). change 4 with (pow2 2). apply pow2_lt. lia.
Qed.

Lemma Qabs_le_nonneg q b : 0 <= q -> q <= b -> Qabs q <= b.
Proof. intros. rewrite Qabs_pos; assumption. Qed.

Lemma RN_nonneg q : 0 <= q -> 0 <= RN q.
Proof. intros H. rewrite RN_pos by assumption. apply RNpos_nonneg. assumption. Qed.

Lemma RN_le_int q z : (- 2 ^ 53 <= z <= 2 ^ 53)%Z -> q <= inject_Z z -> RN q <= inject_Z z.
Proof. intros Hz H. rewrite <- (RN_Z z Hz). apply RN_mono. assumption. Qed.

Lemma RN_ge_int q z : (- 2 ^ 53 <= z <= 2 ^ 53)%Z -> inject_Z z <= q -> inject_Z z <= RN q.
Proof. intros Hz H. rewrite <- (RN_Z z Hz). apply RN_mono. assumption. Qed.

(** The sum of a double of [0,1) and a double of [0,1]. *)
Lemma add_unit s x :
  finiteD s = true -> 0 <= D2Q s -> D2Q s < 1 ->
  finiteD x = true -> 0 <= D2Q x -> D2Q x <= 1 ->
  finiteD (s + x) = true /\ 0 <= D2Q (s + x) /\ D2Q (s + x) <= 2.
Proof.
  intros Fs S0 S1 Fx X0 X1.
  destruct (add_correct s x Fs Fx) as (F & V).
  - apply pow2_big_1023. apply Qabs_le_nonneg; lra.
  - split; [exact F|]. rewrite V. split.
    + apply RN_nonneg. lra.
    + apply (RN_le_int _ 2); [lia|]. change (inject_Z 2) with 2. lra.
Qed.

(** [s = s + x; s = s - std::floor(s);] keeps the sum in [0,1). *)
Theorem floor_step_unit s x :
  in_unit s = true -> finiteD x = true -> 0 <= D2Q x -> D2Q x <= 1 ->
  in_unit ((s + x) - floor (s + x)) = true.
Proof.
  intros Hs Fx X0 X1. apply in_unit_iff in Hs. destruct Hs as (Fs & S0 & S1).
  destruct (add_unit s x Fs S0 S1 Fx X0 X1) as (F & V0 & V2).
  destruct (floor_sub_exact (s + x) F V0) as (F' & V').
  - apply Qle_trans with (1 := V2). change 2 with (pow2 1). apply pow2_le. lia.
  - apply in_unit_iff. split; [exact F'|]. rewrite V'.
    apply Qfloor_frac_bounds.
Qed.

Lemma Qfloor_range q a b :
  inject_Z a <= q -> q <= inject_Z b -> (a <= Qfloor q <= b)%Z.
Proof.
  intros H1 H2. split.
  - rewrite <- (Qfloor_Z a). apply Qfloor_resp_le. assumption.
  - rewrite <- (Qfloor_Z b). apply Qfloor_resp_le. assumption.
Qed.

(** [s = s + x; s = s - static_cast<int>(s);] keeps the sum in [0,1). *)
Theorem accumulate_unit s x st :
  in_unit s = true -> finiteD x = true -> 0 <= D2Q x -> D2Q x <= 1 ->
  accumulate s x st = Ok (drop_int (s + x), st)
  /\ in_unit (drop_int (s + x)) = true.
Proof.
  intros Hs Fx X0 X1. apply in_unit_iff in Hs. destruct Hs as (Fs & S0 & S1).
  destruct (add_unit s x Fs S0 S1 Fx X0 X1) as (F & V0 & V2).
  pose proof (truncD_nonneg (s + x) F V0) as T.
  pose proof (Qfloor_range (D2Q (s + x)) 0 2 V0 V2) as R.
  destruct (sub_trunc_exact (s + x) _ F T ltac:(lia)) as (F' & V' & P & _).
  unfold accumulate, drop_int. rewrite T.
  rewrite (bind_Ok _ _ _ _ _ (static_cast_int_Ok _ _ st T ltac:(unfold INT_MIN, INT_MAX; lia))).
  split; [reflexivity|].
  apply in_unit_iff. split; [exact F'|]. rewrite V'. apply Qfloor_frac_bounds.
Qed.

(** ** The terms of the left portion *)

Lemma Z2Q_pos z : (0 < z)%Z -> 0 < inject_Z z.
Proof. intros. change 0 with (inject_Z 0). rewrite <- Zlt_Qlt. assumption. Qed.

Lemma Z2Q_nonneg z : (0 <= z)%Z -> 0 <= inject_Z z.
Proof. intros. change 0 with (inject_Z 0). rewrite <- Zle_Qle. assumption. Qed.

(** The quotient of a remainder by its modulus is a double of [0,1). *)
Lemma quotient_unit r K :
  (0 <= r < K)%Z -> (K <= 2 ^ 53)%Z ->
  finiteD (Z2D r / Z2D K) = true
  /\ 0 <= D2Q (Z2D r / Z2D K) /\ D2Q (Z2D r / Z2D K) <= 1.
Proof.
  intros Hr HK.
  destruct (Z2D_correct r ltac:(lia)) as (Fr & _ & Vr).
  destruct (Z2D_correct K ltac:(lia)) as (FK & _ & VK).
  pose proof (Z2Q_pos K ltac:(lia)) as PK. pose proof (Z2Q_nonneg r ltac:(lia)) as Pr.
  assert (Rr : inject_Z r < inject_Z K) by (rewrite <- Zlt_Qlt; lia).
  assert (X0 : 0 <= inject_Z r / inject_Z K) by (apply Qle_shift_div_l; lra).
  assert (X1 : inject_Z r / inject_Z K <= 1) by (apply Qle_shift_div_r; lra).
  destruct (div_correct (Z2D r) (Z2D K) Fr FK) as (F & _ & V).
  - rewrite VK. lra.
  - destruct (Z.eq_dec r 0) as [->|Nr]; [left; rewrite Vr; reflexivity|right].
    rewrite Vr, VK. rewrite Qabs_pos by assumption.
    apply Qle_shift_div_l; [assumption|].
    apply Qle_trans with (pow2 (-1022) * pow2 53).
    + apply Qmult_le_l; [apply pow2_gt_0|]. rewrite pow2_Z, <- Zle_Qle by lia. lia.
    + rewrite <- pow2_add. change (pow2 (-1022 + 53)) with (pow2 (-969)).
      apply Qle_trans with 1; [apply Qlt_le_weak; reflexivity|].
      change 1 with (inject_Z 1). rewrite <- Zle_Qle. lia.
  - rewrite Vr, VK. apply pow2_big_1023. apply Qabs_le_nonneg; lra.
  - split; [exact F|]. rewrite V, Vr, VK. split.
    + apply RN_nonneg. assumption.
    + apply (RN_le_int _ 1); [lia|assumption].
Qed.

Lemma left_term_ref_unit j d k :
  (1 <= 8 * k + j <= 2 ^ 53)%Z ->
  finiteD (left_term_ref j d k) = true
  /\ 0 <= D2Q (left_term_ref j d k) /\ D2Q (left_term_ref j d k) <= 1.
Proof.
  intros H. unfold left_term_ref. apply quotient_unit; [|lia].
  apply Z.mod_pos_bound. lia.
Qed.

(** ** leftPortionThreaded *)

Local Open Scope Z_scope.

Lemma left_term_spec j d k s st :
  ready st (d - k) -> 0 <= k -> 1 <= d - k <= 2 ^ 30 -> 1 <= j -> 8 * k + j <= K_MAX ->
  left_term j d k s st
  = Ok (((s + left_term_ref j d k) - floor (s + left_term_ref j d k))%float,
        after st (d - k)).
Proof.
  intros R Hk Hn Hj HK.
  pose proof (expoMod_correct st (d - k) (8 * k + j) R Hn ltac:(lia)) as E.
  unfold K_MAX in HK. unfold left_term.
  rewrite (bind_Ok _ _ _ _ _ (int_Ok (8 * k) st ltac:(unfold INT_MIN, INT_MAX; lia))).
  rewrite (bind_Ok _ _ _ _ _ (int_Ok (8 * k + j) st ltac:(unfold INT_MIN, INT_MAX; lia))).
  rewrite (bind_Ok _ _ _ _ _ (int_Ok (d - k) st ltac:(unfold INT_MIN, INT_MAX; lia))).
  rewrite (bind_Ok _ _ _ _ _ E). reflexivity.
Qed.

(** The statics after a chunk of [count] terms from [k]. *)
Lemma chunk_loop_spec bound j d :
  bound <= d -> d <= 2 ^ 30 -> 1 <= j -> 8 * (bound - 1) + j <= K_MAX ->
  forall count k s st,
  ready st (d - k) -> 0 <= k -> k + Z.of_nat count <= bound ->
  chunk_loop count bound j d k s st
  = Ok (chunk_sum count j d k s,
        match count with O => st | S _ => after st (d - k) end).
Proof.
  intros Hb Hd Hj HK. induction count as [|count IH]; intros k s st R Hk Hc.
  - reflexivity.
  - cbn [chunk_loop chunk_sum].
    destruct (Z.ltb_spec k bound); [|lia].
    rewrite (bind_Ok _ _ _ _ _ (left_term_spec j d k s st R Hk ltac:(lia) Hj ltac:(lia))).
    rewrite (bind_Ok _ _ _ _ _
               (int_Ok (k + 1) (after st (d - k)) ltac:(unfold INT_MIN, INT_MAX; lia))).
    destruct (after_ready st (d - k) R ltac:(lia)) as [I R'].
    rewrite IH by (try apply R'; lia).
    f_equal. f_equal. destruct count; [reflexivity|].
    apply after_init. assumption.
Qed.

Theorem leftPortionThreaded_gpu_spec terms k j d st :
  0 <= k -> 1 <= terms -> k + terms <= d -> d <= D_MAX -> series j ->
  ready st (d - k) ->
  leftPortionThreaded_gpu terms k j d st
  = Ok (chunk_sum (Z.to_nat terms) j d k 0, after st (d - k)).
Proof.
  intros Hk Ht Hd HD Hj R. unfold D_MAX in HD.
  assert (1 <= j <= 6) by (destruct Hj as [H|[H|[H|H]]]; subst j; lia).
  unfold leftPortionThreaded_gpu.
  rewrite (bind_Ok _ _ _ _ _ (int_Ok (k + terms) st ltac:(unfold INT_MIN, INT_MAX; lia))).
  rewrite (chunk_loop_spec (k + terms) j d) by (try assumption; unfold K_MAX; lia).
  destruct (Z.to_nat terms) eqn:E; [lia|reflexivity].
Qed.

Theorem leftPortionThreaded_spec k j d st :
  0 <= k -> k + 100000 <= d -> d <= D_MAX -> series j -> ready st (d - k) ->
  leftPortionThreaded k j d st
  = Ok (chunk_sum (Z.to_nat 100000) j d k 0, after st (d - k)).
Proof.
  intros Hk Hd HD Hj R.
  exact (leftPortionThreaded_gpu_spec 100000 k j d st Hk ltac:(lia) Hd HD Hj R).
Qed.

(** Every partial sum of a chunk is in [0,1). *)
Theorem chunk_sum_unit j d :
  1 <= j ->
  forall count k s, 0 <= k -> 8 * (k + Z.of_nat count) + j <= 2 ^ 53 ->
  in_unit s = true -> in_unit (chunk_sum count j d k s) = true.
Proof.
  intros Hj. induction count as [|count IH]; intros k s Hk HK Hs.
  - exact Hs.
  - cbn [chunk_sum]. apply IH; [lia|lia|].
    destruct (left_term_ref_unit j d k ltac:(lia)) as (F & X0 & X1).
    apply floor_step_unit; assumption.
Qed.
(** ** The right portion *)

Local Open Scope Q_scope.

Lemma threshold_value : D2Q 1e-17 == inject_Z 6490371073168535 * pow2 (-109).
Proof. reflexivity. Qed.

Lemma threshold_finite : finiteD 1e-17 = true.
Proof. reflexivity. Qed.

Lemma pow2_neg60_lt_threshold : pow2 (-60) < D2Q 1e-17.
Proof.
  rewrite threshold_value.
  assert (pow2 (-60) == inject_Z (2 ^ 49) * pow2 (-109)) as ->.
  { rewrite <- pow2_Z by lia. rewrite <- pow2_add. reflexivity. }
  apply Qmult_lt_r; [apply pow2_gt_0|]. rewrite <- Zlt_Qlt. reflexivity.
Qed.

(** The term of the right portion is the rounded quotient 16^(d-k)/(8k+j). *)
Lemma right_term_ref_value j d k :
  (0 <= k - d <= 100)%Z -> (1 <= 8 * k + j <= 2 ^ 53)%Z ->
  finiteD (right_term_ref j d k) = true
  /\ D2Q (right_term_ref j d k) == RN (pow2 (4 * (d - k)) / inject_Z (8 * k + j)).
Proof.
  intros Hk HK. unfold right_term_ref.
  destruct (pow16_correct (d - k) ltac:(lia)) as (Fp & _ & Vp).
  destruct (Z2D_correct (8 * k + j) ltac:(lia)) as (FK & _ & VK).
  pose proof (Z2Q_pos (8 * k + j) ltac:(lia)) as PK.
  pose proof (pow2_gt_0 (4 * (d - k))) as PP.
  assert (X0 : 0 < pow2 (4 * (d - k)) / inject_Z (8 * k + j)).
  { apply Qlt_shift_div_l; lra. }
  assert (X1 : pow2 (4 * (d - k)) / inject_Z (8 * k + j) <= 1).
  { apply Qle_shift_div_r; [assumption|].
    apply Qle_trans with (pow2 0); [apply pow2_le; lia|].
    change (pow2 0) with 1. rewrite Qmult_1_l. change 1 with (inject_Z 1).
    rewrite <- Zle_Qle. lia. }
  destruct (div_correct (pow16 (d - k)) (Z2D (8 * k + j)) Fp FK) as (F & _ & V).
  - rewrite VK. lra.
  - right. rewrite Vp, VK. rewrite Qabs_pos by lra.
    apply Qle_shift_div_l; [assumption|].
    apply Qle_trans with (pow2 (-1022) * pow2 53).
    + apply Qmult_le_l; [apply pow2_gt_0|]. rewrite pow2_Z, <- Zle_Qle by lia. lia.
    + rewrite <- pow2_add. apply pow2_le. lia.
  - rewrite Vp, VK. apply pow2_big_1023. apply Qabs_le_nonneg; lra.
  - split; [exact F|]. rewrite V, Vp, VK. reflexivity.
Qed.

Lemma right_term_ref_unit j d k :
  (0 <= k - d <= 100)%Z -> (1 <= 8 * k + j <= 2 ^ 53)%Z ->
  finiteD (right_term_ref j d k) = true
  /\ 0 <= D2Q (right_term_ref j d k) /\ D2Q (right_term_ref j d k) <= 1.
Proof.
  intros Hk HK. destruct (right_term_ref_value j d k Hk HK) as (F & V).
  pose proof (Z2Q_pos (8 * k + j) ltac:(lia)) as PK.
  pose proof (pow2_gt_0 (4 * (d - k))) as PP.
  split; [exact F|]. rewrite V. split.
  - apply RN_nonneg. apply Qle_shift_div_l; lra.
  - apply (RN_le_int _ 1); [lia|]. apply Qle_shift_div_r; [assumption|].
    apply Qle_trans with (pow2 0); [apply pow2_le; lia|].
    change (pow2 0) with 1. rewrite Qmult_1_l. change (inject_Z 1) with 1.
    change 1 with (inject_Z 1). rewrite <- Zle_Qle. lia.
Qed.

(** The terms of the right portion do not increase. *)
Lemma right_term_ref_mono j d k k' :
  (0 <= k - d)%Z -> (k <= k')%Z -> (k' - d <= 100)%Z ->
  (1 <= 8 * k + j)%Z -> (8 * k' + j <= 2 ^ 53)%Z ->
  D2Q (right_term_ref j d k') <= D2Q (right_term_ref j d k).
Proof.
  intros H0 H1 H2 H3 H4.
  destruct (right_term_ref_value j d k ltac:(lia) ltac:(lia)) as (_ & V).
  destruct (right_term_ref_value j d k' ltac:(lia) ltac:(lia)) as (_ & V').
  rewrite V, V'. apply RN_mono.
  pose proof (Z2Q_pos (8 * k + j) ltac:(lia)) as PK.
  pose proof (Z2Q_pos (8 * k' + j) ltac:(lia)) as PK'.
  pose proof (pow2_gt_0 (4 * (d - k))) as PP. pose proof (pow2_gt_0 (4 * (d - k'))) as PP'.
  assert (LP : pow2 (4 * (d - k')) <= pow2 (4 * (d - k))) by (apply pow2_le; lia).
  assert (LK : inject_Z (8 * k + j) <= inject_Z (8 * k' + j)) by (rewrite <- Zle_Qle; lia).
  apply Qle_shift_div_r; [assumption|].
  assert (pow2 (4 * (d - k)) / inject_Z (8 * k + j) * inject_Z (8 * k' + j)
          == pow2 (4 * (d - k)) * (inject_Z (8 * k' + j) / inject_Z (8 * k + j))) as ->
    by (field; lra).
  assert (1 <= inject_Z (8 * k' + j) / inject_Z (8 * k + j)).
  { apply Qle_shift_div_l; lra. }
  nra.
Qed.

(** Fifteen terms on, the term is below the threshold. *)
Lemma right_term_ref_small j d k :
  (15 <= k - d <= 100)%Z -> (1 <= 8 * k + j <= 2 ^ 53)%Z ->
  (right_term_ref j d k <? 1e-17)%float = true.
Proof.
  intros Hk HK. destruct (right_term_ref_value j d k ltac:(lia) HK) as (F & V).
  apply (ltb_true _ _ F threshold_finite).
  apply Qle_lt_trans with (2 := pow2_neg60_lt_threshold).
  rewrite V.
  rewrite <- (RN_exact 1 (-60)) by lia.
  rewrite RN_comp with (x := inject_Z 1 * pow2 (-60)) (y := pow2 (-60))
    by (change (inject_Z 1) with 1; ring).
  apply RN_mono.
  pose proof (Z2Q_pos (8 * k + j) ltac:(lia)) as PK.
  apply Qle_shift_div_r; [assumption|].
  assert (pow2 (4 * (d - k)) <= pow2 (-60)) by (apply pow2_le; lia).
  assert (1 <= inject_Z (8 * k + j)).
  { change 1 with (inject_Z 1). rewrite <- Zle_Qle. lia. }
  pose proof (pow2_gt_0 (-60)). pose proof (pow2_gt_0 (4 * (d - k))). nra.
Qed.

Local Open Scope Z_scope.

Lemma right_term_spec j d k s st :
  0 <= k - d <= 100 -> 0 <= d -> 1 <= j -> 8 * k + j <= INT_MAX ->
  in_unit s = true ->
  right_term j d k s st
  = Ok (if (right_term_ref j d k <? 1e-17)%float then None
        else Some (drop_int (s + right_term_ref j d k)), st)
  /\ in_unit (drop_int (s + right_term_ref j d k)) = true.
Proof.
  intros Hk Hd Hj HK Hs. unfold INT_MAX in HK.
  destruct (right_term_ref_unit j d k Hk ltac:(lia)) as (F & X0 & X1).
  destruct (accumulate_unit s (right_term_ref j d k) st Hs F X0 X1) as (A & U).
  split; [|exact U].
  unfold right_term.
  rewrite (bind_Ok _ _ _ _ _ (int_Ok (d - k) st ltac:(unfold INT_MIN, INT_MAX; lia))).
  rewrite (bind_Ok _ _ _ _ _ (int_Ok (8 * k) st ltac:(unfold INT_MIN, INT_MAX; lia))).
  rewrite (bind_Ok _ _ _ _ _ (int_Ok (8 * k + j) st ltac:(unfold INT_MIN, INT_MAX; lia))).
  fold (right_term_ref j d k).
  destruct (right_term_ref j d k <? 1e-17)%float; [reflexivity|].
  rewrite (bind_Ok _ _ _ _ _ A). reflexivity.
Qed.

(** The loop leaves by [break], at most fifteen terms after [d]. *)
Lemma right_loop_spec j d st :
  0 <= d -> 1 <= j -> 8 * (d + 15) + j <= INT_MAX ->
  forall n count k s,
  k + Z.of_nat n = d + 15 -> (n < count)%nat -> d <= k -> in_unit s = true ->
  exists m, (m <= n)%nat
    /\ right_loop count j d k s st = Ok (right_sum m j d k s, st)
    /\ in_unit (right_sum m j d k s) = true
    /\ (forall i, 0 <= i < Z.of_nat m ->
          (right_term_ref j d (k + i) <? 1e-17)%float = false)
    /\ (right_term_ref j d (k + Z.of_nat m) <? 1e-17)%float = true.
Proof.
  intros Hd Hj HK. unfold INT_MAX in HK.
  induction n as [|n IH]; intros count k s Hkn Hc Hk Hs;
    (destruct count as [|count]; [lia|]); cbn [right_loop];
    rewrite (bind_Ok _ _ _ _ _ (int_Ok (d + 100) st ltac:(unfold INT_MIN, INT_MAX; lia)));
    (destruct (Z.leb_spec k (d + 100)); [|lia]);
    destruct (right_term_spec j d k s st ltac:(lia) Hd Hj ltac:(unfold INT_MAX; lia) Hs)
      as (E & U);
    rewrite (bind_Ok _ _ _ _ _ E).
  - rewrite right_term_ref_small by lia.
    exists 0%nat. cbn [right_sum]. rewrite Z.add_0_r.
    repeat split; try assumption; try lia.
    apply right_term_ref_small; lia.
  - destruct (right_term_ref j d k <? 1e-17)%float eqn:C.
    + exists 0%nat. cbn [right_sum]. rewrite Z.add_0_r.
      repeat split; try assumption; lia.
    + rewrite (bind_Ok _ _ _ _ _ (int_Ok (k + 1) st ltac:(unfold INT_MIN, INT_MAX; lia))).
      destruct (IH count (k + 1) (drop_int (s + right_term_ref j d k))
                  ltac:(lia) ltac:(lia) ltac:(lia) U) as (m & Hm & E' & U' & B & T).
      exists (S m). cbn [right_sum].
      split; [lia|split; [exact E'|split; [exact U'|split]]].
      * intros i Hi. destruct (Z.eq_dec i 0) as [->|Ni].
        -- rewrite Z.add_0_r. exact C.
        -- replace (k + i) with (k + 1 + (i - 1)) by lia. apply B. lia.
      * replace (k + Z.of_nat (S m)) with (k + 1 + Z.of_nat m) by lia. exact T.
Qed.

Theorem right_portion_spec j d s st :
  0 <= d -> 1 <= j -> 8 * (d + 15) + j <= INT_MAX -> in_unit s = true ->
  exists m, (m <= 15)%nat
    /\ right_portion j d s st = Ok (right_sum m j d d s, st)
    /\ in_unit (right_sum m j d d s) = true
    /\ (forall k, d <= k < d + Z.of_nat m ->
          (right_term_ref j d k <? 1e-17)%float = false)
    /\ (forall k, d + Z.of_nat m <= k <= d + 100 ->
          (right_term_ref j d k <? 1e-17)%float = true).
Proof.
  intros Hd Hj HK Hs.
  destruct (right_loop_spec j d st Hd Hj HK 15 102 d s ltac:(lia) ltac:(lia) ltac:(lia) Hs)
    as (m & Hm & E & U & B & T).
  exists m. split; [exact Hm|split; [exact E|split; [exact U|split]]].
  - intros k Hk. replace k with (d + (k - d)) by lia. apply B. lia.
  - intros k Hk. unfold INT_MAX in HK.
    destruct (right_term_ref_unit j d (d + Z.of_nat m) ltac:(lia) ltac:(lia)) as (F1 & _).
    destruct (right_term_ref_unit j d k ltac:(lia) ltac:(lia)) as (F2 & _).
    apply (ltb_true _ _ F2 threshold_finite).
    apply (ltb_true _ _ F1 threshold_finite) in T.
    apply Qle_lt_trans with (2 := T).
    apply right_term_ref_mono; lia.
Qed.
(** ** The left portion and bbpf16jsd *)

Local Open Scope Z_scope.

Lemma seq_term_spec j d k s st :
  ready st (d - k) -> 0 <= k -> 1 <= d - k <= 2 ^ 30 -> 1 <= j -> 8 * k + j <= K_MAX ->
  in_unit s = true ->
  seq_term j d k s st = Ok (drop_int (s + left_term_ref j d k), after st (d - k))
  /\ in_unit (drop_int (s + left_term_ref j d k)) = true.
Proof.
  intros R Hk Hn Hj HK Hs.
  pose proof (expoMod_correct st (d - k) (8 * k + j) R Hn ltac:(lia)) as E.
  unfold K_MAX in HK.
  destruct (left_term_ref_unit j d k ltac:(lia)) as (F & X0 & X1).
  destruct (accumulate_unit s (left_term_ref j d k) (after st (d - k)) Hs F X0 X1) as (A & U).
  split; [|exact U].
  unfold seq_term.
  rewrite (bind_Ok _ _ _ _ _ (int_Ok (8 * k) st ltac:(unfold INT_MIN, INT_MAX; lia))).
  rewrite (bind_Ok _ _ _ _ _ (int_Ok (8 * k + j) st ltac:(unfold INT_MIN, INT_MAX; lia))).
  rewrite (bind_Ok _ _ _ _ _ (int_Ok (d - k) st ltac:(unfold INT_MIN, INT_MAX; lia))).
  rewrite (bind_Ok _ _ _ _ _ E). exact A.
Qed.

Lemma in_unit_zero : in_unit 0 = true.
Proof. reflexivity. Qed.

(** The worker threads, one chunk of 100000 terms each. *)
Lemma spawn_threads_spec j d :
  d <= D_MAX -> series j ->
  forall count k st,
  0 <= k -> k + 100000 * Z.of_nat count <= d -> ready st (d - k) ->
  exists results,
    spawn_threads count j d k st
    = Ok ((results, k + 100000 * Z.of_nat count),
          match count with O => st | S _ => after st (d - k) end)
    /\ length results = count
    /\ Forall (fun r => in_unit r = true) results.
Proof.
  intros HD Hj. unfold D_MAX in HD.
  assert (Hj' : 1 <= j <= 6) by (destruct Hj as [H|[H|[H|H]]]; subst j; lia).
  induction count as [|count IH]; intros k st Hk Hd R.
  - exists []. cbn [spawn_threads]. rewrite Z.mul_0_r, Z.add_0_r.
    split; [reflexivity|split; [reflexivity|constructor]].
  - cbn [spawn_threads].
    rewrite (bind_Ok _ _ _ _ _
               (leftPortionThreaded_spec k j d st Hk ltac:(lia) ltac:(unfold D_MAX; lia) Hj R)).
    rewrite (bind_Ok _ _ _ _ _
               (int_Ok (k + 100000) (after st (d - k)) ltac:(unfold INT_MIN, INT_MAX; lia))).
    destruct (after_ready st (d - k) R ltac:(lia)) as [I R'].
    destruct (IH (k + 100000) (after st (d - k)) ltac:(lia) ltac:(lia)
                (R' (d - (k + 100000)) ltac:(lia)))
      as (results & E & L & U).
    rewrite (bind_Ok _ _ _ _ _ E).
    exists (chunk_sum (Z.to_nat 100000) j d k 0 :: results).
    cbn [fst snd]. split; [|split].
    + unfold ret. f_equal. f_equal.
      * f_equal. lia.
      * destruct count; [reflexivity|]. apply after_init. assumption.
    + cbn [length]. lia.
    + constructor; [|exact U].
      apply chunk_sum_unit; [lia|lia|lia|exact in_unit_zero].
Qed.

(** The join loop folds the results from the last thread to the first. *)
Lemma join_threads_spec st : forall count results i2 s,
  i2 = Z.of_nat count - 1 -> (count <= length results)%nat ->
  Forall (fun r => in_unit r = true) results -> in_unit s = true ->
  exists s', join_threads count results i2 s st = Ok (s', st) /\ in_unit s' = true.
Proof.
  induction count as [|count IH]; intros results i2 s Hi HL HU Hs.
  - exists s. split; [reflexivity|exact Hs].
  - cbn [join_threads]. destruct (Z.ltb_spec (-1) i2); [|lia].
    assert (Hr : in_unit (nth (Z.to_nat i2) results 0%float) = true).
    { rewrite Forall_forall in HU. apply HU. apply nth_In. lia. }
    pose proof (proj1 (in_unit_iff _) Hr) as (F & X0 & X1).
    destruct (accumulate_unit s _ st Hs F X0 ltac:(apply Qlt_le_weak; exact X1)) as (A & U).
    rewrite (bind_Ok _ _ _ _ _ A).
    apply IH; [lia|lia|assumption|assumption].
Qed.

Lemma to_uint_small z : 0 <= z < 2 ^ 32 -> to_uint z = z.
Proof. intros H. unfold to_uint, UINT_MOD. apply Z.mod_small. assumption. Qed.

(** The largest worker count whose 100000-fold does not wrap around in
    [unsigned] arithmetic together with a digit position up to [D_MAX]. *)
Lemma guard_exact T d k :
  1 <= T <= 21474 -> 0 <= k -> k < d -> d <= D_MAX ->
  (to_uint (to_uint k + to_uint (100000 * T)) <? to_uint d) = (k + 100000 * T <? d).
Proof.
  intros HT Hk Hkd HD. unfold D_MAX in HD.
  rewrite (to_uint_small k), (to_uint_small (100000 * T)), (to_uint_small d) by lia.
  rewrite to_uint_small by lia. reflexivity.
Qed.

(** A single worker, or workers that find the table built, do not race. *)
Lemma start_workers_Ok T st :
  T <= 1 \/ init st = true -> start_workers T st = Ok (tt, st).
Proof.
  intros H. unfold start_workers.
  destruct (Z.leb_spec 2 T) as [C|C]; [|reflexivity].
  destruct H as [H|H]; [lia|]. rewrite H. reflexivity.
Qed.

(** Two workers or more on an unbuilt table race. *)
Lemma start_workers_race T st :
  2 <= T -> init st = false -> start_workers T st = Undefined DataRace.
Proof.
  intros C H. unfold start_workers.
  destruct (Z.leb_spec 2 T); [|lia]. rewrite H. reflexivity.
Qed.

(** One turn of the [while (k < d)] loop: a batch of [T] chunks when
    they all fit below [d], one term otherwise. *)
Lemma left_portion_step T j d k s st :
  1 <= T <= 21474 -> d <= D_MAX -> series j ->
  0 <= k < d -> in_unit s = true -> ready st (d - k) ->
  T <= 1 \/ init st = true \/ d <= k + 100000 * T ->
  exists k' s',
    (k' = k + 100000 * T /\ k' < d \/ k' = k + 1 /\ d <= k + 100000 * T)
    /\ in_unit s' = true
    /\ forall fuel,
         left_portion (S fuel) T j d k s st
         = left_portion fuel T j d k' s' (after st (d - k)).
Proof.
  intros HT HD Hj Hk Hs R RF.
  assert (Hj' : 1 <= j <= 6) by (destruct Hj as [H|[H|[H|H]]]; subst j; lia).
  destruct (Z.ltb_spec (k + 100000 * T) d) as [P|P].
  - (* one chunk for every worker *)
    assert (W : start_workers T st = Ok (tt, st)).
    { apply start_workers_Ok. destruct RF as [H|[H|H]]; [left; exact H|right; exact H|lia]. }
    destruct (spawn_threads_spec j d HD Hj (Z.to_nat T) k st ltac:(lia) ltac:(lia) R)
      as (results & E & L & U).
    destruct (Z.to_nat T) as [|T'] eqn:ET; [lia|].
    destruct (join_threads_spec (after st (d - k)) (S T') results
                (Z.of_nat (S T') - 1) s eq_refl ltac:(lia) U Hs) as (s1 & J & U1).
    exists (k + 100000 * T), s1. split; [left; split; [reflexivity|exact P]|].
    split; [exact U1|]. intros fuel.
    cbn [left_portion]. destruct (Z.ltb_spec k d) as [C|C]; [|lia].
    rewrite guard_exact by lia.
    destruct (Z.ltb_spec (k + 100000 * T) d) as [P'|P']; [|lia].
    rewrite (bind_Ok _ _ _ _ _ W).
    rewrite ET. rewrite (bind_Ok _ _ _ _ _ E).
    replace (uint_to_int (to_uint (T - 1))) with (Z.of_nat (S T') - 1).
    2:{ rewrite to_uint_small by lia. unfold uint_to_int, INT_MAX.
        destruct (Z.leb_spec (T - 1) (2 ^ 31 - 1)); lia. }
    rewrite (bind_Ok _ _ _ _ _ J).
    replace (k + 100000 * Z.of_nat (S T')) with (k + 100000 * T) by lia.
    reflexivity.
  - (* the last terms, one at a time *)
    destruct (seq_term_spec j d k s st R ltac:(lia) ltac:(unfold D_MAX in HD; lia)
                ltac:(lia) ltac:(unfold D_MAX, K_MAX in *; lia) Hs) as (E & U).
    exists (k + 1), (drop_int (s + left_term_ref j d k)).
    split; [right; split; [reflexivity|exact P]|].
    split; [exact U|]. intros fuel.
    cbn [left_portion]. destruct (Z.ltb_spec k d) as [C|C]; [|lia].
    rewrite guard_exact by lia.
    destruct (Z.ltb_spec (k + 100000 * T) d) as [P'|P']; [lia|].
    rewrite (bind_Ok _ _ _ _ _ E).
    rewrite (bind_Ok _ _ _ _ _
               (int_Ok (k + 1) (after st (d - k))
                  ltac:(unfold INT_MIN, INT_MAX, D_MAX in *; lia))).
    reflexivity.
Qed.

Theorem left_portion_spec T j d :
  1 <= T <= 21474 -> d <= D_MAX -> series j ->
  forall fuel k s st,
  0 <= k <= d -> (Z.to_nat (d - k) < fuel)%nat -> in_unit s = true ->
  ready st (d - k) ->
  T <= 1 \/ init st = true \/ d <= k + 100000 * T ->
  exists s',
    left_portion fuel T j d k s st
    = Ok ((d, s'), if k <? d then after st (d - k) else st)
    /\ in_unit s' = true.
Proof.
  intros HT HD Hj.
  induction fuel as [|fuel IH]; intros k s st Hk Hf Hs R RF; [lia|].
  destruct (Z.ltb_spec k d) as [C|C].
  - destruct (after_ready st (d - k) R ltac:(unfold D_MAX in HD; lia)) as [I R'].
    destruct (left_portion_step T j d k s st HT HD Hj ltac:(lia) Hs R RF)
      as (k' & s1 & Hk' & U1 & E).
    rewrite E.
    destruct (IH k' s1 (after st (d - k)) ltac:(lia) ltac:(lia) U1
                (R' (d - k') ltac:(lia)) ltac:(right; left; exact I))
      as (s' & E' & U').
    exists s'. split; [|exact U'].
    rewrite E'. f_equal. f_equal.
    destruct (Z.ltb_spec k' d); [|reflexivity].
    apply after_init. assumption.
  - assert (k = d) by lia. subst k. exists s. split; [|exact Hs].
    cbn [left_portion]. rewrite Z.ltb_irrefl. reflexivity.
Qed.

(** [bbpf16jsd] returns, and what it returns is in [0,1). *)
Theorem bbpf16jsd_spec fuel T j d st :
  1 <= T <= 21474 -> 0 <= d <= D_MAX -> series j -> (Z.to_nat d < fuel)%nat ->
  ready st d -> race_free T d st ->
  exists s,
    bbpf16jsd fuel T j d st = Ok (s, if 0 <? d then after st d else st)
    /\ in_unit s = true.
Proof.
  intros HT Hd Hj Hf R RF.
  assert (Hj' : 1 <= j <= 6) by (destruct Hj as [H|[H|[H|H]]]; subst j; lia).
  destruct (left_portion_spec T j d HT ltac:(lia) Hj fuel 0 0%float st
              ltac:(lia) ltac:(lia) in_unit_zero ltac:(rewrite Z.sub_0_r; exact R)
              ltac:(unfold race_free in RF; rewrite Z.add_0_l; exact RF))
    as (s1 & E & U).
  rewrite Z.sub_0_r in E.
  set (st1 := if 0 <? d then after st d else st) in *.
  destruct (right_portion_spec j d s1 st1 ltac:(lia) ltac:(lia)
              ltac:(unfold INT_MAX, D_MAX in *; lia) U) as (m & _ & E' & U' & _).
  exists (right_sum m j d d s1). split; [|exact U'].
  unfold bbpf16jsd. rewrite (bind_Ok _ _ _ _ _ E). exact E'.
Qed.
(** ** What expoMod does to its table, and where it reads *)

Local Open Scope Z_scope.

Lemma arith_ret {A} (a : A) : arith_only (ret a).
Proof. intros st. left. exists a. reflexivity. Qed.

Lemma arith_bind {A B} (c : M A) (f : A -> M B) :
  arith_only c -> (forall a, arith_only (f a)) -> arith_only (bind c f).
Proof.
  intros Hc Hf st. unfold bind. destruct (Hc st) as [[a ->]| ->].
  - apply Hf.
  - right. reflexivity.
Qed.

Lemma arith_cast x : arith_only (static_cast_int x).
Proof.
  intros st. unfold static_cast_int. destruct (truncD x) as [z|].
  - destruct (in_int z); [left; exists z|right]; reflexivity.
  - right. reflexivity.
Qed.

Lemma arith_mod_step r k : arith_only (mod_step r k).
Proof.
  unfold mod_step. apply arith_bind; [apply arith_cast|]. intros q. apply arith_ret.
Qed.

Lemma arith_expo_body k ntr : arith_only (expo_body k ntr).
Proof.
  destruct ntr as [[n t] r]. unfold expo_body.
  apply arith_bind.
  - destruct (Z2D t <=? n)%float; [|apply arith_ret].
    apply arith_bind; [apply arith_mod_step|]. intros r1. apply arith_ret.
  - intros [n1 r1]. destruct (1 <=? Z.quot t 2); [|apply arith_ret].
    apply arith_bind; [apply arith_mod_step|]. intros r2. apply arith_ret.
Qed.

Lemma arith_expo_loop k : forall count ntr, arith_only (expo_loop count k ntr).
Proof.
  induction count as [|count IH]; intros ntr; cbn [expo_loop].
  - apply arith_ret.
  - apply arith_bind; [apply arith_expo_body|]. intros ntr'. apply IH.
Qed.

Lemma load_keeps i st x st' : load i st = Ok (x, st') -> st' = st.
Proof.
  unfold load. destruct (_ && _); [|discriminate]. intros H. injection H as _ <-. reflexivity.
Qed.

Lemma int_keeps z st x st' : int z st = Ok (x, st') -> st' = st.
Proof.
  unfold int. destruct (in_int z); [|discriminate]. intros H. injection H as _ <-. reflexivity.
Qed.

Lemma scan_table_keeps n : forall fuel b st x st',
  scan_table fuel n b st = Ok (x, st') -> st' = st.
Proof.
  induction fuel as [|fuel IH]; intros b st x st'; cbn [scan_table]; [discriminate|].
  unfold bind. destruct (load b st) as [[y st1]| |] eqn:L; try discriminate.
  apply load_keeps in L. subst st1.
  destruct (Z2D y <? n)%float.
  - destruct (int (b + 1) st) as [[b1 st1]| |] eqn:I; try discriminate.
    apply int_keeps in I. subst st1. apply IH.
  - intros H. injection H as _ <-. reflexivity.
Qed.

(** Once the table is initialised a call that returns leaves the statics
    as they were. *)
Theorem expoMod_keeps_statics n k st r st' :
  init st = true -> expoMod n k st = Ok (r, st') -> st' = st.
Proof.
  intros I. unfold expoMod.
  assert (IT : init_table n st = Ok (tt, st)).
  { unfold init_table, bind, get_init. rewrite I. reflexivity. }
  rewrite (bind_Ok _ _ _ _ _ IT).
  rewrite (bind_Ok table_size _ _ (length (pwrtbl st)) st) by reflexivity.
  unfold bind at 1.
  destruct (scan_table _ n 0 st) as [[b st1]| |] eqn:S; try discriminate.
  apply scan_table_keeps in S. subst st1.
  unfold bind at 1.
  destruct (load b st) as [[x st1]| |] eqn:L; try discriminate.
  apply load_keeps in L. subst st1.
  unfold bind at 1.
  destruct ((if negb (Z2D x =? n)%float then int (b - 1) else ret b) st)
    as [[bits st1]| |] eqn:B; try discriminate.
  assert (st1 = st).
  { destruct (negb (Z2D x =? n)%float).
    - apply int_keeps in B. assumption.
    - injection B as _ <-. reflexivity. }
  subst st1. unfold bind at 1.
  destruct (load bits st) as [[t st1]| |] eqn:L2; try discriminate.
  apply load_keeps in L2. subst st1.
  unfold bind at 1.
  destruct (arith_expo_loop k (Z.to_nat (bits + 1)) (n, t, 1%float) st) as [[a E]|E];
    rewrite E; [|discriminate].
  intros H. injection H as _ <-. reflexivity.
Qed.

Lemma table_size_built N h :
  (h < N)%nat -> table_size (built N h) = Ok (N, built N h).
Proof.
  intros H. unfold table_size, built. cbn [pwrtbl]. rewrite table_length by assumption.
  reflexivity.
Qed.

(** Where the table reaches [n], every read is inside it. *)
Lemma expoMod_in_bounds N h n k :
  (h < N)%nat -> (h <= 30)%nat -> 1 <= n <= 2 ^ Z.of_nat h ->
  (exists r, expoMod (Z2D n) k (built N h) = Ok (r, built N h))
  \/ expoMod (Z2D n) k (built N h) = Undefined DoubleToInt.
Proof.
  intros HN H30 Hn.
  pose proof (pow2_le_2_30 (Z.of_nat h) ltac:(lia)) as Bh.
  assert (HB : 0 <= Z.log2_up n <= Z.of_nat h).
  { split; [apply Z.log2_up_nonneg|apply Z.log2_up_le_pow2; lia]. }
  unfold expoMod.
  rewrite (bind_Ok _ _ _ _ _ (init_table_built N h (Z2D n))).
  rewrite (bind_Ok _ _ _ _ _ (table_size_built N h HN)).
  rewrite (bind_Ok _ _ _ _ _
             (scan_table_spec (built N h) N h n eq_refl HN H30 Hn (S N) 0
                ltac:(lia) ltac:(lia))).
  rewrite (bind_Ok _ _ _ _ _
             (load_low (built N h) N h (Z.log2_up n) eq_refl HN ltac:(lia))).
  pose proof (pow2_le_2_30 (Z.log2_up n) ltac:(lia)) as BB.
  rewrite Z2D_eqb by lia.
  pose proof (log2_of_log2_up n ltac:(lia)) as EL.
  pose proof (Z.log2_nonneg n) as L0.
  assert (LB : Z.log2 n <= Z.of_nat h).
  { destruct (2 ^ Z.log2_up n =? n); lia. }
  assert (Bits : (if negb (2 ^ Z.log2_up n =? n) then int (Z.log2_up n - 1)
                  else ret (Z.log2_up n)) (built N h) = Ok (Z.log2 n, built N h)).
  { rewrite EL. destruct (2 ^ Z.log2_up n =? n) eqn:C; cbn [negb]; [reflexivity|].
    apply int_Ok. unfold INT_MIN, INT_MAX. lia. }
  rewrite (bind_Ok _ _ _ _ _ Bits).
  rewrite (bind_Ok _ _ _ _ _
             (load_low (built N h) N h (Z.log2 n) eq_refl HN ltac:(lia))).
  unfold bind.
  destruct (arith_expo_loop k (Z.to_nat (Z.log2 n + 1)) (Z2D n, 2 ^ Z.log2 n, 1%float)
              (built N h)) as [[a E]|E]; rewrite E.
  - left. eexists. reflexivity.
  - right. reflexivity.
Qed.

(** Below 1 the scan stops at once and the index steps back to -1. *)
Lemma expoMod_below_one N h n k :
  (h < N)%nat -> - 2 ^ 53 <= n < 1 ->
  expoMod (Z2D n) k (built N h) = Undefined (OutOfBoundsRead (-1)).
Proof.
  intros HN Hn. unfold expoMod.
  rewrite (bind_Ok _ _ _ _ _ (init_table_built N h (Z2D n))).
  rewrite (bind_Ok _ _ _ _ _ (table_size_built N h HN)).
  assert (L0 : load 0 (built N h) = Ok (1, built N h)).
  { apply (load_low (built N h) N h 0 eq_refl HN). lia. }
  assert (S0 : scan_table (S N) (Z2D n) 0 (built N h) = Ok (0, built N h)).
  { cbn [scan_table]. rewrite (bind_Ok _ _ _ _ _ L0).
    rewrite Z2D_ltb by lia. destruct (Z.ltb_spec 1 n); [lia|reflexivity]. }
  rewrite (bind_Ok _ _ _ _ _ S0), (bind_Ok _ _ _ _ _ L0).
  rewrite Z2D_eqb by lia. destruct (Z.eqb_spec 1 n); [lia|]. cbn [negb].
  rewrite (bind_Ok _ _ _ _ _ (int_Ok (0 - 1) _ ltac:(unfold INT_MIN, INT_MAX; lia))).
  apply bind_Undefined. apply (load_oob (built N h) N h (0 - 1) eq_refl HN). lia.
Qed.

(** Past the table's last power the scan runs through the zeros of static
    storage and off the end of the array. *)
Lemma expoMod_past_table N h n k :
  (h < N)%nat -> (h <= 30)%nat -> (N <= 64)%nat -> 2 ^ Z.of_nat h < n <= 2 ^ 53 ->
  expoMod (Z2D n) k (built N h) = Undefined (OutOfBoundsRead (Z.of_nat N)).
Proof.
  intros HN H30 N64 Hn. unfold expoMod.
  rewrite (bind_Ok _ _ _ _ _ (init_table_built N h (Z2D n))).
  rewrite (bind_Ok _ _ _ _ _ (table_size_built N h HN)).
  apply bind_Undefined.
  apply (scan_table_oob (built N h) N h n eq_refl HN H30 N64 Hn); lia.
Qed.
(** ** The combination of the four series *)

Local Open Scope Q_scope.

Lemma truncD_finite x :
  finiteD x = true ->
  exists z, truncD x = Some z /\ inject_Z (Z.abs z) <= Qabs (D2Q x).
Proof.
  unfold finiteD, truncD, D2Q.
  destruct (Prim2SF x) as [s|s| |s m e]; try discriminate; intros _.
  - exists 0%Z. split; [reflexivity|]. cbn. apply Qle_refl.
  - exists (if s then (- Qfloor (inject_Z (Zpos m) * pow2 e))%Z
            else Qfloor (inject_Z (Zpos m) * pow2 e)).
    split; [apply trunc_SF_abs; reflexivity|].
    rewrite Qabs_SF2Q.
    assert (P : 0 <= inject_Z (Zpos m) * pow2 e).
    { apply Qmult_le_0_compat; [apply Z2Q_nonneg; lia|apply Qlt_le_weak, pow2_gt_0]. }
    assert (F0 : (0 <= Qfloor (inject_Z (Zpos m) * pow2 e))%Z).
    { rewrite <- (Qfloor_Z 0). apply Qfloor_resp_le. exact P. }
    replace (Z.abs (if s then (- Qfloor (inject_Z (Zpos m) * pow2 e))%Z
                    else Qfloor (inject_Z (Zpos m) * pow2 e)))
      with (Qfloor (inject_Z (Zpos m) * pow2 e)) by (destruct s; lia).
    apply Qfloor_le.
Qed.

Lemma four_Z2D : 4%float = Z2D 4.
Proof. reflexivity. Qed.

Lemma two_Z2D : 2%float = Z2D 2.
Proof. reflexivity. Qed.

(** A small multiple of a double of [0,1). *)
Lemma scale_unit c S :
  (0 <= c <= 4)%Z -> in_unit S = true ->
  finiteD (Z2D c * S) = true /\ 0 <= D2Q (Z2D c * S) /\ D2Q (Z2D c * S) <= inject_Z c.
Proof.
  intros Hc HS. apply in_unit_iff in HS. destruct HS as (F & S0 & S1).
  pose proof (Z2D_value c ltac:(lia)) as Vc.
  pose proof (Z2Q_nonneg c ltac:(lia)) as C0.
  assert (C4 : inject_Z c <= 4) by (change 4 with (inject_Z 4); rewrite <- Zle_Qle; lia).
  assert (P0 : 0 <= D2Q (Z2D c) * D2Q S) by (rewrite Vc; apply Qmult_le_0_compat; assumption).
  assert (P1 : D2Q (Z2D c) * D2Q S <= inject_Z c).
  { rewrite Vc. rewrite <- (Qmult_1_r (inject_Z c)) at 2.
    rewrite !(Qmult_comm (inject_Z c)). apply Qmult_le_compat_r; [|exact C0].
    apply Qlt_le_weak. exact S1. }
  destruct (mul_correct (Z2D c) S (Z2D_finite c ltac:(lia)) F) as (Fm & _ & Vm).
  - apply pow2_big_1023. apply Qabs_le_nonneg; [exact P0|]. apply Qle_trans with (inject_Z c); assumption.
  - split; [exact Fm|]. rewrite Vm. split.
    + apply RN_nonneg. exact P0.
    + apply RN_le_int; [lia|exact P1].
Qed.

(** Taking a double of [0,1) from a double of [lo,hi]. *)
Lemma sub_unit x S lo hi :
  (-3 <= lo)%Z -> (hi <= 4)%Z ->
  finiteD x = true -> inject_Z lo <= D2Q x -> D2Q x <= inject_Z hi ->
  in_unit S = true ->
  finiteD (x - S) = true /\ inject_Z (lo - 1) <= D2Q (x - S) /\ D2Q (x - S) <= inject_Z hi.
Proof.
  intros Hlo Hhi F L H HS. apply in_unit_iff in HS. destruct HS as (FS & S0 & S1).
  assert (Lq : -3 <= inject_Z lo) by (change (-3) with (inject_Z (-3)); rewrite <- Zle_Qle; lia).
  assert (Hq : inject_Z hi <= 4) by (change 4 with (inject_Z 4); rewrite <- Zle_Qle; lia).
  assert (LH : (lo <= hi)%Z) by (rewrite Zle_Qle; apply Qle_trans with (D2Q x); assumption).
  assert (E1 : inject_Z (lo - 1) == inject_Z lo - 1).
  { unfold Z.sub. rewrite inject_Z_plus. reflexivity. }
  destruct (sub_correct x S F FS) as (Fm & Vm).
  - apply pow2_big_1023. apply Qabs_Qle_condition. split; lra.
  - split; [exact Fm|]. rewrite Vm. split.
    + apply RN_ge_int; [lia|]. rewrite E1. lra.
    + apply RN_le_int; [lia|]. lra.
Qed.

(** The raw combination of four doubles of [0,1) is a double of [-4,4]. *)
Lemma raw_bounds S1 S4 S5 S6 :
  in_unit S1 = true -> in_unit S4 = true -> in_unit S5 = true -> in_unit S6 = true ->
  finiteD (4 * S1 - 2 * S4 - S5 - S6)%float = true
  /\ -4 <= D2Q (4 * S1 - 2 * S4 - S5 - S6)%float
  /\ D2Q (4 * S1 - 2 * S4 - S5 - S6)%float <= 4.
Proof.
  intros H1 H4 H5 H6. rewrite four_Z2D, two_Z2D.
  destruct (scale_unit 4 S1 ltac:(lia) H1) as (Fa & A0 & A4).
  destruct (scale_unit 2 S4 ltac:(lia) H4) as (Fb & B0 & B2).
  destruct (sub_correct _ _ Fa Fb) as (F1 & V1).
  { apply pow2_big_1023. apply Qabs_Qle_condition.
    change (inject_Z 4) with 4 in *. change (inject_Z 2) with 2 in *. split; lra. }
  assert (L1 : inject_Z (-2) <= D2Q (Z2D 4 * S1 - Z2D 2 * S4)%float).
  { rewrite V1. apply RN_ge_int; [lia|].
    change (inject_Z 4) with 4 in *. change (inject_Z 2) with 2 in *.
    change (inject_Z (-2)) with (-2). lra. }
  assert (U1 : D2Q (Z2D 4 * S1 - Z2D 2 * S4)%float <= inject_Z 4).
  { rewrite V1. apply RN_le_int; [lia|].
    change (inject_Z 4) with 4 in *. change (inject_Z 2) with 2 in *. lra. }
  destruct (sub_unit _ S5 (-2) 4 ltac:(lia) ltac:(lia) F1 L1 U1 H5) as (F2 & L2 & U2).
  destruct (sub_unit _ S6 (-3) 4 ltac:(lia) ltac:(lia) F2 L2 U2 H6) as (F3 & L3 & U3).
  split; [exact F3|]. split; [exact L3|exact U3].
Qed.

(** What bbpfCalc writes from four series values of [0,1): the raw
    combination less its integer part (truncated toward zero), plus 1. *)
Theorem combine_spec S1 S4 S5 S6 st :
  in_unit S1 = true -> in_unit S4 = true -> in_unit S5 = true -> in_unit S6 = true ->
  exists i,
    truncD (4 * S1 - 2 * S4 - S5 - S6)%float = Some i
    /\ (-4 <= i <= 4)%Z
    /\ combine S1 S4 S5 S6 st = Ok ((4 * S1 - 2 * S4 - S5 - S6 - Z2D i + 1)%float, st)
    /\ finiteD (4 * S1 - 2 * S4 - S5 - S6 - Z2D i + 1)%float = true
    /\ D2Q (4 * S1 - 2 * S4 - S5 - S6 - Z2D i)%float
       == D2Q (4 * S1 - 2 * S4 - S5 - S6)%float - inject_Z i
    /\ (0 <= D2Q (4 * S1 - 2 * S4 - S5 - S6)%float ->
        i = Qfloor (D2Q (4 * S1 - 2 * S4 - S5 - S6)%float)
        /\ 1 <= D2Q (4 * S1 - 2 * S4 - S5 - S6 - Z2D i + 1)%float
        /\ D2Q (4 * S1 - 2 * S4 - S5 - S6 - Z2D i + 1)%float <= 2)
    /\ (D2Q (4 * S1 - 2 * S4 - S5 - S6)%float < 0 ->
        0 <= D2Q (4 * S1 - 2 * S4 - S5 - S6 - Z2D i + 1)%float
        /\ D2Q (4 * S1 - 2 * S4 - S5 - S6 - Z2D i + 1)%float <= 1).
Proof.
  intros H1 H4 H5 H6.
  destruct (raw_bounds S1 S4 S5 S6 H1 H4 H5 H6) as (F & L & U).
  set (raw := (4 * S1 - 2 * S4 - S5 - S6)%float) in *.
  destruct (truncD_finite raw F) as (i & T & A).
  assert (Hi : (-4 <= i <= 4)%Z).
  { assert (Qabs (D2Q raw) <= 4) by (apply Qabs_Qle_condition; split; lra).
    assert (I4 : inject_Z (Z.abs i) <= inject_Z 4) by (change (inject_Z 4) with 4; lra).
    rewrite <- Zle_Qle in I4. lia. }
  destruct (sub_trunc_exact raw i F T ltac:(lia)) as (Ff & Vf & P & N).
  assert (V1 : D2Q 1 == 1) by reflexivity.
  assert (F1 : finiteD 1 = true) by reflexivity.
  destruct (add_correct (raw - Z2D i) 1 Ff F1) as (Fw & Vw).
  { apply pow2_big_1023. rewrite V1, Vf. apply Qabs_Qle_condition.
    destruct (Qlt_le_dec (D2Q raw) 0) as [C|C].
    - pose proof (N (Qlt_le_weak _ _ C)). split; lra.
    - pose proof (proj2 (P C)). split; lra. }
  exists i. split; [exact T|]. split; [exact Hi|]. split.
  { unfold combine. fold raw.
    rewrite (bind_Ok _ _ _ _ _
               (static_cast_int_Ok _ _ st T ltac:(unfold INT_MIN, INT_MAX; lia))).
    reflexivity. }
  split; [exact Fw|]. split; [exact Vf|]. split.
  - intros C. destruct (P C) as (Ei & B0 & B1). split; [exact Ei|].
    rewrite Vw, V1, Vf. split.
    + change 1 with (inject_Z 1) at 1. apply RN_ge_int; [lia|]. change (inject_Z 1) with 1. lra.
    + change 2 with (inject_Z 2). apply RN_le_int; [lia|]. change (inject_Z 2) with 2. lra.
  - intros C. pose proof (N (Qlt_le_weak _ _ C)) as (B0 & B1).
    rewrite Vw, V1, Vf. split.
    + apply RN_nonneg. lra.
    + change 1 with (inject_Z 1) at 2. apply RN_le_int; [lia|]. change (inject_Z 1) with 1. lra.
Qed.
(** ** toHex *)

Local Open Scope Q_scope.

Lemma frac_bounds q : 0 <= frac q /\ frac q < 1.
Proof. apply Qfloor_frac_bounds. Qed.

Lemma frac_comp q r : q == r -> frac q == frac r.
Proof. intros E. unfold frac. rewrite (Qfloor_comp _ _ E), E. reflexivity. Qed.

Lemma Qfloor_shift q z : Qfloor (q + inject_Z z) = (Qfloor q + z)%Z.
Proof.
  pose proof (Qfloor_le q). pose proof (Qlt_floor q) as L.
  rewrite inject_Z_plus in L. change (inject_Z 1) with 1 in L.
  apply Qfloor_unique; rewrite inject_Z_plus; lra.
Qed.

Lemma frac_shift q z : frac (q + inject_Z z) == frac q.
Proof. unfold frac. rewrite Qfloor_shift, inject_Z_plus. ring. Qed.

(** The leading hexadecimal digit of a fraction. *)
Lemma Qfloor_16_frac r :
  Qfloor (16 * frac r) = (Qfloor (r * 16) mod 16)%Z.
Proof.
  destruct (frac_bounds r) as [F0 F1].
  assert (B : (0 <= Qfloor (16 * frac r) < 16)%Z).
  { pose proof (Qfloor_range (16 * frac r) 0 16) as R.
    assert (16 * frac r < 16) by lra.
    assert (Qfloor (16 * frac r) <> 16%Z).
    { intros E. pose proof (Qfloor_le (16 * frac r)) as L. rewrite E in L.
      change (inject_Z 16) with 16 in L. lra. }
    specialize (R ltac:(change (inject_Z 0) with 0; lra)
                  ltac:(change (inject_Z 16) with 16; lra)). lia. }
  assert (E : r * 16 == 16 * frac r + inject_Z (16 * Qfloor r)).
  { unfold frac. rewrite inject_Z_mult. change (inject_Z 16) with 16. ring. }
  rewrite (Qfloor_comp _ _ E), Qfloor_shift.
  rewrite (Z.mul_comm 16), Z.mod_add by lia.
  symmetry. apply Z.mod_small. exact B.
Qed.

Lemma frac_16_frac r : frac (16 * frac r) == frac (r * 16).
Proof.
  assert (E : r * 16 == 16 * frac r + inject_Z (16 * Qfloor r)).
  { unfold frac. rewrite inject_Z_mult. change (inject_Z 16) with 16. ring. }
  rewrite (frac_comp _ _ E), frac_shift. reflexivity.
Qed.

Lemma frac_frac q r : frac q == frac r -> frac (16 * frac q) == frac (16 * frac r).
Proof. intros E. apply frac_comp. rewrite E. reflexivity. Qed.

(** A finite double is a mantissa below 2^53 at an exponent from -1074. *)
Lemma finite_repr y :
  finiteD y = true ->
  exists M e, (- 2 ^ 53 < M < 2 ^ 53)%Z /\ (-1074 <= e)%Z
              /\ D2Q y == inject_Z M * pow2 e.
Proof.
  unfold finiteD, D2Q.
  destruct (Prim2SF y) as [s|s| |s m e] eqn:Py; try discriminate; intros _.
  - exists 0%Z, 0%Z. split; [lia|split; [lia|]]. cbn [SF2Q]. ring.
  - destruct (valid_prim_finite _ _ _ _ Py) as [Hm He].
    exists (if s then Zneg m else Zpos m), e.
    split; [destruct s; lia|split; [lia|]]. apply SF2Q_finite.
Qed.

(** Multiplying a double of [-1,1] by 16 is exact. *)
Lemma mul16_exact y :
  finiteD y = true -> Qabs (D2Q y) <= 1 ->
  finiteD (16 * y) = true /\ D2Q (16 * y) == 16 * D2Q y.
Proof.
  intros F B. rewrite sixteen.
  pose proof (Z2D_value 16 ltac:(lia)) as V16. change (inject_Z 16) with 16 in V16.
  destruct (mul_correct (Z2D 16) y (Z2D_finite 16 ltac:(lia)) F) as (Fm & _ & Vm).
  - rewrite V16, Qabs_Qmult. change (Qabs 16) with 16.
    apply Qle_lt_trans with (pow2 4); [change (pow2 4) with 16; lra|].
    apply pow2_lt. lia.
  - split; [exact Fm|]. rewrite Vm, V16.
    destruct (finite_repr y F) as (M & e & HM & He & E).
    assert (E16 : 16 * D2Q y == inject_Z M * pow2 (e + 4)).
    { rewrite E, pow2_add. change (pow2 4) with 16. ring. }
    rewrite (RN_comp _ _ E16), E16. apply RN_exact; lia.
Qed.

(** [std::floor] of a finite double is the double of the floor. *)
Lemma floor_correct x :
  finiteD x = true ->
  finiteD (floor x) = true /\ D2Q (floor x) == inject_Z (Qfloor (D2Q x)).
Proof.
  intros F.
  assert (Int : (exists z, D2Q x == inject_Z z) ->
                finiteD x = true /\ D2Q x == inject_Z (Qfloor (D2Q x))).
  { intros [z Ez]. split; [exact F|].
    rewrite (Qfloor_comp _ _ Ez), Qfloor_Z. exact Ez. }
  unfold floor.
  destruct (Prim2SF x) as [s|s| |s m e] eqn:Px;
    try (unfold finiteD in F; rewrite Px in F; discriminate).
  - cbn [floor_SF]. apply Int. exists 0%Z. unfold D2Q. rewrite Px. reflexivity.
  - destruct (valid_prim_finite _ _ _ _ Px) as [Hm He].
    destruct e as [|p|p].
    + cbn [floor_SF]. apply Int. exists (if s then Zneg m else Zpos m).
      unfold D2Q. rewrite Px, SF2Q_finite. change (pow2 0) with 1. ring.
    + cbn [floor_SF]. apply Int.
      exists ((if s then Zneg m else Zpos m) * 2 ^ Zpos p)%Z.
      unfold D2Q. rewrite Px, SF2Q_finite. apply inject_Z_pow2. lia.
    + cbn [floor_SF]. set (z := if s then Zneg m else Zpos m).
      assert (P2 : (0 < 2 ^ Zpos p)%Z) by (apply Z.pow_pos_nonneg; lia).
      assert (Hz : (- 2 ^ 53 < z < 2 ^ 53)%Z) by (unfold z; destruct s; lia).
      assert (Hq : (- 2 ^ 53 <= Z.shiftr z (Zpos p) <= 2 ^ 53)%Z).
      { rewrite Z.shiftr_div_pow2 by lia. split.
        - apply Z.div_le_lower_bound; [exact P2|]. nia.
        - apply Z.div_le_upper_bound; [exact P2|]. nia. }
      destruct (Z2D_correct _ Hq) as (Fz & _ & Vz).
      split; [exact Fz|]. rewrite Vz.
      unfold D2Q. rewrite Px, SF2Q_finite. fold z.
      rewrite Z.shiftr_div_pow2 by lia. rewrite Zdiv_Qdiv.
      rewrite (Qfloor_comp (inject_Z z / inject_Z (2 ^ Zpos p))
                 (inject_Z z * pow2 (Zneg p))); [reflexivity|].
      change (Zneg p) with (- Zpos p)%Z. rewrite pow2_opp, pow2_Z by lia. reflexivity.
Qed.

(** [x - std::floor(x)] is the rounded fractional part, a double of [0,1]. *)
Lemma floor_sub_RN x :
  finiteD x = true ->
  finiteD (x - floor x) = true
  /\ D2Q (x - floor x) == RN (frac (D2Q x))
  /\ 0 <= D2Q (x - floor x) /\ D2Q (x - floor x) <= 1.
Proof.
  intros F. destruct (floor_correct x F) as (Ff & Vf).
  destruct (frac_bounds (D2Q x)) as [B0 B1].
  destruct (sub_correct x (floor x) F Ff) as (Fs & Vs).
  - rewrite Vf. fold (frac (D2Q x)). apply pow2_big_1023.
    apply Qabs_le_nonneg; lra.
  - rewrite Vf in Vs. fold (frac (D2Q x)) in Vs.
    split; [exact Fs|split; [exact Vs|]]. rewrite Vs. split.
    + apply RN_nonneg. exact B0.
    + change 1 with (inject_Z 1). apply RN_le_int; [lia|].
      change (inject_Z 1) with 1. lra.
Qed.

(** For a non-negative double the subtraction is exact. *)
Lemma floor_sub_nonneg x :
  finiteD x = true -> 0 <= D2Q x ->
  finiteD (x - floor x) = true /\ D2Q (x - floor x) == frac (D2Q x).
Proof.
  intros F P. destruct (floor_sub_RN x F) as (Fs & Vs & _).
  split; [exact Fs|].
  destruct (Qlt_le_dec (pow2 53) (D2Q x)) as [Big|Small].
  - (* an integer *)
    assert (Z : frac (D2Q x) == 0).
    { revert Big. unfold D2Q, finiteD in *.
      destruct (Prim2SF x) as [s|s| |s m e] eqn:Px; try discriminate F.
      { intros Big. cbn [SF2Q] in Big. pose proof (pow2_gt_0 53). lra. }
      intros Big.
      destruct (valid_prim_finite _ _ _ _ Px) as [Hm He].
      assert (s = false).
      { destruct s; [|reflexivity]. exfalso. rewrite SF2Q_sign in P.
        pose proof (pow2_gt_0 e). assert (0 < inject_Z (Zpos m)) by reflexivity. nra. }
      subst s. cbn [SF2Q] in *.
      assert (0 <= e)%Z.
      { destruct (Z_lt_le_dec e 0) as [N|N]; [|exact N]. exfalso.
        assert (pow2 e <= pow2 0) by (apply pow2_le; lia).
        change (pow2 0) with 1 in *.
        assert (inject_Z (Zpos m) < pow2 53) by (rewrite pow2_Z, <- Zlt_Qlt by lia; lia).
        pose proof (pow2_gt_0 e). assert (0 < inject_Z (Zpos m)) by reflexivity. nra. }
      assert (E : inject_Z (Zpos m) * pow2 e == inject_Z (Zpos m * 2 ^ e))
        by (apply inject_Z_pow2; assumption).
      unfold frac. rewrite (Qfloor_comp _ _ E), Qfloor_Z, E. ring. }
    rewrite Vs, Z. apply RN_0.
  - destruct (floor_sub_exact x F P Small) as (_ & V). exact V.
Qed.

Lemma Qabs_unit q : 0 <= q -> q <= 1 -> Qabs q <= 1.
Proof. intros. apply Qabs_le_nonneg; assumption. Qed.

(** One turn of the loop of toHex on a finite double. *)
Lemma toHex_turn x st :
  finiteD x = true ->
  finiteD (16 * (x - floor x)) = true
  /\ D2Q (16 * (x - floor x)) == 16 * D2Q (x - floor x)
  /\ 0 <= D2Q (16 * (x - floor x))
  /\ D2Q (16 * (x - floor x)) <= 16
  /\ static_cast_int (16 * (x - floor x)) st
     = Ok (Qfloor (D2Q (16 * (x - floor x))), st).
Proof.
  intros F. destruct (floor_sub_RN x F) as (Fs & _ & S0 & S1).
  destruct (mul16_exact _ Fs (Qabs_unit _ S0 S1)) as (Fm & Vm).
  assert (P : 0 <= D2Q (16 * (x - floor x))) by (rewrite Vm; lra).
  assert (U : D2Q (16 * (x - floor x)) <= 16) by (rewrite Vm; lra).
  split; [exact Fm|split; [exact Vm|split; [exact P|split; [exact U|]]]].
  apply static_cast_int_Ok; [apply truncD_nonneg; assumption|].
  pose proof (Qfloor_range _ 0 16 P U). unfold INT_MIN, INT_MAX. lia.
Qed.

Lemma hex_char_digit z : (0 <= z < 16)%Z -> is_hex_digit (hex_char z) = true.
Proof.
  intros H.
  assert (C : (z = 0 \/ z = 1 \/ z = 2 \/ z = 3 \/ z = 4 \/ z = 5 \/ z = 6 \/ z = 7
               \/ z = 8 \/ z = 9 \/ z = 10 \/ z = 11 \/ z = 12 \/ z = 13 \/ z = 14
               \/ z = 15)%Z) by lia.
  repeat (destruct C as [->|C]; [reflexivity|]). subst z. reflexivity.
Qed.

Lemma hex_char_in z : (0 <= z <= 16)%Z -> In (hex_char z) hexNumbers.
Proof.
  intros H. unfold hex_char. apply nth_In.
  change (length hexNumbers) with 17%nat. lia.
Qed.

Lemma hex_digit_range q i : (0 <= hex_digit q i < 16)%Z.
Proof. unfold hex_digit. apply Z.mod_pos_bound. lia. Qed.

Lemma pow16_S i : inject_Z (16 ^ Z.of_nat (S i)) == inject_Z (16 ^ Z.of_nat i) * 16.
Proof.
  rewrite Nat2Z.inj_succ, Z.pow_succ_r by lia.
  rewrite inject_Z_mult. change (inject_Z 16) with 16. ring.
Qed.

(** The loop of toHex on a non-negative double writes the hexadecimal
    digits of its fraction, one per turn. *)
Lemma toHex_loop_digits q0 st : forall count i x,
  finiteD x = true -> 0 <= D2Q x ->
  frac (D2Q x) == frac (q0 * inject_Z (16 ^ Z.of_nat i)) ->
  exists x',
    toHex_loop count x st
    = Ok ((map (fun n => hex_char (hex_digit q0 n)) (seq i count), x'), st)
    /\ finiteD x' = true /\ 0 <= D2Q x' /\ (count <> O -> D2Q x' < 16).
Proof.
  induction count as [|count IH]; intros i x F P Inv.
  - exists x. split; [reflexivity|split; [exact F|split; [exact P|]]]. congruence.
  - cbn [toHex_loop seq map].
    destruct (toHex_turn x st F) as (F1 & V1 & P1 & U1 & C1).
    destruct (floor_sub_nonneg x F P) as (_ & Vs).
    set (r := q0 * inject_Z (16 ^ Z.of_nat i)) in *.
    assert (E1 : D2Q (16 * (x - floor x)) == 16 * frac r).
    { rewrite V1, Vs, Inv. reflexivity. }
    assert (R16 : r * 16 == q0 * inject_Z (16 ^ Z.of_nat (S i))).
    { unfold r. rewrite pow16_S. ring. }
    assert (D : Qfloor (D2Q (16 * (x - floor x))) = hex_digit q0 i).
    { rewrite (Qfloor_comp _ _ E1), Qfloor_16_frac. unfold hex_digit.
      rewrite (Qfloor_comp _ _ R16). reflexivity. }
    assert (L16 : D2Q (16 * (x - floor x)) < 16).
    { rewrite E1. destruct (frac_bounds r). lra. }
    rewrite (bind_Ok _ _ _ _ _ C1), D.
    pose proof (hex_digit_range q0 i) as HR.
    change (Z.of_nat (length hexNumbers)) with 17%Z.
    destruct (Z.leb_spec 0 (hex_digit q0 i)); [|lia].
    destruct (Z.ltb_spec (hex_digit q0 i) 17); [|lia].
    cbn [andb].
    destruct (IH (S i) (16 * (x - floor x))%float F1 P1) as (x' & E & F' & P' & U').
    { rewrite (frac_comp _ _ E1), frac_16_frac. apply frac_comp. exact R16. }
    rewrite (bind_Ok _ _ _ _ _ E). cbn [fst snd].
    destruct count as [|count'].
    + exists x'. split; [reflexivity|split; [exact F'|split; [exact P'|]]].
      intros _. cbn [toHex_loop] in E. injection E as E. subst x'. exact L16.
    + exists x'. split; [reflexivity|split; [exact F'|split; [exact P'|]]].
      intros _. apply U'. discriminate.
Qed.

Lemma RN_below_one : RN (1 - pow2 (-54)) == 1.
Proof. vm_compute. reflexivity. Qed.

Lemma map_hex_digits q i count :
  forallb is_hex_digit (map (fun n => hex_char (hex_digit q n)) (seq i count)) = true.
Proof.
  apply forallb_forall. intros c Hc. apply in_map_iff in Hc.
  destruct Hc as (n & <- & _). apply hex_char_digit. apply hex_digit_range.
Qed.

(** The first turn of toHex on any finite double stays inside hexNumbers;
    the turns after it write hexadecimal digits. *)
Lemma toHex_loop_finite x st count :
  finiteD x = true ->
  exists cs x',
    toHex_loop (S count) x st
    = Ok ((hex_char (Qfloor (D2Q (16 * (x - floor x)))) :: cs, x'), st)
    /\ (0 <= Qfloor (D2Q (16 * (x - floor x))) <= 16)%Z
    /\ length cs = count /\ forallb is_hex_digit cs = true.
Proof.
  intros F. destruct (toHex_turn x st F) as (F1 & V1 & P1 & U1 & C1).
  pose proof (Qfloor_range _ 0 16 P1 U1) as R.
  destruct (toHex_loop_digits (D2Q (16 * (x - floor x))) st count 0
              (16 * (x - floor x))%float F1 P1) as (x' & E & _).
  { apply frac_comp. change (inject_Z (16 ^ Z.of_nat 0)) with 1. ring. }
  exists (map (fun n => hex_char (hex_digit (D2Q (16 * (x - floor x))) n)) (seq 0 count)).
  exists x'. split; [|split; [exact R|split]].
  - cbn [toHex_loop]. rewrite (bind_Ok _ _ _ _ _ C1).
    change (Z.of_nat (length hexNumbers)) with 17%Z.
    destruct (Z.leb_spec 0 (Qfloor (D2Q (16 * (x - floor x))))); [|lia].
    destruct (Z.ltb_spec (Qfloor (D2Q (16 * (x - floor x)))) 17); [|lia].
    cbn [andb]. rewrite (bind_Ok _ _ _ _ _ E). reflexivity.
  - rewrite length_map, length_seq. reflexivity.
  - apply map_hex_digits.
Qed.

(** On an infinity or a NaN the first conversion to int is undefined. *)
Lemma toHex_loop_not_finite x st count :
  finiteD x = false -> toHex_loop (S count) x st = Undefined DoubleToInt.
Proof.
  intros F. cbn [toHex_loop]. apply bind_Undefined.
  unfold static_cast_int, truncD.
  assert (N : Prim2SF (16 * (x - floor x)) = S754_nan).
  { rewrite FloatAxioms.mul_spec, FloatAxioms.sub_spec. unfold floor.
    unfold finiteD in F.
    destruct (Prim2SF x) as [s|s| |s m e] eqn:Px; try discriminate F.
    - cbn [floor_SF]. rewrite Px. destruct s; reflexivity.
    - cbn [floor_SF]. rewrite Px. reflexivity. }
  rewrite N. reflexivity.
Qed.

(** Just below zero the fractional part rounds to 1. *)
Lemma floor_sub_below_zero x :
  finiteD x = true -> - pow2 (-54) <= D2Q x -> D2Q x < 0 ->
  D2Q (16 * (x - floor x)) == 16.
Proof.
  intros F L N.
  destruct (toHex_turn x (fresh 64) F) as (_ & V1 & _).
  destruct (floor_sub_RN x F) as (_ & Vs & _ & S1).
  assert (Fl : Qfloor (D2Q x) = (-1)%Z).
  { apply Qfloor_unique.
    - change (inject_Z (-1)) with (-1). assert (pow2 (-54) <= 1) by (vm_compute; discriminate).
      lra.
    - change (inject_Z (-1)) with (-1). lra. }
  assert (Fr : frac (D2Q x) == D2Q x + 1).
  { unfold frac. rewrite Fl. change (inject_Z (-1)) with (-1). ring. }
  assert (G : 1 <= D2Q (x - floor x)).
  { rewrite Vs, <- RN_below_one. apply RN_mono. rewrite Fr. lra. }
  rewrite V1. lra.
Qed.

Lemma string_length_of_list l : String.length (string_of_list_ascii l) = length l.
Proof. induction l as [|c l IH]; [reflexivity|]. cbn. rewrite IH. reflexivity. Qed.
(** ** Statics between the series, and the loops that do not return *)

Local Open Scope Z_scope.

(** The statics after a series has been evaluated are ready for the next
    one, which leaves them as they are and does not race. *)
Lemma series_statics st d :
  0 <= d <= D_MAX -> ready st d ->
  ready (if 0 <? d then after st d else st) d
  /\ (if 0 <? d
      then after (if 0 <? d then after st d else st) d
      else (if 0 <? d then after st d else st))
     = (if 0 <? d then after st d else st).
Proof.
  intros Hd R. unfold D_MAX in Hd. destruct (Z.ltb_spec 0 d) as [C|C].
  - destruct (after_ready st d R ltac:(lia)) as [I R'].
    split; [apply R'; lia|apply after_init; exact I].
  - split; [exact R|reflexivity].
Qed.

Lemma series_race_free T st d :
  1 <= T -> 0 <= d <= D_MAX -> ready st d -> race_free T d st ->
  race_free T d (if 0 <? d then after st d else st).
Proof.
  intros HT Hd R RF. unfold D_MAX in Hd. destruct (Z.ltb_spec 0 d) as [C|C].
  - right. left. apply after_ready; [exact R|lia].
  - exact RF.
Qed.

(** Without workers the loop of the left portion never advances. *)
Lemma left_portion_no_workers j d : forall fuel k s st,
  0 <= k < d -> d <= INT_MAX ->
  left_portion fuel 0 j d k s st = OutOfFuel.
Proof.
  unfold INT_MAX. induction fuel as [|fuel IH]; intros k s st Hk Hd; [reflexivity|].
  cbn [left_portion]. destruct (Z.ltb_spec k d) as [C|C]; [|lia].
  change (100000 * 0) with 0. change (to_uint 0) with 0.
  rewrite Z.add_0_r, !(to_uint_small k), (to_uint_small d) by lia.
  destruct (Z.ltb_spec k d) as [C'|C']; [|lia].
  change (Z.to_nat 0) with O. cbn [spawn_threads join_threads].
  unfold bind, ret, start_workers. cbn [Z.leb Z.compare andb]. cbv beta iota.
  apply IH; lia.
Qed.

(** At d = 2^28 the denominator [8 * k + j] of the right portion does not
    fit an [int]. *)
Lemma right_portion_overflow j s st :
  right_portion j 268435456 s st = Undefined SignedOverflow.
Proof. reflexivity. Qed.

(** A batch of two workers or more on an unbuilt table. *)
Lemma left_portion_race fuel T j d k s st :
  (k <? d) = true ->
  (to_uint (to_uint k + to_uint (100000 * T)) <? to_uint d) = true ->
  2 <= T -> init st = false ->
  left_portion (S fuel) T j d k s st = Undefined DataRace.
Proof.
  intros Hk Hg HT I. cbn [left_portion]. rewrite Hk, Hg.
  apply bind_Undefined. apply start_workers_race; assumption.
Qed.

(** Two workers or more, the table unbuilt and a first batch that fits
    below [d]: the first call of [expoMod] is made inside the workers. *)
Lemma bbpf16jsd_race fuel T j d st :
  2 <= T <= 21474 -> 0 <= d <= D_MAX -> init st = false -> 100000 * T < d ->
  bbpf16jsd (S fuel) T j d st = Undefined DataRace.
Proof.
  intros HT Hd I P. unfold bbpf16jsd. apply bind_Undefined.
  apply left_portion_race; [|rewrite guard_exact by lia| |exact I].
  - apply Z.ltb_lt. lia.
  - apply Z.ltb_lt. lia.
  - lia.
Qed.
(** ** bbpfCalc *)

Local Open Scope Q_scope.

(** The four series and their combination: a double of [0,2]. *)
Lemma bbpfCalc_spec fuel T place st :
  (1 <= T <= 21474)%Z -> (0 <= place <= D_MAX)%Z -> (Z.to_nat place < fuel)%nat ->
  ready st place -> race_free T place st ->
  exists w,
    bbpfCalc fuel T place st = Ok (w, if (0 <? place)%Z then after st place else st)
    /\ finiteD w = true /\ 0 <= D2Q w /\ D2Q w <= 2.
Proof.
  intros HT Hd Hf R RF.
  destruct (series_statics st place Hd R) as (R1 & A1).
  pose proof (series_race_free T st place ltac:(lia) Hd R RF) as RF1.
  set (st1 := if (0 <? place)%Z then after st place else st) in *.
  destruct (bbpf16jsd_spec fuel T 1 place st HT Hd ltac:(left; reflexivity) Hf R RF)
    as (S1 & E1 & U1).
  fold st1 in E1.
  destruct (bbpf16jsd_spec fuel T 4 place st1 HT Hd
              ltac:(right; left; reflexivity) Hf R1 RF1) as (S4 & E4 & U4).
  destruct (bbpf16jsd_spec fuel T 5 place st1 HT Hd
              ltac:(right; right; left; reflexivity) Hf R1 RF1) as (S5 & E5 & U5).
  destruct (bbpf16jsd_spec fuel T 6 place st1 HT Hd
              ltac:(right; right; right; reflexivity) Hf R1 RF1) as (S6 & E6 & U6).
  rewrite A1 in E4, E5, E6.
  destruct (combine_spec S1 S4 S5 S6 st1 U1 U4 U5 U6)
    as (i & _ & _ & E & Fw & _ & P & N).
  exists (4 * S1 - 2 * S4 - S5 - S6 - Z2D i + 1)%float. split.
  - unfold bbpfCalc.
    rewrite (bind_Ok _ _ _ _ _ E1), (bind_Ok _ _ _ _ _ E4),
            (bind_Ok _ _ _ _ _ E5), (bind_Ok _ _ _ _ _ E6).
    exact E.
  - split; [exact Fw|].
    destruct (Qlt_le_dec (D2Q (4 * S1 - 2 * S4 - S5 - S6)%float) 0) as [C|C].
    + destruct (N C). split; lra.
    + destruct (P C) as (_ & ? & ?). split; lra.
Qed.


(** ** Edge cases of expoMod and of the chunk evaluator *)

Local Open Scope Z_scope.

(** Past 2^30 the doubling of the table entries leaves int. *)
Lemma grow_table_overflow N n :
  2 ^ 30 < n <= 2 ^ 53 -> (31 <= N)%nat ->
  forall fuel h, (h <= 30)%nat -> (30 - h < fuel)%nat ->
  grow_table fuel (Z2D n) (building N h) = Undefined SignedOverflow.
Proof.
  intros Hn HN. induction fuel as [|fuel IH]; intros h Hh Hf; [lia|].
  cbn [grow_table].
  rewrite (bind_Ok get_highest _ _ (Z.of_nat h) (building N h)) by reflexivity.
  rewrite (bind_Ok (load (Z.of_nat h)) _ _ (2 ^ Z.of_nat h) (building N h))
    by (apply (load_low _ N h); [reflexivity|lia|lia]).
  rewrite Z2D_pow_ltb by lia.
  pose proof (pow2_le_2_30 (Z.of_nat h) ltac:(lia)) as B.
  destruct (Z.ltb_spec (2 ^ Z.of_nat h) n) as [C|C]; [|lia].
  rewrite (bind_Ok (load (Z.of_nat h)) _ _ (2 ^ Z.of_nat h) (building N h))
    by (apply (load_low _ N h); [reflexivity|lia|lia]).
  assert (E2 : 2 ^ Z.of_nat h * 2 = 2 ^ Z.of_nat (S h)).
  { rewrite Nat2Z.inj_succ, Z.pow_succ_r by lia. lia. }
  destruct (Nat.eq_dec h 30) as [->|Ne].
  - apply bind_Undefined. unfold int, in_int, INT_MIN, INT_MAX.
    change (2 ^ Z.of_nat 30 * 2) with (2 ^ 31).
    destruct (Z.leb_spec (2 ^ 31) (2 ^ 31 - 1)); [lia|].
    rewrite andb_false_r. reflexivity.
  - pose proof (pow2_le_2_30 (Z.of_nat (S h)) ltac:(lia)) as B'.
    rewrite (bind_Ok (int _) _ _ _ _
               (int_Ok (2 ^ Z.of_nat h * 2) _ ltac:(rewrite E2; unfold INT_MIN, INT_MAX; lia))).
    rewrite (bind_Ok (int _) _ _ _ _
               (int_Ok (Z.of_nat h + 1) _ ltac:(unfold INT_MIN, INT_MAX; lia))).
    rewrite E2. replace (Z.of_nat h + 1) with (Z.of_nat (S h)) by lia.
    rewrite (bind_Ok _ _ _ _ _ (store_building N h ltac:(lia))).
    rewrite (bind_Ok (int _) _ _ _ _
               (int_Ok (Z.of_nat (S h)) _ ltac:(unfold INT_MIN, INT_MAX; lia))).
    unfold set_highest at 1. rewrite bind_Ok with (a := tt)
      (st' := building N (S h)) by reflexivity.
    apply IH; lia.
Qed.

Lemma expoMod_first_overflow N n k :
  (31 <= N)%nat -> 2 ^ 30 < n <= 2 ^ 53 ->
  expoMod (Z2D n) k (fresh N) = Undefined SignedOverflow.
Proof.
  intros HN Hn. unfold expoMod. apply bind_Undefined. unfold init_table.
  rewrite (bind_Ok get_init _ _ false (fresh N)) by reflexivity.
  rewrite (bind_Ok _ _ _ _ _ (store_fresh N ltac:(lia))).
  rewrite (bind_Ok table_size _ _ N (building N 0))
    by (unfold table_size, building; cbn [pwrtbl]; rewrite table_length by lia; reflexivity).
  apply bind_Undefined. apply grow_table_overflow; [exact Hn|exact HN|lia|lia].
Qed.

Lemma expoMod_first_below_one N n k :
  (31 <= N)%nat -> - 2 ^ 53 <= n < 1 ->
  expoMod (Z2D n) k (fresh N) = Undefined (OutOfBoundsRead (-1)).
Proof.
  intros HN Hn.
  pose proof (expoMod_below_one N 0 n k ltac:(lia) Hn) as E.
  assert (L : Z.to_nat (Z.log2_up n) = 0%nat).
  { rewrite Z.log2_up_eqn0 by lia. reflexivity. }
  unfold expoMod in *.
  rewrite (bind_Ok _ _ _ _ _ (init_table_fresh N n ltac:(lia) ltac:(lia) ltac:(lia))).
  rewrite L. rewrite (bind_Ok _ _ _ _ _ (init_table_built N 0 (Z2D n))) in E.
  exact E.
Qed.

(** With the exponent 0 every ready table is read at index -1. *)
Lemma expoMod_zero_ready st n k :
  ready st n -> expoMod (Z2D 0) k st = Undefined (OutOfBoundsRead (-1)).
Proof.
  intros [->|[->|(N & h & -> & HN & _)]].
  - apply expoMod_first_below_one; lia.
  - apply expoMod_first_below_one; lia.
  - apply expoMod_below_one; [exact HN|lia].
Qed.

(** A chunk that runs past [d] stops at the term [k = d]. *)
Lemma chunk_loop_overrun bound j d :
  d < bound -> bound <= INT_MAX -> d <= D_MAX -> 1 <= j <= 6 ->
  forall count k s st,
  ready st (d - k) -> 0 <= k <= d -> (Z.to_nat (d - k) < count)%nat ->
  chunk_loop count bound j d k s st = Undefined (OutOfBoundsRead (-1)).
Proof.
  unfold INT_MAX, D_MAX. intros Hb HB Hd Hj.
  induction count as [|count IH]; intros k s st R Hk Hc; [lia|].
  cbn [chunk_loop]. destruct (Z.ltb_spec k bound); [|lia].
  destruct (Z.eq_dec k d) as [->|Ne].
  - apply bind_Undefined. unfold left_term.
    rewrite (bind_Ok _ _ _ _ _ (int_Ok (8 * d) st ltac:(unfold INT_MIN, INT_MAX; lia))).
    rewrite (bind_Ok _ _ _ _ _ (int_Ok (8 * d + j) st ltac:(unfold INT_MIN, INT_MAX; lia))).
    rewrite (bind_Ok _ _ _ _ _ (int_Ok (d - d) st ltac:(unfold INT_MIN, INT_MAX; lia))).
    apply bind_Undefined. rewrite Z.sub_diag.
    apply (expoMod_zero_ready st (d - d)). exact R.
  - rewrite (bind_Ok _ _ _ _ _
               (left_term_spec j d k s st R ltac:(lia) ltac:(lia) ltac:(lia)
                  ltac:(unfold K_MAX; lia))).
    rewrite (bind_Ok _ _ _ _ _
               (int_Ok (k + 1) (after st (d - k)) ltac:(unfold INT_MIN, INT_MAX; lia))).
    destruct (after_ready st (d - k) R ltac:(lia)) as [I R'].
    apply IH; [apply R'; lia|lia|lia].
Qed.
(** ** The series as functions of the worker count and the position *)

Local Open Scope Z_scope.

Lemma batch_ref_S T j d k :
  batch_ref (S T) j d k
  = chunk_sum (Z.to_nat 100000) j d k 0 :: batch_ref T j d (k + 100000).
Proof.
  unfold batch_ref. generalize (Z.to_nat 100000). intros c. cbn [seq map].
  replace (k + 100000 * Z.of_nat 0) with k by lia.
  apply (f_equal (cons (chunk_sum c j d k 0))).
  rewrite <- seq_shift, map_map. apply map_ext. intros i.
  replace (k + 100000 + 100000 * Z.of_nat i) with (k + 100000 * Z.of_nat (S i)) by lia.
  reflexivity.
Qed.

Lemma batch_ref_length T j d k : length (batch_ref T j d k) = T.
Proof. unfold batch_ref. rewrite length_map, length_seq. reflexivity. Qed.

Lemma batch_ref_unit j d :
  d <= D_MAX -> 1 <= j <= 6 ->
  forall T k, 0 <= k -> k + 100000 * Z.of_nat T <= d ->
  Forall (fun r => in_unit r = true) (batch_ref T j d k).
Proof.
  unfold D_MAX. intros HD Hj. induction T as [|T IH]; intros k Hk Hc.
  - constructor.
  - rewrite batch_ref_S. constructor.
    + apply chunk_sum_unit; [lia|lia|lia|exact in_unit_zero].
    + apply IH; lia.
Qed.

(** The workers of a batch return the sums of their chunks. *)
Lemma spawn_threads_ref j d :
  d <= D_MAX -> series j ->
  forall count k st,
  0 <= k -> k + 100000 * Z.of_nat count <= d -> ready st (d - k) ->
  spawn_threads count j d k st
  = Ok ((batch_ref count j d k, k + 100000 * Z.of_nat count),
        match count with O => st | S _ => after st (d - k) end).
Proof.
  intros HD Hj.
  induction count as [|count IH]; intros k st Hk Hd R.
  - cbn [spawn_threads]. rewrite Z.mul_0_r, Z.add_0_r. reflexivity.
  - cbn [spawn_threads]. rewrite batch_ref_S.
    rewrite (bind_Ok _ _ _ _ _
               (leftPortionThreaded_spec k j d st Hk ltac:(lia) HD Hj R)).
    rewrite (bind_Ok _ _ _ _ _
               (int_Ok (k + 100000) (after st (d - k))
                  ltac:(unfold INT_MIN, INT_MAX, D_MAX in *; lia))).
    destruct (after_ready st (d - k) R ltac:(unfold D_MAX in *; lia)) as [I R'].
    rewrite (bind_Ok _ _ _ _ _
               (IH (k + 100000) (after st (d - k)) ltac:(lia) ltac:(lia)
                   (R' (d - (k + 100000)) ltac:(lia)))).
    cbn [fst snd]. unfold ret. f_equal. f_equal.
    + f_equal. lia.
    + destruct count; [reflexivity|]. apply after_init. assumption.
Qed.

Lemma join_ref_snoc results r s :
  join_ref (results ++ [r]) s = join_ref results (drop_int (s + r)).
Proof. unfold join_ref. rewrite rev_app_distr. reflexivity. Qed.

(** The join loop folds the first [count] results from the last to the
    first. *)
Lemma join_threads_ref st : forall count results s,
  (count <= length results)%nat ->
  Forall (fun r => in_unit r = true) results -> in_unit s = true ->
  join_threads count results (Z.of_nat count - 1) s st
  = Ok (join_ref (firstn count results) s, st)
  /\ in_unit (join_ref (firstn count results) s) = true.
Proof.
  induction count as [|count IH]; intros results s HL HU Hs.
  - split; [reflexivity|exact Hs].
  - cbn [join_threads]. destruct (Z.ltb_spec (-1) (Z.of_nat (S count) - 1)); [|lia].
    replace (Z.to_nat (Z.of_nat (S count) - 1)) with count by lia.
    assert (Hr : in_unit (nth count results 0%float) = true).
    { rewrite Forall_forall in HU. apply HU. apply nth_In. lia. }
    pose proof (proj1 (in_unit_iff _) Hr) as (F & X0 & X1).
    destruct (accumulate_unit s _ st Hs F X0 ltac:(apply Qlt_le_weak; exact X1)) as (A & U).
    rewrite (bind_Ok _ _ _ _ _ A).
    replace (Z.of_nat (S count) - 1 - 1) with (Z.of_nat count - 1) by lia.
    assert (E : firstn (S count) results = firstn count results ++ [nth count results 0%float]).
    { clear -HL. revert results HL. induction count as [|c IHc]; intros [|x l] HL;
        cbn [length] in HL; try lia.
      - reflexivity.
      - cbn [firstn nth app]. f_equal. apply IHc. lia. }
    rewrite E, join_ref_snoc. apply IH; [lia|exact HU|exact U].
Qed.

(** Past the last digit position the function no longer looks at its fuel. *)
Lemma left_ref_fuel T j d : 1 <= T ->
  forall fuel fuel' k s,
  (Z.to_nat (d - k) < fuel)%nat -> (Z.to_nat (d - k) < fuel')%nat ->
  left_ref fuel T j d k s = left_ref fuel' T j d k s.
Proof.
  intros HT. induction fuel as [|fuel IH]; intros fuel' k s Hf Hf'; [lia|].
  destruct fuel' as [|fuel']; [lia|].
  cbn [left_ref]. destruct (Z.ltb_spec k d); [|reflexivity].
  destruct (Z.ltb_spec (k + 100000 * T) d); apply IH; lia.
Qed.

(** The left portion computes [left_ref]. *)
Lemma left_portion_ref T j d :
  1 <= T <= 21474 -> d <= D_MAX -> series j ->
  forall fuel k s st,
  0 <= k <= d -> (Z.to_nat (d - k) < fuel)%nat -> in_unit s = true ->
  ready st (d - k) ->
  T <= 1 \/ init st = true \/ d <= k + 100000 * T ->
  left_portion fuel T j d k s st
  = Ok ((d, left_ref fuel T j d k s), if k <? d then after st (d - k) else st)
  /\ in_unit (left_ref fuel T j d k s) = true.
Proof.
  intros HT HD Hj.
  assert (Hj' : 1 <= j <= 6) by (destruct Hj as [H|[H|[H|H]]]; subst j; lia).
  induction fuel as [|fuel IH]; intros k s st Hk Hf Hs R RF; [lia|].
  cbn [left_portion left_ref]. destruct (Z.ltb_spec k d) as [C|C].
  - rewrite guard_exact by lia.
    destruct (after_ready st (d - k) R ltac:(unfold D_MAX in HD; lia)) as [I R'].
    destruct (Z.ltb_spec (k + 100000 * T) d) as [P|P].
    + assert (W : start_workers T st = Ok (tt, st)).
      { apply start_workers_Ok.
        destruct RF as [H|[H|H]]; [left; exact H|right; exact H|lia]. }
      rewrite (bind_Ok _ _ _ _ _ W).
      pose proof (spawn_threads_ref j d HD Hj (Z.to_nat T) k st ltac:(lia) ltac:(lia) R) as E.
      rewrite (bind_Ok _ _ _ _ _ E).
      replace (uint_to_int (to_uint (T - 1))) with (Z.of_nat (Z.to_nat T) - 1).
      2:{ rewrite to_uint_small by lia. unfold uint_to_int, INT_MAX.
          destruct (Z.leb_spec (T - 1) (2 ^ 31 - 1)); lia. }
      destruct (Z.to_nat T) as [|T'] eqn:ET; [lia|].
      destruct (join_threads_ref (after st (d - k)) (S T') (batch_ref (S T') j d k) s
                  ltac:(rewrite batch_ref_length; lia)
                  (batch_ref_unit j d HD Hj' (S T') k ltac:(lia) ltac:(lia)) Hs) as (J & U1).
      rewrite firstn_all2 in J, U1 by (rewrite batch_ref_length; lia).
      rewrite (bind_Ok _ _ _ _ _ J).
      replace (k + 100000 * Z.of_nat (S T')) with (k + 100000 * T) by lia.
      destruct (IH (k + 100000 * T) _ (after st (d - k)) ltac:(lia) ltac:(lia) U1
                  (R' (d - (k + 100000 * T)) ltac:(lia)) ltac:(right; left; exact I))
        as (E' & U').
      split; [|exact U']. rewrite E'. f_equal. f_equal.
      destruct (Z.ltb_spec (k + 100000 * T) d); [|reflexivity].
      apply after_init. assumption.
    + destruct (seq_term_spec j d k s st R ltac:(lia) ltac:(unfold D_MAX in HD; lia)
                  ltac:(lia) ltac:(unfold D_MAX, K_MAX in *; lia) Hs) as (E & U).
      rewrite (bind_Ok _ _ _ _ _ E).
      rewrite (bind_Ok _ _ _ _ _
                 (int_Ok (k + 1) (after st (d - k))
                    ltac:(unfold INT_MIN, INT_MAX, D_MAX in *; lia))).
      destruct (IH (k + 1) _ (after st (d - k)) ltac:(lia) ltac:(lia) U
                  (R' (d - (k + 1)) ltac:(lia)) ltac:(right; left; exact I))
        as (E' & U').
      split; [|exact U']. rewrite E'. f_equal. f_equal.
      destruct (Z.ltb_spec (k + 1) d); [|reflexivity].
      apply after_init. assumption.
  - assert (k = d) by lia. subst k. split; [reflexivity|exact Hs].
Qed.

(** The right portion computes [right_ref]. *)
Lemma right_ref_sum j d : forall m count k s,
  (m < count)%nat ->
  (forall i, k <= i < k + Z.of_nat m -> (right_term_ref j d i <? 1e-17)%float = false) ->
  (right_term_ref j d (k + Z.of_nat m) <? 1e-17)%float = true ->
  right_ref count j d k s = right_sum m j d k s.
Proof.
  induction m as [|m IH]; intros count k s Hc B T.
  - destruct count as [|count]; [lia|]. cbn [right_ref right_sum].
    rewrite Z.add_0_r in T. rewrite T. reflexivity.
  - destruct count as [|count]; [lia|]. cbn [right_ref right_sum].
    rewrite (B k ltac:(lia)). apply IH; [lia| |].
    + intros i Hi. apply B. lia.
    + replace (k + 1 + Z.of_nat m) with (k + Z.of_nat (S m)) by lia. exact T.
Qed.

Lemma right_portion_ref j d s st :
  0 <= d -> 1 <= j -> 8 * (d + 15) + j <= INT_MAX -> in_unit s = true ->
  right_portion j d s st = Ok (right_ref 101 j d d s, st)
  /\ in_unit (right_ref 101 j d d s) = true.
Proof.
  intros Hd Hj HK Hs.
  destruct (right_portion_spec j d s st Hd Hj HK Hs) as (m & Hm & E & U & B & T).
  rewrite (right_ref_sum j d m 101 d s ltac:(lia) B (T (d + Z.of_nat m) ltac:(lia))).
  split; [exact E|exact U].
Qed.

(** bbpf16jsd computes [series_ref]. *)
Lemma bbpf16jsd_ref fuel T j d st :
  1 <= T <= 21474 -> 0 <= d <= D_MAX -> series j -> (Z.to_nat d < fuel)%nat ->
  ready st d -> race_free T d st ->
  bbpf16jsd fuel T j d st
  = Ok (series_ref T j d, if 0 <? d then after st d else st)
  /\ in_unit (series_ref T j d) = true.
Proof.
  intros HT Hd Hj Hf R RF.
  assert (Hj' : 1 <= j <= 6) by (destruct Hj as [H|[H|[H|H]]]; subst j; lia).
  destruct (left_portion_ref T j d HT ltac:(lia) Hj fuel 0 0%float st
              ltac:(lia) ltac:(lia) in_unit_zero ltac:(rewrite Z.sub_0_r; exact R)
              ltac:(unfold race_free in RF; rewrite Z.add_0_l; exact RF))
    as (E & U).
  rewrite Z.sub_0_r in E.
  rewrite (left_ref_fuel T j d ltac:(lia) fuel (S (Z.to_nat d)) 0 0%float
             ltac:(lia) ltac:(lia)) in E, U.
  destruct (right_portion_ref j d _ (if 0 <? d then after st d else st)
              ltac:(lia) ltac:(lia) ltac:(unfold INT_MAX, D_MAX in *; lia) U)
    as (E' & U').
  split; [|exact U'].
  unfold bbpf16jsd. rewrite (bind_Ok _ _ _ _ _ E). exact E'.
Qed.
(** ** The order of the four series *)

Local Open Scope Z_scope.

(** The series evaluated one after the other, in any order. *)
Lemma eval_series_ref fuel T place :
  1 <= T <= 21474 -> 0 <= place <= D_MAX -> (Z.to_nat place < fuel)%nat ->
  forall order st,
  (forall j, In j order -> series j) ->
  ready st place -> race_free T place st ->
  eval_series fuel T place order st
  = Ok (map (fun j => (j, series_ref T j place)) order,
        match order with
        | [] => st
        | _ :: _ => if 0 <? place then after st place else st
        end).
Proof.
  intros HT Hd Hf. induction order as [|j order IH]; intros st Hs R RF.
  - reflexivity.
  - cbn [eval_series map].
    destruct (bbpf16jsd_ref fuel T j place st HT Hd (Hs j (or_introl eq_refl)) Hf R RF)
      as (E & _).
    rewrite (bind_Ok _ _ _ _ _ E).
    destruct (series_statics st place Hd R) as (R1 & A1).
    pose proof (series_race_free T st place ltac:(lia) Hd R RF) as RF1.
    rewrite (bind_Ok _ _ _ _ _
               (IH _ (fun i Hi => Hs i (or_intror Hi)) R1 RF1)).
    unfold ret. f_equal. f_equal.
    destruct order; [reflexivity|exact A1].
Qed.

Lemma series_value_ref T place order j :
  In j order ->
  series_value (map (fun j => (j, series_ref T j place)) order) j
  = series_ref T j place.
Proof.
  intros H. unfold series_value. induction order as [|i order IH]; [destruct H|].
  cbn [map find fst]. destruct (Z.eqb_spec i j) as [->|Ne].
  - reflexivity.
  - destruct H as [H|H]; [congruence|]. apply IH. exact H.
Qed.
(** * The claims *)

Local Open Scope Z_scope.

(** C1, counterexample: 5 and 3 are in the ranges of the claim and
    16^5 mod 3 = 1, but after a call with the exponent 1, which builds the
    table for 1 only, expoMod(5, 3) scans past the end of the table and
    returns nothing. *)
Lemma expoMod_small_table_too_short :
  exists r st1,
    expoMod (Z2D 1) (Z2D 3) (fresh 64) = Ok (r, st1)
    /\ expoMod (Z2D 5) (Z2D 3) st1 = Undefined (OutOfBoundsRead 64)
    /\ 16 ^ 5 mod 3 = 1.
Proof.
  exists 1%float, (built 64 0). repeat split; vm_compute; reflexivity.
Qed.

(** C1, as amended: for every exponent 1 <= n <= 20 and every modulus
    1 <= k <= 10^6, expoMod(n, k), called on statics that are ready for n
    (the first call of the process, CPU or GPU table, or a table that an
    earlier call has built up to n or beyond), returns the double of
    16^n mod k, the power and the remainder being those of exact integers.
    The function works on the remainders only; the power 16^n appears in
    the reference alone. *)
Theorem expoMod_small_exact n k st :
  1 <= n <= 20 -> 1 <= k <= 10 ^ 6 -> ready st n ->
  expoMod (Z2D n) (Z2D k) st = Ok (Z2D (16 ^ n mod k), after st n).
Proof.
  intros Hn Hk R. apply expoMod_correct; [exact R|lia|unfold K_MAX; lia].
Qed.

Lemma expoMod_small_exact_witness :
  expoMod (Z2D 20) (Z2D 999983) (fresh 64)
  = Ok (Z2D (16 ^ 20 mod 999983), after (fresh 64) 20).
Proof.
  apply expoMod_small_exact; [lia|lia|left; reflexivity].
Defined.

(** C2, counterexample: at digit position 2 (requested position 3) the value
    written by bbpfCalc is above 1, not in [0,1): the raw combination is
    not negative there and 1 is added all the same. *)
Lemma bbpfCalc_above_one :
  exists w st,
    bbpfCalc 3 1 2 (fresh 64) = Ok (w, st)
    /\ (1 <? w)%float = true /\ in_unit w = false.
Proof.
  eexists. eexists. split; [vm_compute; reflexivity|split; vm_compute; reflexivity].
Qed.

(** C2, as amended: bbpfCalc evaluates the four series S1, S4, S5, S6 (the
    values of bbpf16jsd for j = 1, 4, 5, 6, each in [0,1)) and writes
    raw - trunc(raw) + 1, where raw = 4 S1 - 2 S4 - S5 - S6 in doubles and
    trunc is the conversion to int, toward zero; the subtraction is exact
    and 1 is added after the truncation whatever the sign of raw.  The
    value written is in [1,2] when raw is not negative and in [0,1] when it
    is; x - floor(x), the first operation of toHex, takes it into [0,1).
    The series are evaluated for a worker count 1 <= T <= 21474 and a
    position 0 <= d <= 11863283, on statics ready for d, with batches that do
    not race. *)
Theorem bbpfCalc_combination fuel T place st :
  1 <= T <= 21474 -> 0 <= place <= D_MAX -> (Z.to_nat place < fuel)%nat ->
  ready st place -> race_free T place st ->
  (forall S1 S4 S5 S6 st',
     in_unit S1 = true -> in_unit S4 = true -> in_unit S5 = true -> in_unit S6 = true ->
     exists i,
       truncD (4 * S1 - 2 * S4 - S5 - S6)%float = Some i
       /\ combine S1 S4 S5 S6 st' = Ok ((4 * S1 - 2 * S4 - S5 - S6 - Z2D i + 1)%float, st')
       /\ (D2Q (4 * S1 - 2 * S4 - S5 - S6 - Z2D i)%float
           == D2Q (4 * S1 - 2 * S4 - S5 - S6)%float - inject_Z i)%Q
       /\ ((0 <= D2Q (4 * S1 - 2 * S4 - S5 - S6)%float)%Q ->
           i = Qfloor (D2Q (4 * S1 - 2 * S4 - S5 - S6)%float)
           /\ (1 <= D2Q (4 * S1 - 2 * S4 - S5 - S6 - Z2D i + 1)%float)%Q
           /\ (D2Q (4 * S1 - 2 * S4 - S5 - S6 - Z2D i + 1)%float <= 2)%Q)
       /\ ((D2Q (4 * S1 - 2 * S4 - S5 - S6)%float < 0)%Q ->
           (0 <= D2Q (4 * S1 - 2 * S4 - S5 - S6 - Z2D i + 1)%float)%Q
           /\ (D2Q (4 * S1 - 2 * S4 - S5 - S6 - Z2D i + 1)%float <= 1)%Q)
       /\ in_unit ((4 * S1 - 2 * S4 - S5 - S6 - Z2D i + 1)
                   - floor (4 * S1 - 2 * S4 - S5 - S6 - Z2D i + 1))%float = true)
  /\ exists S1 S4 S5 S6,
       bbpf16jsd fuel T 1 place st
       = Ok (S1, if 0 <? place then after st place else st)
       /\ bbpf16jsd fuel T 4 place (if 0 <? place then after st place else st)
          = Ok (S4, if 0 <? place then after st place else st)
       /\ bbpf16jsd fuel T 5 place (if 0 <? place then after st place else st)
          = Ok (S5, if 0 <? place then after st place else st)
       /\ bbpf16jsd fuel T 6 place (if 0 <? place then after st place else st)
          = Ok (S6, if 0 <? place then after st place else st)
       /\ in_unit S1 = true /\ in_unit S4 = true /\ in_unit S5 = true
       /\ in_unit S6 = true
       /\ bbpfCalc fuel T place st
          = combine S1 S4 S5 S6 (if 0 <? place then after st place else st).
Proof.
  intros HT Hd Hf R RF. split.
  - intros S1 S4 S5 S6 st' H1 H4 H5 H6.
    destruct (combine_spec S1 S4 S5 S6 st' H1 H4 H5 H6)
      as (i & Ti & _ & E & Fw & V & P & N).
    exists i.
    split; [exact Ti|split; [exact E|split; [exact V|split; [exact P|split; [exact N|]]]]].
    set (w := (4 * S1 - 2 * S4 - S5 - S6 - Z2D i + 1)%float) in *.
    assert (W0 : (0 <= D2Q w)%Q).
    { destruct (Qlt_le_dec (D2Q (4 * S1 - 2 * S4 - S5 - S6)%float) 0) as [C|C].
      - apply (N C).
      - destruct (P C) as (_ & L & _). lra. }
    destruct (floor_sub_nonneg w Fw W0) as (Fs & Vs).
    destruct (frac_bounds (D2Q w)) as [B0 B1].
    apply in_unit_iff. split; [exact Fs|]. rewrite Vs. split; assumption.
  - destruct (series_statics st place Hd R) as (R1 & A1).
    pose proof (series_race_free T st place ltac:(lia) Hd R RF) as RF1.
    set (st1 := if 0 <? place then after st place else st) in *.
    destruct (bbpf16jsd_spec fuel T 1 place st HT Hd ltac:(left; reflexivity) Hf R RF)
      as (S1 & E1 & U1).
    fold st1 in E1.
    destruct (bbpf16jsd_spec fuel T 4 place st1 HT Hd
                ltac:(right; left; reflexivity) Hf R1 RF1) as (S4 & E4 & U4).
    destruct (bbpf16jsd_spec fuel T 5 place st1 HT Hd
                ltac:(right; right; left; reflexivity) Hf R1 RF1) as (S5 & E5 & U5).
    destruct (bbpf16jsd_spec fuel T 6 place st1 HT Hd
                ltac:(right; right; right; reflexivity) Hf R1 RF1) as (S6 & E6 & U6).
    rewrite A1 in E4, E5, E6.
    exists S1, S4, S5, S6.
    split; [exact E1|split; [exact E4|split; [exact E5|split; [exact E6|]]]].
    split; [exact U1|split; [exact U4|split; [exact U5|split; [exact U6|]]]].
    unfold bbpfCalc.
    rewrite (bind_Ok _ _ _ _ _ E1), (bind_Ok _ _ _ _ _ E4),
            (bind_Ok _ _ _ _ _ E5), (bind_Ok _ _ _ _ _ E6).
    reflexivity.
Qed.

Lemma bbpfCalc_combination_witness :
  exists S1 S4 S5 S6,
    bbpf16jsd (S (Z.to_nat 250000)) 1 1 250000 (fresh 64)
    = Ok (S1, if 0 <? 250000 then after (fresh 64) 250000 else fresh 64)
    /\ bbpf16jsd (S (Z.to_nat 250000)) 1 4 250000
         (if 0 <? 250000 then after (fresh 64) 250000 else fresh 64)
       = Ok (S4, if 0 <? 250000 then after (fresh 64) 250000 else fresh 64)
    /\ bbpf16jsd (S (Z.to_nat 250000)) 1 5 250000
         (if 0 <? 250000 then after (fresh 64) 250000 else fresh 64)
       = Ok (S5, if 0 <? 250000 then after (fresh 64) 250000 else fresh 64)
    /\ bbpf16jsd (S (Z.to_nat 250000)) 1 6 250000
         (if 0 <? 250000 then after (fresh 64) 250000 else fresh 64)
       = Ok (S6, if 0 <? 250000 then after (fresh 64) 250000 else fresh 64)
    /\ in_unit S1 = true /\ in_unit S4 = true /\ in_unit S5 = true
    /\ in_unit S6 = true
    /\ bbpfCalc (S (Z.to_nat 250000)) 1 250000 (fresh 64)
       = combine S1 S4 S5 S6
           (if 0 <? 250000 then after (fresh 64) 250000 else fresh 64).
Proof.
  refine (proj2 (bbpfCalc_combination (S (Z.to_nat 250000)) 1 250000 (fresh 64)
                   _ _ _ _ _)).
  - lia.
  - unfold D_MAX. lia.
  - apply Nat.lt_succ_diag_r.
  - left. reflexivity.
  - left. lia.
Defined.

(** C3: for requested position 1 (digit position 0) the computation of
    main, bbpfCalc followed by toHex, produces the nine characters
    243F6A888, whatever the worker count and the statics: no term of the
    left portion is evaluated there. *)
Theorem pi_hex_position_1 fuel T st :
  pi_hex (S fuel) T 1 st = Ok ("243F6A888"%string, st).
Proof. vm_compute. reflexivity. Qed.

(** C4, counterexample: for the chunk of one term at k0 = 200000000 with
    j = 1 and d = 200000020 the chunk evaluator returns a value below
    0.58619954, while the term (16^20 mod 1600000001) / 1600000001 is above
    0.586199543: the products of expoMod no longer fit the 53 bits of a
    double, and its remainder is not 937919270. *)
Lemma chunk_evaluator_inexact :
  exists v st,
    leftPortionThreaded_gpu 1 200000000 1 200000020 (fresh 64) = Ok (v, st)
    /\ (v <? 0.58619954)%float = true
    /\ (0.586199543 <? chunk_sum 1 1 200000020 200000000 0)%float = true
    /\ 16 ^ (200000020 - 200000000) mod (8 * 200000000 + 1) = 937919270.
Proof.
  eexists. eexists. split; [vm_compute; reflexivity|].
  repeat split; vm_compute; reflexivity.
Qed.

(** C4, as amended: for every chunk start k0 >= 0, chunk size c >= 1, series
    index j of 1, 4, 5, 6 and digit position d with k0 + c <= d <= 11863283,
    on statics ready for d - k0, the chunk evaluator returns the sum over k
    from k0 to k0 + c - 1 of (16^(d-k) mod (8k+j)) / (8k+j), the quotient
    and the sum in doubles, the floor of the accumulator subtracted after
    every addition.  The CPU's evaluator is the case c = 100000. *)
Theorem chunk_evaluator_sum c k0 j d st :
  0 <= k0 -> 1 <= c -> k0 + c <= d -> d <= D_MAX -> series j ->
  ready st (d - k0) ->
  leftPortionThreaded_gpu c k0 j d st
  = Ok (chunk_sum (Z.to_nat c) j d k0 0, after st (d - k0))
  /\ (c = 100000 ->
      leftPortionThreaded k0 j d st
      = Ok (chunk_sum (Z.to_nat c) j d k0 0, after st (d - k0))).
Proof.
  intros Hk Hc Hd HD Hj R. split.
  - apply leftPortionThreaded_gpu_spec; assumption.
  - intros ->. apply leftPortionThreaded_spec; assumption.
Qed.

Lemma chunk_evaluator_sum_witness :
  leftPortionThreaded_gpu 3 0 4 5 (fresh 32)
  = Ok (chunk_sum (Z.to_nat 3) 4 5 0 0, after (fresh 32) (5 - 0)).
Proof.
  refine (proj1 (chunk_evaluator_sum 3 0 4 5 (fresh 32) _ _ _ _ _ _)).
  - lia.
  - lia.
  - lia.
  - unfold D_MAX. lia.
  - right. left. reflexivity.
  - right. left. reflexivity.
Defined.

(** C5, counterexample: at d = 2^28 = 268435456 with j = 1 the first turn of
    the right-portion loop computes 8 * k = 2^31 in int, a signed overflow:
    the loop does not end by its early exit. *)
Lemma right_portion_overflows :
  right_portion 1 268435456 0 (fresh 64) = Undefined SignedOverflow.
Proof. vm_compute. reflexivity. Qed.

(** C5, as amended: for every digit position d >= 0 with 8 (d + 15) + j
    within int, series index j of 1, 4, 5, 6 and running sum in [0,1), the
    right-portion loop returns after adding m <= 15 terms: it leaves by
    its early exit at k = d + m, before the bound d + 100; the term it
    drops there is below 1e-17, as is every term up to the bound, and all
    m terms before it are at least 1e-17 and are added. *)
Theorem right_portion_early_exit j d s st :
  0 <= d -> series j -> 8 * (d + 15) + j <= INT_MAX -> in_unit s = true ->
  exists m,
    (m <= 15)%nat
    /\ right_portion j d s st = Ok (right_sum m j d d s, st)
    /\ (right_term_ref j d (d + Z.of_nat m) <? 1e-17)%float = true
    /\ (forall k, d <= k < d + Z.of_nat m ->
          (right_term_ref j d k <? 1e-17)%float = false)
    /\ (forall k, d + Z.of_nat m <= k <= d + 100 ->
          (right_term_ref j d k <? 1e-17)%float = true).
Proof.
  intros Hd Hj HK Hs.
  assert (Hj' : 1 <= j) by (destruct Hj as [H|[H|[H|H]]]; subst j; lia).
  destruct (right_portion_spec j d s st Hd Hj' HK Hs) as (m & Hm & E & _ & B & A).
  exists m. split; [exact Hm|split; [exact E|split; [|split; [exact B|exact A]]]].
  apply A. lia.
Qed.

Lemma right_portion_early_exit_witness :
  exists m,
    (m <= 15)%nat
    /\ right_portion 1 0 0 (fresh 64) = Ok (right_sum m 1 0 0 0, fresh 64)
    /\ (right_term_ref 1 0 (0 + Z.of_nat m) <? 1e-17)%float = true
    /\ (forall k, 0 <= k < 0 + Z.of_nat m ->
          (right_term_ref 1 0 k <? 1e-17)%float = false)
    /\ (forall k, 0 + Z.of_nat m <= k <= 0 + 100 ->
          (right_term_ref 1 0 k <? 1e-17)%float = true).
Proof.
  apply (right_portion_early_exit 1 0 0 (fresh 64)).
  - lia.
  - left. reflexivity.
  - unfold INT_MAX. lia.
  - reflexivity.
Defined.

(** C6, counterexample: after a first call with n = 1 the table holds the
    single power 1; a second call with n = 5 does not grow it and reads
    past its end. *)
Lemma table_not_regrown :
  exists r st1,
    expoMod 1 3 (fresh 64) = Ok (r, st1)
    /\ pwrtbl st1 = 1 :: repeat 0 63
    /\ init_table 5 st1 = Ok (tt, st1)
    /\ expoMod 5 3 st1 = Undefined (OutOfBoundsRead 64).
Proof.
  exists 1%float, (built 64 0). repeat split; vm_compute; reflexivity.
Qed.

(** C6, as amended: the table is built once, by the first call of the
    process, up to the smallest power of two that is at least that call's
    exponent n0: entries 2^0 .. 2^ceil(log2 n0), zeros above.  No later
    call that returns changes the statics, so the table is neither grown nor
    shrunk; it covers the exponents up to 2^ceil(log2 n0), for which later
    calls are exact. *)
Theorem table_built_once N n0 K0 :
  N = 64%nat \/ N = 32%nat -> 1 <= n0 <= 2 ^ 30 -> 1 <= K0 <= K_MAX ->
  expoMod (Z2D n0) (Z2D K0) (fresh N)
  = Ok (Z2D (16 ^ n0 mod K0), built N (Z.to_nat (Z.log2_up n0)))
  /\ (forall i, 0 <= i <= Z.log2_up n0 ->
        load i (built N (Z.to_nat (Z.log2_up n0)))
        = Ok (2 ^ i, built N (Z.to_nat (Z.log2_up n0))))
  /\ (forall i, Z.log2_up n0 < i < Z.of_nat N ->
        load i (built N (Z.to_nat (Z.log2_up n0)))
        = Ok (0, built N (Z.to_nat (Z.log2_up n0))))
  /\ (forall n k r st',
        expoMod n k (built N (Z.to_nat (Z.log2_up n0))) = Ok (r, st') ->
        st' = built N (Z.to_nat (Z.log2_up n0)))
  /\ (forall n K, 1 <= n <= 2 ^ Z.log2_up n0 -> 1 <= K <= K_MAX ->
        expoMod (Z2D n) (Z2D K) (built N (Z.to_nat (Z.log2_up n0)))
        = Ok (Z2D (16 ^ n mod K), built N (Z.to_nat (Z.log2_up n0)))).
Proof.
  intros HN Hn HK.
  pose proof (log2_up_le_30 n0 ltac:(lia)) as L30.
  pose proof (Z.log2_up_nonneg n0) as L0.
  assert (hN : (Z.to_nat (Z.log2_up n0) < N)%nat) by (destruct HN; subst N; lia).
  assert (R : ready (fresh N) n0).
  { destruct HN; subst N; [left|right; left]; reflexivity. }
  split; [|split; [|split; [|split]]].
  - rewrite <- (after_fresh N n0). apply expoMod_correct; assumption.
  - intros i Hi. apply (load_low (built N (Z.to_nat (Z.log2_up n0))) N _ i eq_refl hN). lia.
  - intros i Hi. apply (load_high (built N (Z.to_nat (Z.log2_up n0))) N _ i eq_refl hN). lia.
  - intros n k r st' E. apply (expoMod_keeps_statics n k (built N (Z.to_nat (Z.log2_up n0))) r st' eq_refl E).
  - intros n K Hn' HK'.
    rewrite <- (after_built N (Z.to_nat (Z.log2_up n0)) n) at 2.
    apply expoMod_correct; [|pose proof (pow2_le_2_30 (Z.log2_up n0) ltac:(lia)); lia|exact HK'].
    right. right. exists N, (Z.to_nat (Z.log2_up n0)).
    split; [reflexivity|split; [exact hN|split; [lia|]]].
    rewrite Z2Nat.id by lia. lia.
Qed.

Lemma table_built_once_witness :
  expoMod (Z2D 5) (Z2D 3) (fresh 64)
  = Ok (Z2D (16 ^ 5 mod 3), built 64 (Z.to_nat (Z.log2_up 5))).
Proof.
  refine (proj1 (table_built_once 64 5 3 _ _ _)).
  - left. reflexivity.
  - lia.
  - unfold K_MAX. lia.
Defined.

(** C7, counterexample: at d = 2^28 = 268435456 bbpf16jsd returns no value
    at all, whatever the fuel, the worker count and the statics: the right
    portion computes 8 * k = 2^31 in int. *)
Lemma bbpf16jsd_no_value :
  ~ (exists fuel T st, returns (bbpf16jsd fuel T 1 268435456 st)).
Proof.
  intros (fuel & T & st & a & H). unfold bbpf16jsd, bind in H.
  destruct (left_portion fuel T 1 268435456 0 0 st) as [[ks st1]|u|].
  - rewrite right_portion_overflow in H. discriminate H.
  - discriminate H.
  - discriminate H.
Qed.

(** C7, as amended: for a worker count 1 <= T <= 21474, a digit position
    0 <= d <= 11863283, a series index of 1, 4, 5, 6 and statics ready for
    d, with batches that do not race (a single worker, or the table built
    before the first batch, or d <= 100000 T so that no batch is started):
    every partial sum of a chunk is in [0,1), the floor being subtracted
    after every addition, and so is what leftPortionThreaded returns; the
    step of the running sum of bbpf16jsd, an addition followed by the
    subtraction of the integer part, takes a sum of [0,1) and a term of
    [0,1) to a sum of [0,1); and bbpf16jsd returns a value in [0,1).  With
    two workers or more, the table unbuilt and 100000 T < d the first batch
    is a data race and nothing is returned. *)
Theorem accumulators_in_unit fuel T j d st :
  1 <= T <= 21474 -> 0 <= d <= D_MAX -> series j -> (Z.to_nat d < fuel)%nat ->
  ready st d -> race_free T d st ->
  (forall count k, 0 <= k -> k + Z.of_nat count <= d ->
     in_unit (chunk_sum count j d k 0) = true)
  /\ (forall s x, in_unit s = true -> in_unit x = true ->
        in_unit ((s + x) - floor (s + x)) = true)
  /\ (forall k st1, 0 <= k -> k + 100000 <= d -> ready st1 (d - k) ->
        exists r, leftPortionThreaded k j d st1 = Ok (r, after st1 (d - k))
                  /\ in_unit r = true)
  /\ (forall s x st1, in_unit s = true -> in_unit x = true ->
        exists s', accumulate s x st1 = Ok (s', st1) /\ in_unit s' = true)
  /\ (exists s,
        bbpf16jsd fuel T j d st = Ok (s, if 0 <? d then after st d else st)
        /\ in_unit s = true)
  /\ (forall fuel T' st',
        2 <= T' <= 21474 -> init st' = false -> 100000 * T' < d ->
        bbpf16jsd (S fuel) T' j d st' = Undefined DataRace).
Proof.
  intros HT Hd Hj Hf R RF.
  assert (Hj' : 1 <= j <= 6) by (destruct Hj as [H|[H|[H|H]]]; subst j; lia).
  assert (CS : forall count k, 0 <= k -> k + Z.of_nat count <= d ->
                 in_unit (chunk_sum count j d k 0) = true).
  { intros count k Hk Hc.
    apply chunk_sum_unit; [lia|exact Hk|unfold D_MAX in Hd; lia|exact in_unit_zero]. }
  split; [exact CS|]. split; [|split; [|split; [|split]]].
  - intros s x Hs Hx. apply in_unit_iff in Hx. destruct Hx as (F & X0 & X1).
    apply floor_step_unit; [exact Hs|exact F|exact X0|apply Qlt_le_weak; exact X1].
  - intros k st1 Hk Hc R1. exists (chunk_sum (Z.to_nat 100000) j d k 0). split.
    + apply leftPortionThreaded_spec; [exact Hk|exact Hc|lia|exact Hj|exact R1].
    + apply CS; [exact Hk|lia].
  - intros s x st1 Hs Hx. apply in_unit_iff in Hx. destruct Hx as (F & X0 & X1).
    exists (drop_int (s + x)).
    apply accumulate_unit; [exact Hs|exact F|exact X0|apply Qlt_le_weak; exact X1].
  - apply bbpf16jsd_spec; assumption.
  - intros fuel' T' st' HT' I P. apply bbpf16jsd_race; assumption.
Qed.

Lemma accumulators_in_unit_witness :
  exists s,
    bbpf16jsd (S (Z.to_nat 1100000)) 8 1 1100000 (built 64 21)
    = Ok (s, if 0 <? 1100000 then after (built 64 21) 1100000 else built 64 21)
    /\ in_unit s = true.
Proof.
  refine (proj1 (proj2 (proj2 (proj2 (proj2
            (accumulators_in_unit (S (Z.to_nat 1100000)) 8 1 1100000 (built 64 21)
               _ _ _ _ _ _)))))).
  - lia.
  - unfold D_MAX. lia.
  - left. reflexivity.
  - apply Nat.lt_succ_diag_r.
  - right. right. exists 64%nat, 21%nat.
    split; [reflexivity|split; [lia|split; [lia|]]].
    change (2 ^ Z.of_nat 21) with 2097152. lia.
  - right. left. reflexivity.
Defined.

(** C9, counterexample: after a first call with the exponent 5 a call with
    the exponent 7, larger than 5, returns: all its reads are inside the
    table, which reaches 8. *)
Lemma expoMod_beyond_first_exponent :
  exists r st1 r',
    expoMod 5 3 (fresh 64) = Ok (r, st1)
    /\ expoMod 7 3 st1 = Ok (r', st1).
Proof.
  exists 1%float, (built 64 3), 1%float. split; vm_compute; reflexivity.
Qed.

(** C9, as amended: after a first call with the exponent n0, which builds
    the table up to 2^ceil(log2 n0), a call expoMod(n, k) with n an int
    reads outside the table exactly when n < 1 or n > 2^ceil(log2 n0): for
    n < 1 the scan stops at index 0 and the read is at index -1; for
    n > 2^ceil(log2 n0) the scan passes the powers and the zeros above them
    and reads at the index N, the size of the table.  With a worker count
    1 <= T <= 21474 and 0 <= d <= 11863283, on statics ready for d and with
    batches that do not race (a single worker, or the table built before
    the first batch, or d <= 100000 T), every call bbpf16jsd makes is with
    n = d - k and 0 <= k < d, and bbpf16jsd returns.  With two workers or
    more, the table unbuilt and 100000 T < d, the first call of expoMod is
    made inside the racing workers. *)
Theorem expoMod_reads_in_bounds N n0 n k :
  N = 64%nat \/ N = 32%nat -> 1 <= n0 <= 2 ^ 30 -> INT_MIN <= n <= INT_MAX ->
  (forall K0, 1 <= K0 <= K_MAX ->
     expoMod (Z2D n0) (Z2D K0) (fresh N)
     = Ok (Z2D (16 ^ n0 mod K0), built N (Z.to_nat (Z.log2_up n0))))
  /\ (oob_read (expoMod (Z2D n) k (built N (Z.to_nat (Z.log2_up n0))))
      <-> ~ (1 <= n <= 2 ^ Z.log2_up n0))
  /\ (n < 1 ->
      expoMod (Z2D n) k (built N (Z.to_nat (Z.log2_up n0)))
      = Undefined (OutOfBoundsRead (-1)))
  /\ (2 ^ Z.log2_up n0 < n ->
      expoMod (Z2D n) k (built N (Z.to_nat (Z.log2_up n0)))
      = Undefined (OutOfBoundsRead (Z.of_nat N)))
  /\ (forall fuel T j d st,
        1 <= T <= 21474 -> 0 <= d <= D_MAX -> series j ->
        (Z.to_nat d < fuel)%nat -> ready st d -> race_free T d st ->
        returns (bbpf16jsd fuel T j d st))
  /\ (forall fuel T j d st,
        2 <= T <= 21474 -> 0 <= d <= D_MAX -> init st = false -> 100000 * T < d ->
        bbpf16jsd (S fuel) T j d st = Undefined DataRace).
Proof.
  intros HN Hn0 Hn. unfold INT_MIN, INT_MAX in Hn.
  pose proof (log2_up_le_30 n0 ltac:(lia)) as L30.
  pose proof (Z.log2_up_nonneg n0) as L0.
  set (h := Z.to_nat (Z.log2_up n0)).
  assert (Eh : Z.of_nat h = Z.log2_up n0) by (unfold h; lia).
  assert (hN : (h < N)%nat) by (destruct HN; subst N; lia).
  assert (N64 : (N <= 64)%nat) by (destruct HN; subst N; lia).
  assert (R : ready (fresh N) n0).
  { destruct HN; subst N; [left|right; left]; reflexivity. }
  assert (Low : n < 1 ->
            expoMod (Z2D n) k (built N h) = Undefined (OutOfBoundsRead (-1))).
  { intros C. apply expoMod_below_one; [exact hN|lia]. }
  assert (High : 2 ^ Z.log2_up n0 < n ->
            expoMod (Z2D n) k (built N h) = Undefined (OutOfBoundsRead (Z.of_nat N))).
  { intros C. apply expoMod_past_table; [exact hN|lia|exact N64|rewrite Eh; lia]. }
  split; [|split; [|split; [exact Low|split; [exact High|split]]]].
  - intros K0 HK0. unfold h. rewrite <- (after_fresh N n0).
    apply expoMod_correct; assumption.
  - split.
    + intros [i E] In.
      destruct (expoMod_in_bounds N h n k hN ltac:(lia) ltac:(rewrite Eh; exact In))
        as [[r E']|E']; rewrite E' in E; discriminate E.
    + intros Out. destruct (Z_lt_le_dec n 1) as [C|C].
      * exists (-1). apply Low. exact C.
      * exists (Z.of_nat N). apply High. lia.
  - intros fuel T j d st HT Hd Hj Hf Rd RF.
    destruct (bbpf16jsd_spec fuel T j d st HT Hd Hj Hf Rd RF) as (s & E & _).
    eexists. exact E.
  - intros fuel T j d st HT Hd I P. apply bbpf16jsd_race; assumption.
Qed.

Lemma expoMod_reads_in_bounds_witness :
  expoMod (Z2D 0) 9 (built 64 (Z.to_nat (Z.log2_up 5)))
  = Undefined (OutOfBoundsRead (-1)).
Proof.
  refine (proj1 (proj2 (proj2
            (expoMod_reads_in_bounds 64 5 0 9 _ _ _))) _).
  - left. reflexivity.
  - lia.
  - unfold INT_MIN, INT_MAX. lia.
  - lia.
Defined.

(** C10, counterexample: with noOfThreads = 2^27 = 134217728 and d = 1 the
    product 100000 * noOfThreads is 0 in unsigned arithmetic and the
    parallel branch is taken, as it is for noOfThreads = 0: the workers
    race on the unbuilt table, and the chunk of each of them runs past d
    (the first one calls expoMod with the exponent 0).  bbpf16jsd(1, 1) does
    not return, whatever the fuel. *)
Lemma bbpf16jsd_wrapped_worker_count :
  ~ (exists fuel, returns (bbpf16jsd fuel 134217728 1 1 (fresh 64))).
Proof.
  intros (fuel & a & H).
  destruct fuel as [|fuel]; [discriminate H|].
  assert (E : left_portion (S fuel) 134217728 1 1 0 0 (fresh 64)
              = Undefined DataRace).
  { apply left_portion_race.
    - reflexivity.
    - vm_compute. reflexivity.
    - lia.
    - reflexivity. }
  unfold bbpf16jsd in H. rewrite (bind_Undefined _ _ _ _ E) in H. discriminate H.
Qed.

(** C10, as amended: for a worker count 1 <= T <= 21474 (so that
    100000 * T does not wrap around), a digit position 0 <= d <= 11863283
    and a series index of 1, 4, 5, 6, on statics ready for d and with
    batches that do not race (a single worker, or the table built before
    the first batch, or d <= 100000 T), bbpf16jsd(j, d) returns once the
    fuel exceeds d: every turn of the left-portion loop takes k to
    k + 100000 T (parallel branch) or to k + 1 (sequential branch), and the
    right portion ends within 15 of its 101 turns.  With noOfThreads = 0 and
    d > 0 the parallel branch is taken without advancing k and no amount of
    fuel suffices.  With two workers or more, the table unbuilt and
    100000 T < d the first batch is a data race and nothing is returned. *)
Theorem bbpf16jsd_terminates T j d st :
  1 <= T <= 21474 -> 0 <= d <= D_MAX -> series j -> ready st d ->
  race_free T d st ->
  (forall fuel, (Z.to_nat d < fuel)%nat -> returns (bbpf16jsd fuel T j d st))
  /\ (forall k s st1,
        0 <= k < d -> in_unit s = true -> ready st1 (d - k) ->
        T <= 1 \/ init st1 = true \/ d <= k + 100000 * T ->
        exists k' s',
          (k' = k + 100000 * T /\ k' < d \/ k' = k + 1 /\ d <= k + 100000 * T)
          /\ forall fuel,
               left_portion (S fuel) T j d k s st1
               = left_portion fuel T j d k' s' (after st1 (d - k)))
  /\ (forall s st1, in_unit s = true ->
        exists m, (m <= 15)%nat
                  /\ right_portion j d s st1 = Ok (right_sum m j d d s, st1))
  /\ (0 < d -> forall fuel, bbpf16jsd fuel 0 j d st = OutOfFuel)
  /\ (forall fuel T' st',
        2 <= T' <= 21474 -> init st' = false -> 100000 * T' < d ->
        bbpf16jsd (S fuel) T' j d st' = Undefined DataRace).
Proof.
  intros HT Hd Hj R RF.
  assert (Hj' : 1 <= j <= 6) by (destruct Hj as [H|[H|[H|H]]]; subst j; lia).
  split; [|split; [|split; [|split]]].
  - intros fuel Hf.
    destruct (bbpf16jsd_spec fuel T j d st HT Hd Hj Hf R RF) as (s & E & _).
    eexists. exact E.
  - intros k s st1 Hk Hs R1 RF1.
    destruct (left_portion_step T j d k s st1 HT ltac:(lia) Hj Hk Hs R1 RF1)
      as (k' & s' & Hk' & _ & E).
    exists k', s'. split; [exact Hk'|exact E].
  - intros s st1 Hs.
    destruct (right_portion_spec j d s st1 ltac:(lia) ltac:(lia)
                ltac:(unfold INT_MAX, D_MAX in *; lia) Hs) as (m & Hm & E & _).
    exists m. split; [exact Hm|exact E].
  - intros C fuel. unfold bbpf16jsd. apply bind_OutOfFuel.
    apply left_portion_no_workers; [lia|unfold INT_MAX, D_MAX in *; lia].
  - intros fuel T' st' HT' I P. apply bbpf16jsd_race; assumption.
Qed.

Lemma bbpf16jsd_terminates_witness :
  returns (bbpf16jsd (S (Z.to_nat 250000)) 1 4 250000 (fresh 64)).
Proof.
  refine (proj1 (bbpf16jsd_terminates 1 4 250000 (fresh 64) _ _ _ _ _)
            (S (Z.to_nat 250000)) _).
  - lia.
  - unfold D_MAX. lia.
  - right. left. reflexivity.
  - left. reflexivity.
  - left. lia.
  - apply Nat.lt_succ_diag_r.
Defined.
(** * Further properties of the program *)

Local Open Scope Z_scope.

(** X1: toHex on a finite, non-negative double writes the first nine
    hexadecimal digits of its fractional part, exactly: the character at
    index i is hexNumbers[floor(16^(i+1) x) mod 16], one of 0-9, A-F; no
    rounding takes place, and the double left in [*in] is in [0,16). *)
Theorem toHex_hex_expansion x st :
  finiteD x = true -> (0 <= D2Q x)%Q ->
  exists x',
    toHex x st
    = Ok ((string_of_list_ascii
             (map (fun n => hex_char (hex_digit (D2Q x) n)) (seq 0 9)), x'), st)
    /\ forallb is_hex_digit
         (map (fun n => hex_char (hex_digit (D2Q x) n)) (seq 0 9)) = true
    /\ finiteD x' = true /\ (0 <= D2Q x')%Q /\ (D2Q x' < 16)%Q.
Proof.
  intros F P.
  destruct (toHex_loop_digits (D2Q x) st 9 0 x F P) as (x' & E & F' & P' & U').
  { apply frac_comp. change (inject_Z (16 ^ Z.of_nat 0)) with 1%Q. ring. }
  exists x'. split; [|split; [apply map_hex_digits|split; [exact F'|split; [exact P'|]]]].
  - unfold toHex. rewrite (bind_Ok _ _ _ _ _ E). reflexivity.
  - apply U'. discriminate.
Qed.

Lemma toHex_hex_expansion_witness :
  exists x',
    toHex 0.75 (fresh 64)
    = Ok ((string_of_list_ascii
             (map (fun n => hex_char (hex_digit (D2Q 0.75) n)) (seq 0 9)), x'),
          fresh 64).
Proof.
  destruct (toHex_hex_expansion 0.75 (fresh 64)) as (x' & E & _).
  - reflexivity.
  - vm_compute. discriminate.
  - exists x'. exact E.
Defined.

(** X2: toHex never reads outside hexNumbers.  On a finite double of either
    sign it returns nine characters of hexNumbers: the first may be its
    terminating NUL (index 16), the eight after it are digits 0-9, A-F.
    On an infinity or a NaN the conversion [static_cast<int>] of its first
    turn is undefined. *)
Theorem toHex_in_bounds x st :
  (finiteD x = true ->
   exists c cs x',
     toHex x st = Ok ((String c (string_of_list_ascii cs), x'), st)
     /\ In c hexNumbers /\ length cs = 8%nat /\ forallb is_hex_digit cs = true)
  /\ (finiteD x = false -> toHex x st = Undefined DoubleToInt).
Proof.
  split.
  - intros F. destruct (toHex_loop_finite x st 8 F) as (cs & x' & E & R & L & D).
    exists (hex_char (Qfloor (D2Q (16 * (x - floor x))))), cs, x'.
    split; [|split; [apply hex_char_in; exact R|split; [exact L|exact D]]].
    unfold toHex. rewrite (bind_Ok _ _ _ _ _ E). reflexivity.
  - intros F. unfold toHex. apply bind_Undefined.
    apply toHex_loop_not_finite. exact F.
Qed.

(** X3: on a negative double of magnitude at most 2^-54 the fractional part
    x - floor(x) rounds to 1, the index is 16 and the first character toHex
    writes is the terminating NUL of hexNumbers: the C string is empty. *)
Theorem toHex_writes_nul x st :
  finiteD x = true -> (- pow2 (-54) <= D2Q x)%Q -> (D2Q x < 0)%Q ->
  exists cs x',
    toHex x st = Ok ((String Ascii.zero (string_of_list_ascii cs), x'), st)
    /\ length cs = 8%nat.
Proof.
  intros F L N. destruct (toHex_loop_finite x st 8 F) as (cs & x' & E & _ & Len & _).
  pose proof (floor_sub_below_zero x F L N) as V.
  rewrite (Qfloor_comp _ _ V) in E. change (Qfloor 16) with 16 in E.
  exists cs, x'. split; [|exact Len].
  unfold toHex. rewrite (bind_Ok _ _ _ _ _ E). reflexivity.
Qed.

Lemma toHex_writes_nul_witness :
  exists cs x',
    toHex (-0x1p-60) (fresh 64)
    = Ok ((String Ascii.zero (string_of_list_ascii cs), x'), fresh 64)
    /\ length cs = 8%nat.
Proof.
  apply (toHex_writes_nul (-0x1p-60)%float (fresh 64)).
  - reflexivity.
  - vm_compute. discriminate.
  - vm_compute. reflexivity.
Defined.

(** X4: main of the CPU program.  With the position taken from argv[1] when
    it is given and positive, and 10000000 otherwise, at most 11863284, and a
    worker count (argv[2] when given and positive, hardware_concurrency
    otherwise) from 1 to 21474, with batches that do not race (a single
    worker, or position - 1 <= 100000 workers so that no batch is started),
    main runs without undefined behaviour and the string it prints after
    the label is made of exactly nine characters among 0-9, A-F. *)
Theorem main_cpu_prints_digits fuel argc a1 a2 hw st :
  main_position argc a1 <= D_MAX + 1 ->
  1 <= main_noOfThreads argc a2 hw <= 21474 ->
  (Z.to_nat (main_position argc a1) <= fuel)%nat ->
  ready st (main_position argc a1 - 1) ->
  race_free (main_noOfThreads argc a2 hw) (main_position argc a1 - 1) st ->
  exists digits st',
    main_cpu fuel argc a1 a2 hw st = Ok (digits, st')
    /\ String.length digits = 9%nat
    /\ forallb is_hex_digit (list_ascii_of_string digits) = true.
Proof.
  intros Hp HT Hf R RF.
  set (position := main_position argc a1) in *.
  assert (P1 : 1 <= position).
  { unfold position, main_position. destruct (Z.leb_spec 2 argc); cbn [andb]; [|lia].
    destruct (Z.ltb_spec 0 a1); lia. }
  assert (EP : main_placeNo argc a1 st = Ok (position - 1, st)).
  { unfold main_placeNo. unfold position, main_position in *.
    destruct ((2 <=? argc) && (0 <? a1));
      apply int_Ok; unfold INT_MIN, INT_MAX, D_MAX in *; lia. }
  destruct (bbpfCalc_spec fuel (main_noOfThreads argc a2 hw) (position - 1) st HT
              ltac:(lia) ltac:(lia) R RF) as (w & E & Fw & W0 & _).
  destruct (toHex_loop_digits (D2Q w)
              (if 0 <? position - 1 then after st (position - 1) else st) 9 0 w Fw W0)
    as (x' & EH & _).
  { apply frac_comp. change (inject_Z (16 ^ Z.of_nat 0)) with 1%Q. ring. }
  eexists. eexists. split; [|split].
  - unfold main_cpu. rewrite (bind_Ok _ _ _ _ _ EP).
    rewrite (bind_Ok _ _ _ _ _
               (int_Ok (position - 1 + 1) st
                  ltac:(unfold INT_MIN, INT_MAX, D_MAX in *; lia))).
    rewrite (bind_Ok _ _ _ _ _ E). unfold toHex.
    rewrite (bind_Ok _ _ _ _ _ (bind_Ok _ _ _ _ _ EH)).
    reflexivity.
  - cbn [fst]. rewrite string_length_of_list, length_map, length_seq. reflexivity.
  - cbn [fst]. rewrite list_ascii_of_string_of_list_ascii. apply map_hex_digits.
Qed.

Lemma main_cpu_prints_digits_witness :
  exists digits st',
    main_cpu (Z.to_nat 10000000) 1 0 0 1 (fresh 64) = Ok (digits, st')
    /\ String.length digits = 9%nat
    /\ forallb is_hex_digit (list_ascii_of_string digits) = true.
Proof.
  apply (main_cpu_prints_digits (Z.to_nat 10000000) 1 0 0 1 (fresh 64)).
  - vm_compute. discriminate.
  - vm_compute. split; discriminate.
  - apply Nat.le_refl.
  - left. reflexivity.
  - left. vm_compute. discriminate.
Defined.

(** X5: when the worker count main settles on is 0 (no positive argv[2]
    and hardware_concurrency reporting 0), main does not return for any
    position above 1, the default position 10000000 included: the loop of
    the left portion takes its parallel branch and never advances. *)
Theorem main_cpu_no_workers fuel argc a1 a2 hw st :
  main_noOfThreads argc a2 hw = 0 ->
  2 <= main_position argc a1 <= INT_MAX ->
  main_cpu fuel argc a1 a2 hw st = OutOfFuel.
Proof.
  intros HT HP. unfold INT_MAX in HP.
  assert (EP : main_placeNo argc a1 st = Ok (main_position argc a1 - 1, st)).
  { unfold main_placeNo. unfold main_position in *.
    destruct ((2 <=? argc) && (0 <? a1));
      apply int_Ok; unfold INT_MIN, INT_MAX; lia. }
  unfold main_cpu. rewrite (bind_Ok _ _ _ _ _ EP).
  rewrite (bind_Ok _ _ _ _ _ (int_Ok (main_position argc a1 - 1 + 1) st
             ltac:(unfold INT_MIN, INT_MAX; lia))).
  rewrite HT. apply bind_OutOfFuel. unfold bbpfCalc. apply bind_OutOfFuel.
  unfold bbpf16jsd. apply bind_OutOfFuel.
  apply left_portion_no_workers; unfold INT_MAX; lia.
Qed.

Lemma main_cpu_no_workers_witness :
  main_cpu 5 1 0 0 0 (fresh 64) = OutOfFuel.
Proof.
  apply (main_cpu_no_workers 5 1 0 0 0 (fresh 64)).
  - reflexivity.
  - vm_compute. split; discriminate.
Defined.

(** X6: expoMod is exact on its whole working range: for every exponent
    1 <= n <= 2^30 and modulus 1 <= k <= 94906266, called on the first call
    of the process or with a table that reaches n, expoMod(n, k) returns the
    double of the integer 16^n mod k, which is below k, and leaves the table
    built. *)
Theorem expoMod_exact_range st n K :
  ready st n -> 1 <= n <= 2 ^ 30 -> 1 <= K <= K_MAX ->
  expoMod (Z2D n) (Z2D K) st = Ok (Z2D (16 ^ n mod K), after st n)
  /\ 0 <= 16 ^ n mod K < K
  /\ truncD (Z2D (16 ^ n mod K)) = Some (16 ^ n mod K)
  /\ init (after st n) = true.
Proof.
  intros R Hn HK. unfold K_MAX in HK.
  pose proof (Z.mod_pos_bound (16 ^ n) K ltac:(lia)) as B.
  split; [apply expoMod_correct; [exact R|exact Hn|unfold K_MAX; lia]|].
  split; [exact B|]. split.
  - destruct (Z2D_correct (16 ^ n mod K) ltac:(lia)) as (F & _ & V).
    rewrite (truncD_nonneg _ F).
    + rewrite (Qfloor_comp _ _ V), Qfloor_Z. reflexivity.
    + rewrite V. apply Z2Q_nonneg. lia.
  - apply after_ready; assumption.
Qed.

Lemma expoMod_exact_range_witness :
  expoMod (Z2D 1073741824) (Z2D 94906266) (fresh 32)
  = Ok (Z2D (16 ^ 1073741824 mod 94906266), after (fresh 32) 1073741824).
Proof.
  refine (proj1 (expoMod_exact_range (fresh 32) 1073741824 94906266 _ _ _)).
  - right. left. reflexivity.
  - lia.
  - unfold K_MAX. lia.
Defined.

(** X7: the first call of expoMod in a process, outside its range.  With an
    exponent n < 1 the table is built with the single entry 1, the bit scan
    stops at index 0, the index is decremented and pwrtbl[-1] is read.  With
    an exponent above 2^30 the entry 2^30 is doubled while the table is
    built, which overflows int. *)
Theorem expoMod_first_call_edges N n k :
  N = 64%nat \/ N = 32%nat -> INT_MIN <= n <= INT_MAX ->
  (n < 1 -> expoMod (Z2D n) k (fresh N) = Undefined (OutOfBoundsRead (-1)))
  /\ (2 ^ 30 < n -> expoMod (Z2D n) k (fresh N) = Undefined SignedOverflow).
Proof.
  unfold INT_MIN, INT_MAX. intros HN Hn.
  assert (31 <= N)%nat by (destruct HN; subst N; lia).
  split; intros C.
  - apply expoMod_first_below_one; [assumption|lia].
  - apply expoMod_first_overflow; [assumption|lia].
Qed.

Lemma expoMod_first_call_edges_witness :
  expoMod (Z2D 1073741825) 7 (fresh 64) = Undefined SignedOverflow.
Proof.
  refine (proj2 (expoMod_first_call_edges 64 1073741825 7 _ _) _).
  - left. reflexivity.
  - unfold INT_MIN, INT_MAX. lia.
  - lia.
Defined.

(** X8: a chunk that runs past the digit position.  When the chunk
    [k0, k0 + terms) contains d (0 <= k0 <= d < k0 + terms, d <= 11863283,
    k0 + terms within int), the evaluator sums the terms below d and then,
    at k = d, calls expoMod with the exponent 0, which reads pwrtbl[-1]: the
    guard [k + chunk < d] of the caller is what keeps the chunks in
    range. *)
Theorem chunk_overrun terms k0 j d st :
  0 <= k0 <= d -> d < k0 + terms -> k0 + terms <= INT_MAX -> d <= D_MAX ->
  series j -> ready st (d - k0) ->
  leftPortionThreaded_gpu terms k0 j d st = Undefined (OutOfBoundsRead (-1))
  /\ (terms = 100000 ->
      leftPortionThreaded k0 j d st = Undefined (OutOfBoundsRead (-1))).
Proof.
  intros Hk Hd HB HD Hj R.
  assert (Hj' : 1 <= j <= 6) by (destruct Hj as [H|[H|[H|H]]]; subst j; lia).
  assert (G : leftPortionThreaded_gpu terms k0 j d st
              = Undefined (OutOfBoundsRead (-1))).
  { unfold leftPortionThreaded_gpu.
    rewrite (bind_Ok _ _ _ _ _
               (int_Ok (k0 + terms) st ltac:(unfold INT_MIN, INT_MAX in *; lia))).
    apply (chunk_loop_overrun (k0 + terms) j d Hd HB HD Hj'); [exact R|lia|lia]. }
  split; [exact G|]. intros ->. exact G.
Qed.

Lemma chunk_overrun_witness :
  leftPortionThreaded 0 1 7 (fresh 64) = Undefined (OutOfBoundsRead (-1)).
Proof.
  refine (proj2 (chunk_overrun 100000 0 1 7 (fresh 64) _ _ _ _ _ _) eq_refl).
  - lia.
  - lia.
  - unfold INT_MAX. lia.
  - unfold D_MAX. lia.
  - left. reflexivity.
  - left. reflexivity.
Defined.

(** X9: bbpf16jsd as a function.  For 1 <= T <= 21474 workers, a position
    0 <= d <= 11863283 and a series index of 1, 4, 5, 6, with batches that
    do not race, the value of bbpf16jsd(j, d) is [series_ref T j d]: batches
    of T chunks of 100000 terms, worker i summing the terms from
    k + 100000 i, folded into the running sum from the last worker to the
    first, then single terms, then the right portion.  It is in [0,1) and
    depends neither on the fuel nor on the statics: the first evaluation
    of a process and any later one return the same double. *)
Theorem bbpf16jsd_function T j d fuel st fuel' st' :
  1 <= T <= 21474 -> 0 <= d <= D_MAX -> series j ->
  (Z.to_nat d < fuel)%nat -> ready st d -> race_free T d st ->
  (Z.to_nat d < fuel')%nat -> ready st' d -> race_free T d st' ->
  bbpf16jsd fuel T j d st
  = Ok (series_ref T j d, if 0 <? d then after st d else st)
  /\ in_unit (series_ref T j d) = true
  /\ value (bbpf16jsd fuel' T j d st') = value (bbpf16jsd fuel T j d st).
Proof.
  intros HT Hd Hj Hf R RF Hf' R' RF'.
  destruct (bbpf16jsd_ref fuel T j d st HT Hd Hj Hf R RF) as (E & U).
  destruct (bbpf16jsd_ref fuel' T j d st' HT Hd Hj Hf' R' RF') as (E' & _).
  split; [exact E|split; [exact U|]]. rewrite E, E'. reflexivity.
Qed.

Lemma bbpf16jsd_function_witness :
  value (bbpf16jsd (S (S (Z.to_nat 250000))) 1 5 250000 (built 32 18))
  = value (bbpf16jsd (S (Z.to_nat 250000)) 1 5 250000 (fresh 64)).
Proof.
  refine (proj2 (proj2 (bbpf16jsd_function 1 5 250000
                          (S (Z.to_nat 250000)) (fresh 64)
                          (S (S (Z.to_nat 250000))) (built 32 18)
                          _ _ _ _ _ _ _ _ _))).
  - lia.
  - unfold D_MAX. lia.
  - right. right. left. reflexivity.
  - apply Nat.lt_succ_diag_r.
  - left. reflexivity.
  - left. lia.
  - apply Nat.lt_lt_succ_r, Nat.lt_succ_diag_r.
  - right. right. exists 32%nat, 18%nat.
    split; [reflexivity|split; [lia|split; [lia|]]].
    change (2 ^ Z.of_nat 18) with 262144. lia.
  - left. lia.
Defined.

(** X11: the data race of the default run.  When main settles on two
    workers or more (at most 21474) and a position with
    100000 workers < position - 1 <= 11863283, the first batch is started on
    the unbuilt table: the workers race on the statics of expoMod, which is
    undefined behaviour.  This is the case of the default position 10000000
    with 2 to 99 workers. *)
Theorem main_cpu_data_race fuel argc a1 a2 hw st :
  2 <= main_noOfThreads argc a2 hw <= 21474 ->
  100000 * main_noOfThreads argc a2 hw < main_position argc a1 - 1 ->
  main_position argc a1 - 1 <= D_MAX ->
  init st = false ->
  main_cpu (S fuel) argc a1 a2 hw st = Undefined DataRace.
Proof.
  intros HT HP HD I.
  assert (EP : main_placeNo argc a1 st = Ok (main_position argc a1 - 1, st)).
  { unfold main_placeNo. unfold main_position in *.
    destruct ((2 <=? argc) && (0 <? a1));
      apply int_Ok; unfold INT_MIN, INT_MAX, D_MAX in *; lia. }
  unfold main_cpu. rewrite (bind_Ok _ _ _ _ _ EP).
  rewrite (bind_Ok _ _ _ _ _ (int_Ok (main_position argc a1 - 1 + 1) st
             ltac:(unfold INT_MIN, INT_MAX, D_MAX in *; lia))).
  apply bind_Undefined. unfold bbpfCalc. apply bind_Undefined.
  apply bbpf16jsd_race; [exact HT|lia|exact I|exact HP].
Qed.

Lemma main_cpu_data_race_witness :
  main_cpu 1 1 0 0 8 (fresh 64) = Undefined DataRace.
Proof.
  apply (main_cpu_data_race 0 1 0 0 8 (fresh 64)).
  - vm_compute. split; discriminate.
  - vm_compute. reflexivity.
  - vm_compute. discriminate.
  - reflexivity.
Defined.

(** X10: the order of the four series does not matter.  C++ leaves open the
    order in which the operands of
    4.*bbpf16jsd(1,n) - 2.*bbpf16jsd(4,n) - bbpf16jsd(5,n) - bbpf16jsd(6,n)
    are evaluated.  For 1 <= T <= 21474, 0 <= place <= 11863283 and batches
    that do not race, every order of the four calls gives what the
    left-to-right order gives, the same double and the same statics: the
    first call builds the table, whichever it is, and each value is
    [series_ref] of its index. *)
Theorem bbpfCalc_order_independent fuel T place order st :
  1 <= T <= 21474 -> 0 <= place <= D_MAX -> (Z.to_nat place < fuel)%nat ->
  ready st place -> race_free T place st ->
  (forall j, In j order <-> series j) ->
  bbpfCalc_in_order fuel T place order st = bbpfCalc fuel T place st
  /\ bbpfCalc fuel T place st
     = combine (series_ref T 1 place) (series_ref T 4 place)
               (series_ref T 5 place) (series_ref T 6 place)
               (if 0 <? place then after st place else st).
Proof.
  intros HT Hd Hf R RF Ho.
  assert (I1 : In 1 order) by (apply Ho; left; reflexivity).
  assert (I4 : In 4 order) by (apply Ho; right; left; reflexivity).
  assert (I5 : In 5 order) by (apply Ho; right; right; left; reflexivity).
  assert (I6 : In 6 order) by (apply Ho; right; right; right; reflexivity).
  assert (B : bbpfCalc fuel T place st
              = combine (series_ref T 1 place) (series_ref T 4 place)
                        (series_ref T 5 place) (series_ref T 6 place)
                        (if 0 <? place then after st place else st)).
  { destruct (series_statics st place Hd R) as (R1 & A1).
    pose proof (series_race_free T st place ltac:(lia) Hd R RF) as RF1.
    destruct (bbpf16jsd_ref fuel T 1 place st HT Hd ltac:(left; reflexivity) Hf R RF)
      as (E1 & _).
    destruct (bbpf16jsd_ref fuel T 4 place _ HT Hd
                ltac:(right; left; reflexivity) Hf R1 RF1) as (E4 & _).
    destruct (bbpf16jsd_ref fuel T 5 place _ HT Hd
                ltac:(right; right; left; reflexivity) Hf R1 RF1) as (E5 & _).
    destruct (bbpf16jsd_ref fuel T 6 place _ HT Hd
                ltac:(right; right; right; reflexivity) Hf R1 RF1) as (E6 & _).
    rewrite A1 in E4, E5, E6. unfold bbpfCalc.
    rewrite (bind_Ok _ _ _ _ _ E1), (bind_Ok _ _ _ _ _ E4),
            (bind_Ok _ _ _ _ _ E5), (bind_Ok _ _ _ _ _ E6).
    reflexivity. }
  split; [|exact B]. rewrite B. unfold bbpfCalc_in_order.
  rewrite (bind_Ok _ _ _ _ _
             (eval_series_ref fuel T place HT Hd Hf order st
                (fun j Hj => proj1 (Ho j) Hj) R RF)).
  rewrite !series_value_ref by assumption.
  destruct order; [destruct I1|reflexivity].
Qed.

Lemma bbpfCalc_order_independent_witness :
  bbpfCalc_in_order (S (Z.to_nat 250000)) 1 250000 [6; 4; 1; 5] (fresh 64)
  = bbpfCalc (S (Z.to_nat 250000)) 1 250000 (fresh 64).
Proof.
  refine (proj1 (bbpfCalc_order_independent (S (Z.to_nat 250000)) 1 250000
                   [6; 4; 1; 5] (fresh 64) _ _ _ _ _ _)).
  - lia.
  - unfold D_MAX. lia.
  - apply Nat.lt_succ_diag_r.
  - left. reflexivity.
  - left. lia.
  - intros j. unfold series. cbn [In]. intuition lia.
Defined.
